(** * IMG-2-Particles: morph and physics core of [Framer.tsx]

    A shallow embedding of the particle simulation of [src/Framer.tsx]:
    [handleCollisions], the per-frame [animate] loop, the pointer
    handlers, the image-update effects and the morph trigger.

    - Numbers.  JavaScript numbers are read as real numbers: arithmetic is
      exact, and rounding, NaN and infinities are outside the model.
    - Shared objects.  Particles are objects mutated in place and shared
      between the particle array and the cells of the spatial grid.  The
      array is one store, a [list Particle]; a cell holds indices into it,
      and every read goes to the store as it is at that moment.
    - Time and chance.  A handler takes the value of [performance.now()]
      as its argument [now], and the results of [Math.random()] as a
      function [rnd] from the rank of the call to its result.
    - The callback.  [onMorphCompleteRef.current(direction)] is recorded
      in a trace, the field [completed] of the state.
    - The renderer.  Camera, scene, lights and the instanced mesh are not
      modelled, except for the fact that the mesh exists, which the source
      tests; the pointer position projected on the plane [z = 0] is an
      argument [pos] of the tick. *)

From stdpp Require Import base list gmap.
From Stdlib Require Import Reals Lra Lia ZArith Zfloor.

Local Open Scope R_scope.

(** ** Comparisons of numbers as booleans *)

Definition Rltb (a b : R) : bool := if Rlt_dec a b then true else false.
Definition Rleb (a b : R) : bool := if Rle_dec a b then true else false.
Definition Reqb (a b : R) : bool := if Req_dec_T a b then true else false.

(** ** The part of three.js the component uses

    [THREE.Vector3], [THREE.Color] and [THREE.MathUtils] are an external
    library; the methods below follow its documented arithmetic. *)

Module THREE.

Record Vector3 : Type := mkVector3 { x : R; y : R; z : R }.

Record Color : Type := mkColor { r : R; g : R; b : R }.

(** [new THREE.Vector3()] *)
Definition zero : Vector3 := mkVector3 0 0 0.

(** [a.add(v)] *)
Definition add (a v : Vector3) : Vector3 :=
  mkVector3 (x a + x v) (y a + y v) (z a + z v).

(** [a.sub(v)] and [t.subVectors(a, v)] *)
Definition sub (a v : Vector3) : Vector3 :=
  mkVector3 (x a - x v) (y a - y v) (z a - z v).

(** [a.multiplyScalar(s)] *)
Definition multiplyScalar (a : Vector3) (s : R) : Vector3 :=
  mkVector3 (x a * s) (y a * s) (z a * s).

(** [a.dot(v)] *)
Definition dot (a v : Vector3) : R := x a * x v + y a * y v + z a * z v.

(** [a.lengthSq()] *)
Definition lengthSq (a : Vector3) : R := dot a a.

(** [a.length()] *)
Definition length (a : Vector3) : R := sqrt (lengthSq a).

(** [a.distanceToSquared(v)] *)
Definition distanceToSquared (a v : Vector3) : R :=
  let dx := x a - x v in
  let dy := y a - y v in
  let dz := z a - z v in
  dx * dx + dy * dy + dz * dz.

(** [a.distanceTo(v)] *)
Definition distanceTo (a v : Vector3) : R := sqrt (distanceToSquared a v).

(** [a.normalize()], which is [a.divideScalar(a.length() || 1)] *)
Definition normalize (a : Vector3) : Vector3 :=
  let l := length a in
  multiplyScalar a (1 / (if Reqb l 0 then 1 else l)).

(** [t.crossVectors(a, v)] *)
Definition crossVectors (a v : Vector3) : Vector3 :=
  mkVector3 (y a * z v - z a * y v)
            (z a * x v - x a * z v)
            (x a * y v - y a * x v).

(** [a.lerp(v, alpha)] *)
Definition lerp (a v : Vector3) (alpha : R) : Vector3 :=
  mkVector3 (x a + (x v - x a) * alpha)
            (y a + (y v - y a) * alpha)
            (z a + (z v - z a) * alpha).

(** [t.lerpVectors(v1, v2, alpha)] *)
Definition lerpVectors (v1 v2 : Vector3) (alpha : R) : Vector3 :=
  mkVector3 (x v1 + (x v2 - x v1) * alpha)
            (y v1 + (y v2 - y v1) * alpha)
            (z v1 + (z v2 - z v1) * alpha).

(** [t.setFromSphericalCoords(radius, phi, theta)] *)
Definition setFromSphericalCoords (radius phi theta : R) : Vector3 :=
  let sinPhiRadius := sin phi * radius in
  mkVector3 (sinPhiRadius * sin theta)
            (cos phi * radius)
            (sinPhiRadius * cos theta).

(** [c.lerp(color, alpha)] *)
Definition colorLerp (c color : Color) (alpha : R) : Color :=
  mkColor (r c + (r color - r c) * alpha)
          (g c + (g color - g c) * alpha)
          (b c + (b color - b c) * alpha).

(** [THREE.MathUtils.lerp(x, y, t)] *)
Definition mathLerp (a v t : R) : R := (1 - t) * a + t * v.

(** *** HSL conversion of [THREE.Color] *)

Record HSL : Type := mkHSL { h : R; s : R; l : R }.

(** [c.getHSL(target)] *)
Definition getHSL (c : Color) : HSL :=
  let max := Rmax (Rmax (r c) (g c)) (b c) in
  let min := Rmin (Rmin (r c) (g c)) (b c) in
  let lightness := (min + max) / 2 in
  if Reqb min max then mkHSL 0 0 lightness
  else
    let delta := max - min in
    let saturation :=
      if Rleb lightness (1/2) then delta / (max + min)
      else delta / (2 - max - min) in
    let hue :=
      if Reqb max (r c) then
        (g c - b c) / delta + (if Rltb (g c) (b c) then 6 else 0)
      else if Reqb max (g c) then (b c - r c) / delta + 2
      else (r c - g c) / delta + 4 in
    mkHSL (hue / 6) saturation lightness.

Definition hue2rgb (p q t : R) : R :=
  let t := if Rltb t 0 then t + 1 else t in
  let t := if Rltb 1 t then t - 1 else t in
  if Rltb t (1/6) then p + (q - p) * 6 * t
  else if Rltb t (1/2) then q
  else if Rltb t (2/3) then p + (q - p) * 6 * (2/3 - t)
  else p.

(** [MathUtils.clamp(v, lo, hi)] *)
Definition clamp (v lo hi : R) : R := Rmax lo (Rmin hi v).

(** [MathUtils.euclideanModulo(n, 1)] *)
Definition euclideanModulo1 (n : R) : R := n - IZR (Zfloor n).

(** [c.setHSL(h, s, l)] *)
Definition setHSL (h s l : R) : Color :=
  let h := euclideanModulo1 h in
  let s := clamp s 0 1 in
  let l := clamp l 0 1 in
  if Reqb s 0 then mkColor l l l
  else
    let p := if Rleb l (1/2) then l * (1 + s) else l + s - l * s in
    let q := 2 * l - p in
    mkColor (hue2rgb q p (h + 1/3)) (hue2rgb q p h) (hue2rgb q p (h - 1/3)).

End THREE.

Abbreviation Vector3 := THREE.Vector3.
Abbreviation Color := THREE.Color.

(** ** Data model *)

Inductive Direction : Type := toTarget | toSource.

(** [type MorphDirection = "toTarget" | "toSource" | null] *)
Definition MorphDirection : Type := option Direction.

(** The [morphState] prop: ["source" | "target"]. *)
Inductive MorphStateProp : Type := stateSource | stateTarget.

Inductive MouseInteractionState : Type := none | bursting | attracting.

Record Particle : Type := mkParticle {
  id : nat;
  currentPosition : Vector3;
  sourcePosition : Vector3;
  targetPosition : Vector3;
  velocity : Vector3;
  currentColor : Color;
  sourceColor : Color;
  targetColor : Color;
  sourceBaseColor : Color;
  targetBaseColor : Color;
  attractorPosition : Vector3;
  burstPosition : Vector3;
  sphereTargetPosition : Vector3;
  mouseBurstPosition : Vector3
}.

(** One sampled image point, [{ position, color }]. *)
Record Sample : Type := mkSample {
  position : Vector3;
  color : Color
}.

(** In-place writes to one field of a particle object ([p.f.copy(v)] and
    the like): every other field keeps its value. *)

Definition set_currentPosition (p : Particle) (v : Vector3) : Particle :=
  {| id := id p; currentPosition := v; sourcePosition := sourcePosition p;
     targetPosition := targetPosition p; velocity := velocity p;
     currentColor := currentColor p; sourceColor := sourceColor p;
     targetColor := targetColor p;
     sourceBaseColor := sourceBaseColor p;
     targetBaseColor := targetBaseColor p;
     attractorPosition := attractorPosition p;
     burstPosition := burstPosition p;
     sphereTargetPosition := sphereTargetPosition p;
     mouseBurstPosition := mouseBurstPosition p |}.

Definition set_sourcePosition (p : Particle) (v : Vector3) : Particle :=
  {| id := id p; currentPosition := currentPosition p;
     sourcePosition := v; targetPosition := targetPosition p;
     velocity := velocity p; currentColor := currentColor p;
     sourceColor := sourceColor p; targetColor := targetColor p;
     sourceBaseColor := sourceBaseColor p;
     targetBaseColor := targetBaseColor p;
     attractorPosition := attractorPosition p;
     burstPosition := burstPosition p;
     sphereTargetPosition := sphereTargetPosition p;
     mouseBurstPosition := mouseBurstPosition p |}.

Definition set_targetPosition (p : Particle) (v : Vector3) : Particle :=
  {| id := id p; currentPosition := currentPosition p;
     sourcePosition := sourcePosition p; targetPosition := v;
     velocity := velocity p; currentColor := currentColor p;
     sourceColor := sourceColor p; targetColor := targetColor p;
     sourceBaseColor := sourceBaseColor p;
     targetBaseColor := targetBaseColor p;
     attractorPosition := attractorPosition p;
     burstPosition := burstPosition p;
     sphereTargetPosition := sphereTargetPosition p;
     mouseBurstPosition := mouseBurstPosition p |}.

Definition set_velocity (p : Particle) (v : Vector3) : Particle :=
  {| id := id p; currentPosition := currentPosition p;
     sourcePosition := sourcePosition p;
     targetPosition := targetPosition p; velocity := v;
     currentColor := currentColor p; sourceColor := sourceColor p;
     targetColor := targetColor p;
     sourceBaseColor := sourceBaseColor p;
     targetBaseColor := targetBaseColor p;
     attractorPosition := attractorPosition p;
     burstPosition := burstPosition p;
     sphereTargetPosition := sphereTargetPosition p;
     mouseBurstPosition := mouseBurstPosition p |}.

Definition set_currentColor (p : Particle) (v : Color) : Particle :=
  {| id := id p; currentPosition := currentPosition p;
     sourcePosition := sourcePosition p;
     targetPosition := targetPosition p; velocity := velocity p;
     currentColor := v; sourceColor := sourceColor p;
     targetColor := targetColor p;
     sourceBaseColor := sourceBaseColor p;
     targetBaseColor := targetBaseColor p;
     attractorPosition := attractorPosition p;
     burstPosition := burstPosition p;
     sphereTargetPosition := sphereTargetPosition p;
     mouseBurstPosition := mouseBurstPosition p |}.

Definition set_sourceColor (p : Particle) (v : Color) : Particle :=
  {| id := id p; currentPosition := currentPosition p;
     sourcePosition := sourcePosition p;
     targetPosition := targetPosition p; velocity := velocity p;
     currentColor := currentColor p; sourceColor := v;
     targetColor := targetColor p;
     sourceBaseColor := sourceBaseColor p;
     targetBaseColor := targetBaseColor p;
     attractorPosition := attractorPosition p;
     burstPosition := burstPosition p;
     sphereTargetPosition := sphereTargetPosition p;
     mouseBurstPosition := mouseBurstPosition p |}.

Definition set_targetColor (p : Particle) (v : Color) : Particle :=
  {| id := id p; currentPosition := currentPosition p;
     sourcePosition := sourcePosition p;
     targetPosition := targetPosition p; velocity := velocity p;
     currentColor := currentColor p; sourceColor := sourceColor p;
     targetColor := v; sourceBaseColor := sourceBaseColor p;
     targetBaseColor := targetBaseColor p;
     attractorPosition := attractorPosition p;
     burstPosition := burstPosition p;
     sphereTargetPosition := sphereTargetPosition p;
     mouseBurstPosition := mouseBurstPosition p |}.

Definition set_sourceBaseColor (p : Particle) (v : Color) : Particle :=
  {| id := id p; currentPosition := currentPosition p;
     sourcePosition := sourcePosition p;
     targetPosition := targetPosition p; velocity := velocity p;
     currentColor := currentColor p; sourceColor := sourceColor p;
     targetColor := targetColor p; sourceBaseColor := v;
     targetBaseColor := targetBaseColor p;
     attractorPosition := attractorPosition p;
     burstPosition := burstPosition p;
     sphereTargetPosition := sphereTargetPosition p;
     mouseBurstPosition := mouseBurstPosition p |}.

Definition set_targetBaseColor (p : Particle) (v : Color) : Particle :=
  {| id := id p; currentPosition := currentPosition p;
     sourcePosition := sourcePosition p;
     targetPosition := targetPosition p; velocity := velocity p;
     currentColor := currentColor p; sourceColor := sourceColor p;
     targetColor := targetColor p;
     sourceBaseColor := sourceBaseColor p; targetBaseColor := v;
     attractorPosition := attractorPosition p;
     burstPosition := burstPosition p;
     sphereTargetPosition := sphereTargetPosition p;
     mouseBurstPosition := mouseBurstPosition p |}.

Definition set_attractorPosition (p : Particle) (v : Vector3) : Particle :=
  {| id := id p; currentPosition := currentPosition p;
     sourcePosition := sourcePosition p;
     targetPosition := targetPosition p; velocity := velocity p;
     currentColor := currentColor p; sourceColor := sourceColor p;
     targetColor := targetColor p;
     sourceBaseColor := sourceBaseColor p;
     targetBaseColor := targetBaseColor p; attractorPosition := v;
     burstPosition := burstPosition p;
     sphereTargetPosition := sphereTargetPosition p;
     mouseBurstPosition := mouseBurstPosition p |}.

Definition set_burstPosition (p : Particle) (v : Vector3) : Particle :=
  {| id := id p; currentPosition := currentPosition p;
     sourcePosition := sourcePosition p;
     targetPosition := targetPosition p; velocity := velocity p;
     currentColor := currentColor p; sourceColor := sourceColor p;
     targetColor := targetColor p;
     sourceBaseColor := sourceBaseColor p;
     targetBaseColor := targetBaseColor p;
     attractorPosition := attractorPosition p; burstPosition := v;
     sphereTargetPosition := sphereTargetPosition p;
     mouseBurstPosition := mouseBurstPosition p |}.

Definition set_sphereTargetPosition (p : Particle) (v : Vector3) : Particle :=
  {| id := id p; currentPosition := currentPosition p;
     sourcePosition := sourcePosition p;
     targetPosition := targetPosition p; velocity := velocity p;
     currentColor := currentColor p; sourceColor := sourceColor p;
     targetColor := targetColor p;
     sourceBaseColor := sourceBaseColor p;
     targetBaseColor := targetBaseColor p;
     attractorPosition := attractorPosition p;
     burstPosition := burstPosition p; sphereTargetPosition := v;
     mouseBurstPosition := mouseBurstPosition p |}.

Definition set_mouseBurstPosition (p : Particle) (v : Vector3) : Particle :=
  {| id := id p; currentPosition := currentPosition p;
     sourcePosition := sourcePosition p;
     targetPosition := targetPosition p; velocity := velocity p;
     currentColor := currentColor p; sourceColor := sourceColor p;
     targetColor := targetColor p;
     sourceBaseColor := sourceBaseColor p;
     targetBaseColor := targetBaseColor p;
     attractorPosition := attractorPosition p;
     burstPosition := burstPosition p;
     sphereTargetPosition := sphereTargetPosition p;
     mouseBurstPosition := v |}.

(** ** Pure helpers of [Framer.tsx] *)

Definition easeInOutCubic (t : R) : R :=
  if Rltb t (1/2) then 4 * t * t * t else 1 - (-2 * t + 2) ^ 3 / 2.

Definition applyVibrancy (color : Color) (vibrancy : R) : Color :=
  let hsl := THREE.getHSL color in
  THREE.setHSL (THREE.h hsl) (Rmin 1 (THREE.s hsl * vibrancy)) (THREE.l hsl).

(** ** The spatial hash grid

    The source keys its [Map] by the string
    [`${floor(x/size)}_${floor(y/size)}_${floor(z/size)}`]; the three
    integers determine the string and the string the integers, so the key
    is modelled by the triple.  A cell holds references to particle
    objects: here, their indices in the particle array, in insertion
    order. *)

Definition CellKey : Type := (Z * Z * Z)%type.

Abbreviation Grid := (gmap (Z * Z * Z) (list nat)).

Definition getCellKey (gridCellSize : R) (p : Vector3) : CellKey :=
  (Zfloor (THREE.x p / gridCellSize),
   Zfloor (THREE.y p / gridCellSize),
   Zfloor (THREE.z p / gridCellSize)).

(** [if (!grid.has(key)) grid.set(key, []); grid.get(key)!.push(p)] *)
Definition gridPush (grid : Grid) (key : CellKey) (i : nat) : Grid :=
  <[key := default [] (grid !! key) ++ [i]]> grid.

(** [for (const p of particles) { ... }], the particle at position [i] of
    the remaining array being the one of index [i]. *)
Fixpoint buildGridFrom (gridCellSize : R) (i : nat) (ps : list Particle)
    (grid : Grid) : Grid :=
  match ps with
  | [] => grid
  | p :: ps' =>
      buildGridFrom gridCellSize (S i) ps'
        (gridPush grid (getCellKey gridCellSize (currentPosition p)) i)
  end.

Definition buildGrid (gridCellSize : R) (particles : list Particle) : Grid :=
  buildGridFrom gridCellSize 0 particles ∅.

(** The content of cell [k] once the grid is built: the indices, counted
    from [i], of the particles of [ps] whose key is [k], in array order. *)
Fixpoint cellIndices (gridCellSize : R) (k : CellKey) (i : nat)
    (ps : list Particle) : list nat :=
  match ps with
  | [] => []
  | p :: ps' =>
      (if decide (getCellKey gridCellSize (currentPosition p) = k)
       then [i] else [])
      ++ cellIndices gridCellSize k (S i) ps'
  end.

(** The three nested loops [dx], [dy], [dz] from [-1] to [1], in order. *)
Definition neighbourOffsets : list (Z * Z * Z) :=
  dx ← [-1; 0; 1]%Z; dy ← [-1; 0; 1]%Z; dz ← [-1; 0; 1]%Z; [(dx, dy, dz)].

Definition offsetKey (k o : CellKey) : CellKey :=
  (k.1.1 + o.1.1, k.1.2 + o.1.2, k.2 + o.2)%Z.

(** ** Collision resolution *)

(** The body of the innermost loop of [handleCollisions] for the pair
    [(p1, p2)]: what the two objects hold afterwards. *)
Definition resolvePair (collisionDist : R) (p1 p2 : Particle)
    : Particle * Particle :=
  let collisionDistSq := collisionDist * collisionDist in
  if (id p2 <=? id p1)%nat then (p1, p2)
  else
    let distanceSq :=
      THREE.distanceToSquared (currentPosition p1) (currentPosition p2) in
    if Rltb 0 distanceSq && Rltb distanceSq collisionDistSq then
      let distance := sqrt distanceSq in
      let overlap := (collisionDist - distance) * (1/2) in
      let collisionNormal :=
        THREE.multiplyScalar
          (THREE.sub (currentPosition p1) (currentPosition p2))
          (1 / distance) in
      let correction := THREE.multiplyScalar collisionNormal overlap in
      let p1 := set_currentPosition p1
                  (THREE.add (currentPosition p1) correction) in
      let p2 := set_currentPosition p2
                  (THREE.sub (currentPosition p2) correction) in
      let relativeVelocity := THREE.sub (velocity p1) (velocity p2) in
      let velocityAlongNormal := THREE.dot relativeVelocity collisionNormal in
      if Rltb 0 velocityAlongNormal then (p1, p2)
      else
        let restitution := 1/2 in
        let impulseScalar := - (1 + restitution) * velocityAlongNormal in
        let impulse :=
          THREE.multiplyScalar collisionNormal (impulseScalar * (1/2)) in
        (set_velocity p1 (THREE.add (velocity p1) impulse),
         set_velocity p2 (THREE.sub (velocity p2) impulse))
    else (p1, p2).

(** [for (const p2 of cell) { ... }] with [p1] the object of index [i]:
    both objects are read from, and written back to, the shared array. *)
Definition collideStep (collisionDist : R) (i : nat)
    (store : list Particle) (j : nat) : list Particle :=
  match store !! i, store !! j with
  | Some p1, Some p2 =>
      let '(p1', p2') := resolvePair collisionDist p1 p2 in
      <[i := p1']> (<[j := p2']> store)
  | _, _ => store
  end.

Definition collideCell (collisionDist : R) (i : nat) (cell : list nat)
    (store : list Particle) : list Particle :=
  foldl (collideStep collisionDist i) store cell.

(** One iteration of [for (const p1 of particles)]: the cell of [p1] is
    computed once, from its position when its turn comes. *)
Definition collideParticle (collisionDist : R) (grid : Grid)
    (store : list Particle) (i : nat) : list Particle :=
  match store !! i with
  | Some p1 =>
      let key := getCellKey collisionDist (currentPosition p1) in
      foldl (fun st o =>
               match grid !! offsetKey key o with
               | Some cell => collideCell collisionDist i cell st
               | None => st
               end) store neighbourOffsets
  | None => store
  end.

Definition handleCollisions (particles : list Particle) (particleSize : R)
    : list Particle :=
  if (length particles <? 2)%nat || Rleb particleSize 0 then particles
  else
    let collisionDist := particleSize * 2 in
    let gridCellSize := collisionDist in
    let grid := buildGrid gridCellSize particles in
    foldl (collideParticle collisionDist grid) particles
      (seq 0 (length particles)).

(** ** Props and component state *)

Record ForceProps : Type := mkForceProps {
  returnStrength : R;
  damping : R;
  pushRadius : R;
  pushStrength : R;
  particleSize : R;
  particleDensity : R
}.

Record AppearanceProps : Type := mkAppearanceProps {
  vibrancy : R;
  exposure : R
}.

(** The props a handler reads (camera, lights and rotations only feed the
    renderer and are left out).  [morphState] is the value captured by the
    closure of the handler, the other fields are those of the latest
    render. *)
Record Props : Type := mkProps {
  morphState : MorphStateProp;
  enablePushForce : bool;
  enableCollisions : bool;
  force : ForceProps;
  appearance : AppearanceProps
}.

(** [morphStateRef.current] *)
Record MorphState : Type := mkMorphState {
  isMorphing : bool;
  startTime : R;
  direction : MorphDirection;
  duration : R;
  phaseOneDuration : R;
  phaseTwoDuration : R
}.

(** The refs of the component.  [completed] is the trace of the calls
    [onMorphCompleteRef.current(direction)], oldest first. *)
Record State : Type := mkState {
  particles : list Particle;
  targetParticleData : option (list Sample);
  instancedMesh : bool;
  morph : MorphState;
  mouseInteractionState : MouseInteractionState;
  mouseInteractionStartTime : R;
  animatedForce : ForceProps;
  animatedAppearance : AppearanceProps;
  completed : list MorphDirection
}.

Definition initialMorphState : MorphState :=
  {| isMorphing := false; startTime := 0; direction := None;
     duration := 4000; phaseOneDuration := 1300; phaseTwoDuration := 1300 |}.

(** The state of a freshly mounted component with props [props]. *)
Definition initialState (props : Props) : State :=
  {| particles := []; targetParticleData := None; instancedMesh := false;
     morph := initialMorphState;
     mouseInteractionState := none; mouseInteractionStartTime := 0;
     animatedForce := force props; animatedAppearance := appearance props;
     completed := [] |}.

Definition set_particles (st : State) (ps : list Particle) : State :=
  {| particles := ps; targetParticleData := targetParticleData st;
     instancedMesh := instancedMesh st; morph := morph st;
     mouseInteractionState := mouseInteractionState st;
     mouseInteractionStartTime := mouseInteractionStartTime st;
     animatedForce := animatedForce st;
     animatedAppearance := animatedAppearance st;
     completed := completed st |}.

(** ** Seeding and re-sampling (the image effects) *)

(** The particle created for the [i]-th sample at the initial load. *)
Definition seedParticle (vibrancy : R) (i : nat) (data : Sample) : Particle :=
  let vibrantColor := applyVibrancy (color data) vibrancy in
  {| id := i;
     currentPosition := position data;
     sourcePosition := position data;
     targetPosition := position data;
     velocity := THREE.mkVector3 0 0 0;
     currentColor := vibrantColor;
     sourceColor := vibrantColor;
     targetColor := vibrantColor;
     sourceBaseColor := color data;
     targetBaseColor := color data;
     attractorPosition := position data;
     burstPosition := THREE.zero;
     sphereTargetPosition := THREE.zero;
     mouseBurstPosition := THREE.zero |}.

(** The three writes of one iteration of the source loops, and of the
    target loops, on the object [p] with the sample [d]. *)
Definition takeSource (vibrancy : R) (p : Particle) (d : Sample) : Particle :=
  set_sourceColor
    (set_sourceBaseColor (set_sourcePosition p (position d)) (color d))
    (applyVibrancy (color d) vibrancy).

Definition takeTarget (vibrancy : R) (p : Particle) (d : Sample) : Particle :=
  set_targetColor
    (set_targetBaseColor (set_targetPosition p (position d)) (color d))
    (applyVibrancy (color d) vibrancy).

(** One iteration on the shared array: particle [i] takes sample [k].
    Both indices are in range whenever the loops below call it. *)
Definition writeSource (vibrancy : R) (sourceData : list Sample)
    (existingParticles : list Particle) (i k : nat) : list Particle :=
  match existingParticles !! i, sourceData !! k with
  | Some p, Some d => <[i := takeSource vibrancy p d]> existingParticles
  | _, _ => existingParticles
  end.

Definition writeTarget (vibrancy : R) (targetData : list Sample)
    (existingParticles : list Particle) (i k : nat) : list Particle :=
  match existingParticles !! i, targetData !! k with
  | Some p, Some d => <[i := takeTarget vibrancy p d]> existingParticles
  | _, _ => existingParticles
  end.

(** A loop [for (i of indices) write(ps, i, kf(i))]: particle [i] takes
    sample [kf i]. *)
Definition writeLoop (write : list Particle -> nat -> nat -> list Particle)
    (kf : nat -> nat) (ps : list Particle) (indices : list nat)
    : list Particle :=
  foldl (fun ps i => write ps i (kf i)) ps indices.

(** The two loops shared by the source update, the target update and the
    morph trigger: the first [numParticles] particles take the sample of
    their own index, the others wrap around. *)
Definition remapLoops (write : list Particle -> nat -> nat -> list Particle)
    (dataLength : nat) (existingParticles : list Particle) : list Particle :=
  let numParticles := Nat.min (length existingParticles) dataLength in
  let ps :=
    writeLoop write (fun i => i) existingParticles (seq 0 numParticles) in
  if (numParticles <? length ps)%nat then
    writeLoop write (fun i => (i mod numParticles)%nat) ps
      (seq numParticles (length ps - numParticles))
  else ps.

(** The callback of the source-image loader. *)
Definition sourceLoaded (props : Props) (sourceData : list Sample)
    (st : State) : State :=
  if (length sourceData =? 0)%nat then st
  else if negb (instancedMesh st) then
    {| particles := imap (seedParticle (vibrancy (appearance props))) sourceData;
       targetParticleData := targetParticleData st;
       instancedMesh := true; morph := morph st;
       mouseInteractionState := mouseInteractionState st;
       mouseInteractionStartTime := mouseInteractionStartTime st;
       animatedForce := animatedForce st;
       animatedAppearance := animatedAppearance st;
       completed := completed st |}
  else
    let ps :=
      remapLoops (writeSource (vibrancy (appearance props)) sourceData)
        (length sourceData) (particles st) in
    match morphState props, isMorphing (morph st) with
    | stateSource, false =>
        set_particles st
          (map (fun p => set_currentColor
                           (set_attractorPosition p (sourcePosition p))
                           (sourceColor p)) ps)
    | _, _ => set_particles st ps
    end.

(** The callback of the target-image loader. *)
Definition targetLoaded (props : Props) (targetData : list Sample)
    (st : State) : State :=
  let st :=
    {| particles := particles st; targetParticleData := Some targetData;
       instancedMesh := instancedMesh st; morph := morph st;
       mouseInteractionState := mouseInteractionState st;
       mouseInteractionStartTime := mouseInteractionStartTime st;
       animatedForce := animatedForce st;
       animatedAppearance := animatedAppearance st;
       completed := completed st |} in
  if (length targetData =? 0)%nat || (length (particles st) =? 0)%nat then st
  else
    let ps :=
      remapLoops (writeTarget (vibrancy (appearance props)) targetData)
        (length targetData) (particles st) in
    match morphState props, isMorphing (morph st) with
    | stateTarget, false =>
        set_particles st
          (map (fun p => set_currentColor
                           (set_attractorPosition p (targetPosition p))
                           (targetColor p)) ps)
    | _, _ => set_particles st ps
    end.

(** ** The morph trigger (the effect on [morphDirection]) *)

(** The home position of the role a morph leaves, and of the one it
    reaches: [direction === "toTarget" ? a : b]. *)
Definition departurePosition (d : MorphDirection) (p : Particle) : Vector3 :=
  match d with Some toTarget => sourcePosition p | _ => targetPosition p end.

Definition arrivalPosition (d : MorphDirection) (p : Particle) : Vector3 :=
  match d with Some toTarget => targetPosition p | _ => sourcePosition p end.

Definition departureColor (d : MorphDirection) (p : Particle) : Color :=
  match d with Some toTarget => sourceColor p | _ => targetColor p end.

Definition arrivalColor (d : MorphDirection) (p : Particle) : Color :=
  match d with Some toTarget => targetColor p | _ => sourceColor p end.

(** The random offset of a burst: three successive results of
    [Math.random()], [rnd k] being the [k]-th result of the call. *)
Definition randomOffset (rnd : nat -> R) (i : nat) (burstRadius : R) : Vector3 :=
  THREE.mkVector3 ((rnd (3 * i)%nat - 1/2) * burstRadius)
                  ((rnd (3 * i + 1)%nat - 1/2) * burstRadius)
                  ((rnd (3 * i + 2)%nat - 1/2) * burstRadius).

Definition setBurstPosition (morphDirection : MorphDirection)
    (rnd : nat -> R) (i : nat) (p : Particle) : Particle :=
  let burstRadius := 300 in
  let currentPos := departurePosition morphDirection p in
  set_burstPosition p (THREE.add currentPos (randomOffset rnd i burstRadius)).

(** One run of the effect, at time [now], with the props of the render
    that scheduled it. *)
Definition morphTrigger (props : Props) (morphDirection : MorphDirection)
    (now : R) (rnd : nat -> R) (st : State) : State :=
  match morphDirection, targetParticleData st with
  | Some _, Some targetParticles =>
      let sourceParticles := particles st in
      if (length sourceParticles =? 0)%nat
         || (length targetParticles =? 0)%nat then st
      else
        let ps :=
          remapLoops (writeTarget (vibrancy (appearance props)) targetParticles)
            (length targetParticles) sourceParticles in
        let ps := imap (setBurstPosition morphDirection rnd) ps in
        {| particles := ps; targetParticleData := targetParticleData st;
           instancedMesh := instancedMesh st;
           morph := {| isMorphing := true; startTime := now;
                       direction := morphDirection;
                       duration := duration (morph st);
                       phaseOneDuration := phaseOneDuration (morph st);
                       phaseTwoDuration := phaseTwoDuration (morph st) |};
           mouseInteractionState := mouseInteractionState st;
           mouseInteractionStartTime := mouseInteractionStartTime st;
           animatedForce := animatedForce st;
           animatedAppearance := animatedAppearance st;
           completed := completed st |}
  | _, _ => st
  end.

(** ** Pointer handlers *)

(** [Math.cbrt] *)
Definition cbrt (a : R) : R :=
  if Reqb a 0 then 0
  else if Rltb 0 a then Rpower a (1/3) else - Rpower (- a) (1/3).

(** What [handlePointerDown] writes into the particle of index [i]; it
    draws six random numbers per particle. *)
Definition setPointerTargets (rnd : nat -> R) (i : nat) (p : Particle)
    : Particle :=
  let burstRadius := 150 in
  let sphereRadius := 120 in
  let p :=
    set_mouseBurstPosition p
      (THREE.add (currentPosition p)
         (THREE.mkVector3 ((rnd (6 * i)%nat - 1/2) * burstRadius)
                          ((rnd (6 * i + 1)%nat - 1/2) * burstRadius)
                          ((rnd (6 * i + 2)%nat - 1/2) * burstRadius))) in
  let r := sphereRadius * cbrt (rnd (6 * i + 3)%nat) in
  let theta := rnd (6 * i + 4)%nat * 2 * PI in
  let phi := acos (2 * rnd (6 * i + 5)%nat - 1) in
  set_sphereTargetPosition p (THREE.setFromSphericalCoords r phi theta).

Definition handlePointerDown (now : R) (rnd : nat -> R) (st : State) : State :=
  {| particles := imap (setPointerTargets rnd) (particles st);
     targetParticleData := targetParticleData st;
     instancedMesh := instancedMesh st; morph := morph st;
     mouseInteractionState := bursting;
     mouseInteractionStartTime := now;
     animatedForce := animatedForce st;
     animatedAppearance := animatedAppearance st;
     completed := completed st |}.

Definition handlePointerUp (st : State) : State :=
  {| particles := particles st;
     targetParticleData := targetParticleData st;
     instancedMesh := instancedMesh st; morph := morph st;
     mouseInteractionState := none;
     mouseInteractionStartTime := mouseInteractionStartTime st;
     animatedForce := animatedForce st;
     animatedAppearance := animatedAppearance st;
     completed := completed st |}.

(** ** The stages of one tick of [animate] *)

(** The tick first moves the animated props a step towards the props. *)
Definition animateForce (animated target : ForceProps) (lerpFactor : R)
    : ForceProps :=
  {| returnStrength :=
       THREE.mathLerp (returnStrength animated) (returnStrength target) lerpFactor;
     damping := THREE.mathLerp (damping animated) (damping target) lerpFactor;
     pushRadius :=
       THREE.mathLerp (pushRadius animated) (pushRadius target) lerpFactor;
     pushStrength :=
       THREE.mathLerp (pushStrength animated) (pushStrength target) lerpFactor;
     particleSize :=
       THREE.mathLerp (particleSize animated) (particleSize target) lerpFactor;
     particleDensity := particleDensity animated |}.

Definition animateAppearance (animated target : AppearanceProps)
    (lerpFactor : R) : AppearanceProps :=
  {| vibrancy := THREE.mathLerp (vibrancy animated) (vibrancy target) lerpFactor;
     exposure := THREE.mathLerp (exposure animated) (exposure target) lerpFactor |}.

(** The [vibrancyChanged] block, for one particle. *)
Definition refreshVibrancy (morphState : MorphStateProp) (morphing : bool)
    (vibrancy : R) (p : Particle) : Particle :=
  let p := set_sourceColor p (applyVibrancy (sourceBaseColor p) vibrancy) in
  let p := set_targetColor p (applyVibrancy (targetBaseColor p) vibrancy) in
  if negb morphing then
    match morphState with
    | stateSource => set_currentColor p (sourceColor p)
    | stateTarget => set_currentColor p (targetColor p)
    end
  else p.

(** The pointer override, for one particle ([mouseState !== "none"]). *)
Definition pointerOverride (mouseState : MouseInteractionState)
    (pos : Vector3) (p : Particle) : Particle :=
  let '(targetPosition, lerpFactor) :=
    match mouseState with
    | bursting => (Some (mouseBurstPosition p), 8/100)
    | attracting => (Some (THREE.add pos (sphereTargetPosition p)), 4/100)
    | none => (None, 4/100)
    end in
  match targetPosition with
  | Some targetPosition =>
      let oldPosition := currentPosition p in
      let p := set_currentPosition p
                 (THREE.lerp (currentPosition p) targetPosition lerpFactor) in
      set_velocity p (THREE.sub (currentPosition p) oldPosition)
  | None => p
  end.

(** The completion branch, for one particle. *)
Definition snapToArrival (direction : MorphDirection) (p : Particle)
    : Particle :=
  let p := set_attractorPosition p (arrivalPosition direction p) in
  set_currentColor p (arrivalColor direction p).

(** The in-progress branch, for the particle of index [i] among [n]. *)
Definition morphParticle (ms : MorphState) (elapsedTime : R) (n i : nat)
    (p : Particle) : Particle :=
  let direction := direction ms in
  let phaseTwoEndTime := phaseOneDuration ms + phaseTwoDuration ms in
  let sphereRadius := 180 in
  let totalProgress := easeInOutCubic (elapsedTime / duration ms) in
  let startColor := departureColor direction p in
  let endColor := arrivalColor direction p in
  let p := set_currentColor p (THREE.colorLerp startColor endColor totalProgress) in
  let currentStartPos := departurePosition direction p in
  let currentEndPos := arrivalPosition direction p in
  let phi := acos (-1 + (2 * INR i) / INR n) in
  let theta := sqrt (INR n * PI) * phi in
  let spherePos := THREE.setFromSphericalCoords sphereRadius phi theta in
  if Rltb elapsedTime (phaseOneDuration ms) then
    let progress := easeInOutCubic (elapsedTime / phaseOneDuration ms) in
    set_attractorPosition p
      (THREE.lerpVectors currentStartPos (burstPosition p) progress)
  else if Rltb elapsedTime phaseTwoEndTime then
    let progress :=
      easeInOutCubic ((elapsedTime - phaseOneDuration ms) / phaseTwoDuration ms) in
    set_attractorPosition p
      (THREE.lerpVectors (burstPosition p) spherePos progress)
  else
    let phaseThreeDuration := duration ms - phaseTwoEndTime in
    let progress :=
      easeInOutCubic ((elapsedTime - phaseTwoEndTime) / phaseThreeDuration) in
    let intermediatePos := THREE.lerpVectors spherePos currentEndPos progress in
    let travelVector := THREE.sub currentEndPos spherePos in
    let swirlAxis := THREE.normalize (THREE.mkVector3 (3/10) (-4/10) (8/10)) in
    let perpendicular :=
      THREE.normalize (THREE.crossVectors travelVector swirlAxis) in
    let perpendicular :=
      if Rltb (THREE.lengthSq perpendicular) (1/10)
      then THREE.mkVector3 0 1 0 else perpendicular in
    let swirlAmplitude :=
      THREE.length travelVector * (3/10) * sin (progress * PI) in
    let swirlOffset := THREE.multiplyScalar perpendicular swirlAmplitude in
    set_attractorPosition p (THREE.add intermediatePos swirlOffset).

(** [currentMorphState.isMorphing = false] *)
Definition finished (ms : MorphState) : MorphState :=
  {| isMorphing := false; startTime := startTime ms;
     direction := direction ms; duration := duration ms;
     phaseOneDuration := phaseOneDuration ms;
     phaseTwoDuration := phaseTwoDuration ms |}.

(** The morph block of the tick: the particles, the morph state and the
    callback trace after it. *)
Definition morphStage (now : R) (ps : list Particle) (ms : MorphState)
    (calls : list MorphDirection)
    : list Particle * MorphState * list MorphDirection :=
  if isMorphing ms then
    let elapsedTime := now - startTime ms in
    if Rleb (duration ms) elapsedTime then
      (map (snapToArrival (direction ms)) ps, finished ms,
       calls ++ [direction ms])
    else
      (imap (morphParticle ms elapsedTime (length ps)) ps, ms, calls)
  else (ps, ms, calls).

(** The push block: the body of [for (const p of cell)], on the object
    [p]. *)
Definition pushParticle (pos : Vector3) (pushRadius pushStrength : R)
    (p : Particle) : Particle :=
  let pushRadiusSq := pushRadius * pushRadius in
  let distanceSq := THREE.distanceToSquared (currentPosition p) pos in
  if Rltb (1/1000000) distanceSq && Rltb distanceSq pushRadiusSq then
    let distance := sqrt distanceSq in
    let strength :=
      (((pushRadius - distance) / pushRadius) * pushStrength) / distance in
    let forceVector :=
      THREE.multiplyScalar (THREE.sub (currentPosition p) pos) strength in
    set_velocity p (THREE.add (velocity p) forceVector)
  else p.

(** The [forceVector] a tick adds to the velocity of [p] in the push
    block: zero when the block is skipped or the test on the squared
    distance fails. *)
Definition pushForce (enabled : bool) (pos : Vector3)
    (pushRadius pushStrength : R) (p : Particle) : Vector3 :=
  let pushRadiusSq := pushRadius * pushRadius in
  let distanceSq := THREE.distanceToSquared (currentPosition p) pos in
  if enabled && Rltb 0 pushRadius
     && (Rltb (1/1000000) distanceSq && Rltb distanceSq pushRadiusSq) then
    let distance := sqrt distanceSq in
    let strength :=
      (((pushRadius - distance) / pushRadius) * pushStrength) / distance in
    THREE.multiplyScalar (THREE.sub (currentPosition p) pos) strength
  else THREE.zero.

(** One visit of the particle of index [j] of the shared array. *)
Definition pushStep (pos : Vector3) (pushRadius pushStrength : R)
    (store : list Particle) (j : nat) : list Particle :=
  match store !! j with
  | Some p => <[j := pushParticle pos pushRadius pushStrength p]> store
  | None => store
  end.

(** The grid query of the push block, over the 27 cells around the
    pointer. *)
Definition pushStage (pos : Vector3) (pushRadius pushStrength : R)
    (ps : list Particle) : list Particle :=
  let gridCellSize := pushRadius in
  let grid := buildGrid gridCellSize ps in
  let mouseKey := getCellKey gridCellSize pos in
  foldl (fun st o =>
           match grid !! offsetKey mouseKey o with
           | Some cell => foldl (pushStep pos pushRadius pushStrength) st cell
           | None => st
           end) ps neighbourOffsets.

(** "First loop: apply forces & update positions", for one particle. *)
Definition integrateParticle (returnStrength damping : R) (p : Particle)
    : Particle :=
  let returnForce :=
    THREE.multiplyScalar
      (THREE.sub (attractorPosition p) (currentPosition p)) returnStrength in
  let p := set_velocity p (THREE.add (velocity p) returnForce) in
  let p := set_velocity p (THREE.multiplyScalar (velocity p) damping) in
  set_currentPosition p (THREE.add (currentPosition p) (velocity p)).

(** Everything after the morph block: push, integration, collisions. *)
Definition forceStage (props : Props) (f : ForceProps)
    (mouseState : MouseInteractionState) (pos : Vector3)
    (ps : list Particle) : list Particle :=
  let ps :=
    if enablePushForce props
       && (match mouseState with none => true | _ => false end)
       && Rltb 0 (pushRadius f)
    then pushStage pos (pushRadius f) (pushStrength f) ps
    else ps in
  let ps := map (integrateParticle (returnStrength f) (damping f)) ps in
  if enableCollisions props then handleCollisions ps (particleSize f) else ps.

(** The animated props of the tick that starts in state [st]. *)
Definition tickForce (props : Props) (st : State) : ForceProps :=
  animateForce (animatedForce st) (force props) (5/100).

Definition tickAppearance (props : Props) (st : State) : AppearanceProps :=
  animateAppearance (animatedAppearance st) (appearance props) (5/100).

(** The particles after the [vibrancyChanged] block of the tick. *)
Definition vibrancyStage (props : Props) (st : State) : list Particle :=
  let oldVibrancy := vibrancy (animatedAppearance st) in
  let vibrancyChanged :=
    Rltb (1/1000) (Rabs (vibrancy (tickAppearance props st) - oldVibrancy)) in
  if vibrancyChanged then
    map (refreshVibrancy (morphState props) (isMorphing (morph st))
           (vibrancy (tickAppearance props st))) (particles st)
  else particles st.

(** ** One tick

    [animate] at time [now] (the value of [performance.now()]), with the
    props [props] and the pointer projected to [pos].  Camera, scene and
    renderer exist from the moment the loop is started, so the guard at
    the top of the function reduces to the mesh and the particle count.
    The pointer branch ends with [return]: nothing below it runs. *)
Definition animate (props : Props) (now : R) (pos : Vector3) (st : State)
    : State :=
  if negb (instancedMesh st) || (length (particles st) =? 0)%nat then st
  else
    let animatedAppearance' := tickAppearance props st in
    let animatedForce' := tickForce props st in
    let ps := vibrancyStage props st in
    let mouseState := mouseInteractionState st in
    match mouseState with
    | none =>
        let '(ps, ms, calls) := morphStage now ps (morph st) (completed st) in
        {| particles := forceStage props animatedForce' mouseState pos ps;
           targetParticleData := targetParticleData st;
           instancedMesh := instancedMesh st;
           morph := ms;
           mouseInteractionState := mouseState;
           mouseInteractionStartTime := mouseInteractionStartTime st;
           animatedForce := animatedForce';
           animatedAppearance := animatedAppearance';
           completed := calls |}
    | _ =>
        let interactionElapsedTime := now - mouseInteractionStartTime st in
        let mouseState' :=
          match mouseState with
          | bursting =>
              if Rltb 400 interactionElapsedTime then attracting else bursting
          | s => s
          end in
        {| particles := map (pointerOverride mouseState pos) ps;
           targetParticleData := targetParticleData st;
           instancedMesh := instancedMesh st;
           morph := morph st;
           mouseInteractionState := mouseState';
           mouseInteractionStartTime := mouseInteractionStartTime st;
           animatedForce := animatedForce';
           animatedAppearance := animatedAppearance';
           completed := completed st |}
    end.

(** ** Events and runs

    Everything that touches the refs: the loader callbacks, the morph
    effect, the pointer handlers and the frame tick.  The run-time system
    runs them one at a time, never overlapping. *)

Inductive Event : Type :=
  | SourceLoaded (props : Props) (sourceData : list Sample)
  | TargetLoaded (props : Props) (targetData : list Sample)
  | MorphTrigger (props : Props) (morphDirection : MorphDirection)
      (now : R) (rnd : nat -> R)
  | PointerDown (now : R) (rnd : nat -> R)
  | PointerUp
  | Tick (props : Props) (now : R) (pos : Vector3).

Definition step (st : State) (e : Event) : State :=
  match e with
  | SourceLoaded props sourceData => sourceLoaded props sourceData st
  | TargetLoaded props targetData => targetLoaded props targetData st
  | MorphTrigger props morphDirection now rnd =>
      morphTrigger props morphDirection now rnd st
  | PointerDown now rnd => handlePointerDown now rnd st
  | PointerUp => handlePointerUp st
  | Tick props now pos => animate props now pos st
  end.

Definition run (st : State) (es : list Event) : State := foldl step st es.

(** ** Notions used in the statements *)

(** What the physics of a tick never writes: the particle with its
    position and velocity blanked. *)
Definition static (p : Particle) : Particle :=
  set_velocity (set_currentPosition p THREE.zero) THREE.zero.

(** Events other than a run of the morph effect. *)
Definition isMorphTrigger (e : Event) : bool :=
  match e with MorphTrigger _ _ _ _ => true | _ => false end.

(** A particle that has arrived: attractor and colour are those of the
    role a morph in direction [d] reaches. *)
Definition snapped (d : MorphDirection) (p : Particle) : Prop :=
  attractorPosition p = arrivalPosition d p /\
  currentColor p = arrivalColor d p.

(** The contraction rate of the damped spring
    [velocity' = damping * (velocity - returnStrength * offset)],
    [offset' = offset + velocity']: the modulus of the roots of
    [z^2 - tau z + damping] when they are complex, a number between their
    largest modulus and [1] when they are real. *)
Definition springRate (returnStrength damping : R) : R :=
  let tau := 1 + damping - damping * returnStrength in
  if Rltb (tau * tau) (4 * damping) then sqrt damping
  else
    let s := sqrt (tau * tau - 4 * damping) in
    (1 + Rmax (Rabs ((tau + s) / 2)) (Rabs ((tau - s) / 2))) / 2.

(** ** Sample values

    Concrete particles and states on which the statements below are
    evaluated. *)

Definition black : Color := THREE.mkColor 0 0 0.

(** A particle at rest at [pos], every home and scratch position at the
    origin. *)
Definition particleAt (i : nat) (pos : Vector3) : Particle :=
  {| id := i; currentPosition := pos;
     sourcePosition := THREE.zero; targetPosition := THREE.zero;
     velocity := THREE.zero;
     currentColor := black; sourceColor := black; targetColor := black;
     sourceBaseColor := black; targetBaseColor := black;
     attractorPosition := THREE.zero; burstPosition := THREE.zero;
     sphereTargetPosition := THREE.zero; mouseBurstPosition := THREE.zero |}.

Definition particleA : Particle := particleAt 0 (THREE.mkVector3 0 0 0).
Definition particleB : Particle := particleAt 1 (THREE.mkVector3 1 0 0).

(** A dull red, and the default vibrancy of the component. *)
Definition dullRed : Color := THREE.mkColor (1/2) (1/4) (1/4).
Definition defaultVibrancy : R := 12/10.

(** The default props of the Framer component. *)
Definition defaultForce : ForceProps :=
  {| returnStrength := 2/100; damping := 92/100; pushRadius := 60;
     pushStrength := 8/10; particleSize := 125/100; particleDensity := 4 |}.

Definition defaultAppearance : AppearanceProps :=
  {| vibrancy := defaultVibrancy; exposure := 1 |}.

Definition defaultProps : Props :=
  {| morphState := stateSource; enablePushForce := true;
     enableCollisions := true; force := defaultForce;
     appearance := defaultAppearance |}.

(** A seeded component holding the particles [ps], at rest, with the
    pointer in state [mouseState] and the morph state [ms]. *)
Definition stateWith (ps : list Particle) (mouseState : MouseInteractionState)
    (ms : MorphState) : State :=
  {| particles := ps; targetParticleData := None; instancedMesh := true;
     morph := ms; mouseInteractionState := mouseState;
     mouseInteractionStartTime := 0;
     animatedForce := defaultForce; animatedAppearance := defaultAppearance;
     completed := [] |}.

(** A particle half a thousandth of a unit away from the origin. *)
Definition particleNear : Particle :=
  particleAt 0 (THREE.mkVector3 (1/2000) 0 0).

(** Two particles seeded from a black sample, and a dull red sample. *)
Definition blackSample : Sample :=
  {| position := THREE.zero; color := black |}.

Definition redSample : Sample :=
  {| position := THREE.mkVector3 1 0 0; color := dullRed |}.

Definition seededPair : State :=
  sourceLoaded defaultProps [blackSample; blackSample]
    (initialState defaultProps).

(** [Math.random()] returning [0.5] every time: bursts without offset. *)
Definition noRandom : nat -> R := fun _ => 1/2.

(** The pair with a target image loaded, then morphing to the target
    since time [0], then with the pointer pressed at time [3900]. *)
Definition loadedPair : State :=
  targetLoaded defaultProps [redSample] seededPair.

Definition morphingPair : State :=
  morphTrigger defaultProps (Some toTarget) 0 noRandom loadedPair.

Definition pressedWhileMorphing : State :=
  handlePointerDown 3900 noRandom morphingPair.

(** * Further notions

    Used by the statements on the component as a whole. *)

(** The waypoint of particle [i] among [n] on the Fibonacci-spiral sphere
    of the transit phase ([spherePos] in the source). *)
Definition spherePos (n i : nat) : Vector3 :=
  let phi := acos (-1 + (2 * INR i) / INR n) in
  let theta := sqrt (INR n * PI) * phi in
  THREE.setFromSphericalCoords 180 phi theta.

(** The sum of a vector quantity over the particles: with [velocity] the
    total momentum of the cloud (all particles weigh the same), with
    [currentPosition] the unnormalised centre of mass. *)
Definition vsum (f : Particle -> Vector3) (ps : list Particle) : Vector3 :=
  foldr (fun p acc => THREE.add (f p) acc) THREE.zero ps.

(** What the vibrancy refresh of a tick never writes: the particle with
    its three displayed colours blanked. *)
Definition uncoloured (p : Particle) : Particle :=
  set_currentColor
    (set_sourceColor (set_targetColor p (THREE.mkColor 0 0 0))
       (THREE.mkColor 0 0 0))
    (THREE.mkColor 0 0 0).

(** What only a load of the source image may write: the identity of a
    particle and its home in the source image. *)
Definition sourceHome (p : Particle) : nat * Vector3 * Color :=
  (id p, sourcePosition p, sourceBaseColor p).

Definition isSourceLoaded (e : Event) : bool :=
  match e with SourceLoaded _ _ => true | _ => false end.

(** What a tick displays and integrates: the live state of a particle. *)
Definition live (p : Particle) : Vector3 * Vector3 * Vector3 * Color :=
  (currentPosition p, velocity p, attractorPosition p, currentColor p).

(** [x] lies between [a] and [b], whichever is the larger. *)
Definition between (a b x : R) : Prop := Rmin a b <= x <= Rmax a b.

(** A particle at rest on its attractor. *)
Definition atRest (p : Particle) : Prop :=
  currentPosition p = attractorPosition p /\ velocity p = THREE.zero.

(** * The stand-alone component ([components/ImageParticleEffect.tsx])

    The component the application shell mounts: the same particles
    without ids and base colours, fixed force constants, and no grid.
    Its force loop neither reads nor writes the fields it lacks, so it
    is embedded on the same record. *)

Module Simple.

(** The body of [for (let i = 0; i < particlesRef.current.length; i++)]
    of its [animate], on the object [p]. *)
Definition forceParticle (mouseState : MouseInteractionState)
    (pos : Vector3) (p : Particle) : Particle :=
  let returnStrength := 2/100 in
  let damping := 92/100 in
  let pushRadius := 60 in
  let pushStrength := 8/10 in
  let p :=
    match mouseState with
    | none =>
        let distanceToMouse := THREE.distanceTo (currentPosition p) pos in
        if Rltb distanceToMouse pushRadius then
          let pushForce :=
            THREE.multiplyScalar
              (THREE.multiplyScalar
                 (THREE.normalize (THREE.sub (currentPosition p) pos))
                 ((pushRadius - distanceToMouse) / pushRadius))
              pushStrength in
          set_velocity p (THREE.add (velocity p) pushForce)
        else p
    | _ => p
    end in
  let returnForce :=
    THREE.multiplyScalar
      (THREE.sub (attractorPosition p) (currentPosition p)) returnStrength in
  let p := set_velocity p (THREE.add (velocity p) returnForce) in
  let p := set_velocity p (THREE.multiplyScalar (velocity p) damping) in
  set_currentPosition p (THREE.add (currentPosition p) (velocity p)).

Definition forceLoop (mouseState : MouseInteractionState) (pos : Vector3)
    (ps : list Particle) : list Particle :=
  map (forceParticle mouseState pos) ps.

End Simple.

(** * The application shell ([App.tsx])

    The state hooks of [App] and the four handlers that write them.  A
    URL is a string, or [null]: [reader.result] is [null] when the read
    of the chosen file failed, and [onloadend] fires then too. *)

From Stdlib Require String.

Module App.

Import String.

Abbreviation Url := (option String.string).

Record State : Type := mkState {
  sourceImageUrl : Url;
  currentImageUrl : Url;
  targetImageUrl : Url;
  morphDirection : MorphDirection;
  isMorphing : bool
}.

(** [useState] initial values. *)
Definition initialState : State :=
  {| sourceImageUrl := Some "https://i.imgur.com/8J0oT3b.png"%string;
     currentImageUrl := Some "https://i.imgur.com/8J0oT3b.png"%string;
     targetImageUrl := None;
     morphDirection := None;
     isMorphing := false |}.

(** The truth value of a URL in a condition: [null] and the empty string
    are falsy. *)
Definition truthy (u : Url) : bool :=
  match u with
  | Some s => negb (String.eqb s String.EmptyString)
  | None => false
  end.

(** [a === b] on URLs. *)
Definition sameUrl (a b : Url) : bool :=
  match a, b with
  | Some s, Some t => String.eqb s t
  | None, None => true
  | _, _ => false
  end.

(** [reader.onloadend] of [handleSourceImageUpload], [result] being
    [reader.result]. *)
Definition handleSourceImageUpload (result : Url) (st : State) : State :=
  {| sourceImageUrl := result;
     currentImageUrl := result;
     targetImageUrl := None;
     morphDirection := None;
     isMorphing := false |}.

(** [reader.onloadend] of [handleTargetImageUpload]. *)
Definition handleTargetImageUpload (result : Url) (st : State) : State :=
  {| sourceImageUrl := sourceImageUrl st;
     currentImageUrl := currentImageUrl st;
     targetImageUrl := result;
     morphDirection := None;
     isMorphing := isMorphing st |}.

Definition handleToggleMorph (st : State) : State :=
  if negb (truthy (targetImageUrl st)) || isMorphing st then st
  else
    {| sourceImageUrl := sourceImageUrl st;
       currentImageUrl := currentImageUrl st;
       targetImageUrl := targetImageUrl st;
       morphDirection :=
         if sameUrl (currentImageUrl st) (sourceImageUrl st)
         then Some toTarget else Some toSource;
       isMorphing := true |}.

Definition handleMorphComplete (direction : Direction) (st : State)
    : State :=
  {| sourceImageUrl := sourceImageUrl st;
     currentImageUrl :=
       match direction with
       | toTarget =>
           if truthy (targetImageUrl st) then targetImageUrl st
           else currentImageUrl st
       | toSource => sourceImageUrl st
       end;
     targetImageUrl := targetImageUrl st;
     morphDirection := None;
     isMorphing := false |}.

(** What happens to the shell: a file read ends, the button is pressed,
    the component reports the end of a morph. *)
Inductive Event : Type :=
  | SourceRead (result : Url)
  | TargetRead (result : Url)
  | ToggleMorph
  | MorphComplete (direction : Direction).

Definition step (st : State) (e : Event) : State :=
  match e with
  | SourceRead result => handleSourceImageUpload result st
  | TargetRead result => handleTargetImageUpload result st
  | ToggleMorph => handleToggleMorph st
  | MorphComplete direction => handleMorphComplete direction st
  end.

Definition run (st : State) (es : list Event) : State := foldl step st es.

(** A target URL, and the shell with its initial source image and that
    target image chosen. *)
Definition sampleTarget : String.string := "target.png"%string.

Definition shellWithTarget : State :=
  handleTargetImageUpload (Some sampleTarget) initialState.

End App.

(** * Sampling an image ([getImageParticleData])

    The function reads the image through the browser: its size, a 2D
    context of a canvas (which may be refused), and the bytes of the
    image drawn at the scaled size, [imageData], four per pixel.  These
    are the arguments of the embedding.  Numbers are exact reals, as
    everywhere, except in the scaling, where the rounding of doubles
    decides the size of the canvas. *)

(** [SRGBToLinear] of three.js, applied to each channel by
    [color.convertSRGBToLinear()]. *)
Definition SRGBToLinear (c : R) : R :=
  if Rltb c (4045/100000) then c * (773993808/10000000000)
  else Rpower (c * (9478672986/10000000000) + (521327014/10000000000))
         (24/10).

Definition convertSRGBToLinear (c : Color) : Color :=
  THREE.mkColor (SRGBToLinear (THREE.r c)) (SRGBToLinear (THREE.g c))
    (SRGBToLinear (THREE.b c)).

(** ** The numbers of the scaling

    Whether a side of the canvas comes out as [400] or [399], as [1] or
    [0], hangs on the last bit of a double.  The quotients and products
    of the scaling are therefore rounded as IEEE 754 rounds binary64
    results: to the nearest number of 53 significant bits, a tie going
    to the one whose last bit is even.  The exponent range of the
    format is left out; nothing computed from sides below [2^32], the
    range of [image.width], comes near its ends. *)

(** The exponent of a positive number: the [e] with
    [2^e <= x < 2^(e+1)]. *)
Definition exponent (x : R) : Z := Zfloor (ln x / ln 2).

(** The integer nearest to [m], ties to even. *)
Definition nearestEven (m : R) : Z :=
  let f := Zfloor m in
  let r := m - IZR f in
  if Rltb r (1/2) then f
  else if Rltb (1/2) r then (f + 1)%Z
  else if Z.even f then f else (f + 1)%Z.

Definition roundPositive (x : R) : R :=
  let e := exponent x in
  IZR (nearestEven (x * powerRZ 2 (52 - e))) * powerRZ 2 (e - 52).

(** The double nearest to [x]. *)
Definition double (x : R) : R :=
  if Rltb 0 x then roundPositive x
  else if Rltb x 0 then - roundPositive (- x)
  else 0.

(** The unit roundoff of the format, [2^-53]. *)
Definition unitRoundoff : R := / 9007199254740992.

(** The range of [image.width] and [image.height], an [unsigned long]. *)
Definition unsignedLong (n : nat) : Prop := INR n < 4294967296.

(** The size of the canvas: the image scaled to fit [400] by [400].
    [MAX_WIDTH / imgWidth], [MAX_HEIGHT / imgHeight] and the two
    products are doubles; [Math.min] and [Math.floor] are exact.  Both
    sides of the image are positive where this is used. *)
Definition scaledSize (width height : nat) : Z * Z :=
  let MAX_WIDTH := 400 in
  let MAX_HEIGHT := 400 in
  let ratio :=
    Rmin (double (MAX_WIDTH / INR width)) (double (MAX_HEIGHT / INR height)) in
  (Zfloor (double (INR width * ratio)), Zfloor (double (INR height * ratio))).

(** [imageData[index]]: [undefined] unless [index] is an integer within
    the array. *)
Definition pixel (imageData : list Z) (index : R) : option Z :=
  let k := Zfloor index in
  if Reqb (IZR k) index && (0 <=? k)%Z then imageData !! Z.to_nat k
  else None.

(** The body of the inner loop at [(x, y)]: the sample it pushes, if
    any.  [undefined > 128] is false.  A colour byte read outside the
    array gives [NaN]; that happens only at negative coordinates, in
    calls that never return, and [0] stands for it. *)
Definition sampleAt (imageData : list Z) (imgWidth imgHeight : Z)
    (x y : R) : option Sample :=
  let index := (y * IZR imgWidth + x) * 4 in
  match pixel imageData (index + 3) with
  | Some alpha =>
      if (128 <? alpha)%Z then
        let posX := x - IZR imgWidth / 2 in
        let posY := - y + IZR imgHeight / 2 in
        let channel i := IZR (default 0%Z (pixel imageData (index + i))) in
        let color :=
          THREE.mkColor (channel 0 / 255) (channel 1 / 255)
            (channel 2 / 255) in
        Some {| position := THREE.mkVector3 posX posY 0;
                color := convertSRGBToLinear color |}
      else None
  | None => None
  end.

(** [for (let x = ...; x < imgWidth; x += density)], from [x] on, with
    the samples pushed so far; [None] when the fuel runs out. *)
Fixpoint scanRow (fuel : nat) (imageData : list Z) (imgWidth imgHeight : Z)
    (density y x : R) (data : list Sample) : option (list Sample) :=
  match fuel with
  | O => None
  | S fuel =>
      if Rltb x (IZR imgWidth) then
        scanRow fuel imageData imgWidth imgHeight density y (x + density)
          (match sampleAt imageData imgWidth imgHeight x y with
           | Some s => data ++ [s]
           | None => data
           end)
      else Some data
  end.

(** [for (let y = ...; y < imgHeight; y += density)], from [y] on; every
    row is given [rowFuel]. *)
Fixpoint scanRows (fuel rowFuel : nat) (imageData : list Z)
    (imgWidth imgHeight : Z) (density y : R) (data : list Sample)
    : option (list Sample) :=
  match fuel with
  | O => None
  | S fuel =>
      if Rltb y (IZR imgHeight) then
        match scanRow rowFuel imageData imgWidth imgHeight density y 0 data
        with
        | Some data =>
            scanRows fuel rowFuel imageData imgWidth imgHeight density
              (y + density) data
        | None => None
        end
      else Some data
  end.

(** How a call ends, when it ends: without a context it returns at once;
    [getImageData] throws an [IndexSizeError] for a canvas without
    width or height; otherwise [onComplete] is called with the data. *)
Inductive Outcome : Type :=
  | NoContext
  | SizeError
  | Completed (data : list Sample).

(** The call, [None] standing for one that has not ended within the
    fuel.  An image with a side of [0] gives a scaled side of [0] or
    [NaN], hence a canvas without width or height. *)
Definition getImageParticleData (fuel : nat) (context : bool)
    (width height : nat) (imageData : list Z) (density : R)
    : option Outcome :=
  if negb context then Some NoContext
  else if (width =? 0)%nat || (height =? 0)%nat then Some SizeError
  else
    let '(imgWidth, imgHeight) := scaledSize width height in
    if (imgWidth =? 0)%Z || (imgHeight =? 0)%Z then Some SizeError
    else
      match scanRows fuel fuel imageData imgWidth imgHeight density 0 []
      with
      | Some data => Some (Completed data)
      | None => None
      end.

(** A fully opaque white image of [400] by [400] pixels. *)
Definition whiteImage : list Z := repeat 255%Z (4 * 400 * 400).

(** The canvas of a fully opaque white image of [97] by [97] pixels,
    [399] by [399]. *)
Definition smallImage : list Z := repeat 255%Z (4 * 399 * 399).

(** A sample in the frame of the canvas: in the plane [z = 0], within
    the square of side [400] centred on the origin. *)
Definition inFrame (s : Sample) : Prop :=
  THREE.z (position s) = 0 /\
  -200 <= THREE.x (position s) < 200 /\
  -200 < THREE.y (position s) <= 200.

(** A fully transparent image of [400] by [400] pixels. *)
Definition clearImage : list Z := repeat 0%Z (4 * 400 * 400).

(** The samples of the lattice of [nx] by [ny] points of step [density],
    row by row: those the body of the loops pushes. *)
Definition latticeSamples (imageData : list Z) (imgWidth imgHeight : Z)
    (density : R) (nx ny : nat) : list Sample :=
  seq 0 ny ≫= fun j =>
    omap (fun i => sampleAt imageData imgWidth imgHeight
                     (INR i * density) (INR j * density))
      (seq 0 nx).

(** * Properties *)

(** ** Boolean comparisons *)

Lemma Rltb_true a b : Rltb a b = true <-> a < b.
Proof. unfold Rltb. destruct (Rlt_dec a b); split; intros; try done. Qed.

Lemma Rltb_false a b : Rltb a b = false <-> b <= a.
Proof.
  unfold Rltb. destruct (Rlt_dec a b); split; intros; try done; lra.
Qed.

Lemma Rleb_true a b : Rleb a b = true <-> a <= b.
Proof. unfold Rleb. destruct (Rle_dec a b); split; intros; try done. Qed.

Lemma Rleb_false a b : Rleb a b = false <-> b < a.
Proof.
  unfold Rleb. destruct (Rle_dec a b); split; intros; try done; lra.
Qed.

Lemma Reqb_true a b : Reqb a b = true <-> a = b.
Proof. unfold Reqb. destruct (Req_dec_T a b); split; intros; try done. Qed.

Lemma Reqb_false a b : Reqb a b = false <-> a <> b.
Proof. unfold Reqb. destruct (Req_dec_T a b); split; intros; try done. Qed.

(** Tests and extrema on numerals are decided by linear arithmetic. *)

Lemma Reqb_neq a b : a < b \/ b < a -> Reqb a b = false.
Proof. intros H. apply Reqb_false. lra. Qed.

Ltac Rtests :=
  repeat match goal with
  | |- context [Rltb ?a ?b] =>
      first [ rewrite (proj2 (Rltb_true a b)) by lra
            | rewrite (proj2 (Rltb_false a b)) by lra ]
  | |- context [Rleb ?a ?b] =>
      first [ rewrite (proj2 (Rleb_true a b)) by lra
            | rewrite (proj2 (Rleb_false a b)) by lra ]
  | |- context [Reqb ?a ?b] =>
      first [ rewrite (proj2 (Reqb_true a b)) by lra
            | rewrite (Reqb_neq a b) by lra ]
  | |- context [Rmax ?a ?b] =>
      first [ rewrite (Rmax_left a b) by lra
            | rewrite (Rmax_right a b) by lra ]
  | |- context [Rmin ?a ?b] =>
      first [ rewrite (Rmin_left a b) by lra
            | rewrite (Rmin_right a b) by lra ]
  end.

(** ** Vectors *)

Lemma Vector3_eq (a b : Vector3) :
  THREE.x a = THREE.x b -> THREE.y a = THREE.y b -> THREE.z a = THREE.z b ->
  a = b.
Proof. destruct a, b; simpl; intros; subst; reflexivity. Qed.

Lemma distanceToSquared_nonneg (a b : Vector3) :
  0 <= THREE.distanceToSquared a b.
Proof.
  unfold THREE.distanceToSquared; cbv zeta.
  generalize (THREE.x a - THREE.x b) (THREE.y a - THREE.y b)
             (THREE.z a - THREE.z b).
  intros u v w. nra.
Qed.

Lemma distanceToSquared_sym (a b : Vector3) :
  THREE.distanceToSquared a b = THREE.distanceToSquared b a.
Proof. unfold THREE.distanceToSquared; simpl; ring. Qed.

Lemma sqrt_mult_self (a : R) : 0 <= a -> sqrt (a * a) = a.
Proof. intros Ha. apply sqrt_square; assumption. Qed.

(** ** Collision resolution of one pair *)

Section ResolvePair.

Variables (particleSize : R) (p1 p2 : Particle).

Let collisionDist := particleSize * 2.
Let distanceSq :=
  THREE.distanceToSquared (currentPosition p1) (currentPosition p2).
Let distance := sqrt distanceSq.
Let normal :=
  THREE.multiplyScalar
    (THREE.sub (currentPosition p1) (currentPosition p2)) (1 / distance).
Let overlap := (collisionDist - distance) * (1/2).

Lemma resolvePair_skip :
  distanceSq = 0 \/ collisionDist * collisionDist <= distanceSq ->
  resolvePair collisionDist p1 p2 = (p1, p2).
Proof.
  intros H. unfold resolvePair.
  destruct (id p2 <=? id p1)%nat; [reflexivity|].
  fold distanceSq.
  destruct (Rltb 0 distanceSq) eqn:E1; simpl; [|reflexivity].
  destruct (Rltb distanceSq (collisionDist * collisionDist)) eqn:E2;
    [|reflexivity].
  apply Rltb_true in E1, E2. lra.
Qed.

Hypothesis Hid : (id p1 < id p2)%nat.
Hypothesis Hsq : 0 < distanceSq < collisionDist * collisionDist.

Lemma resolvePair_positions :
  currentPosition (resolvePair collisionDist p1 p2).1 =
    THREE.add (currentPosition p1) (THREE.multiplyScalar normal overlap) /\
  currentPosition (resolvePair collisionDist p1 p2).2 =
    THREE.sub (currentPosition p2) (THREE.multiplyScalar normal overlap).
Proof.
  unfold resolvePair.
  destruct (Nat.leb_spec (id p2) (id p1)) as [Hle|_]; [lia|].
  fold distanceSq.
  assert (Rltb 0 distanceSq = true) as -> by apply Rltb_true, Hsq.
  assert (Rltb distanceSq (collisionDist * collisionDist) = true) as ->
    by apply Rltb_true, Hsq.
  simpl. fold distanceSq. fold distance.
  match goal with |- context [Rltb 0 ?v] => destruct (Rltb 0 v) end;
    simpl; split; reflexivity.
Qed.

Hypothesis Hsize : 0 < particleSize.

Lemma distance_pos : 0 < distance.
Proof. apply sqrt_lt_R0. lra. Qed.

Lemma distance_sq : distance * distance = distanceSq.
Proof. apply sqrt_sqrt. lra. Qed.

Lemma distance_lt_collisionDist : distance < collisionDist.
Proof.
  pose proof distance_pos. pose proof distance_sq.
  assert (0 < collisionDist) by (unfold collisionDist; lra).
  nra.
Qed.

Lemma overlap_pos : 0 < overlap.
Proof. pose proof distance_lt_collisionDist. unfold overlap. lra. Qed.

Lemma normal_unit : THREE.length normal = 1.
Proof.
  pose proof distance_pos as Hd. pose proof distance_sq as Hdd.
  unfold THREE.length. rewrite <- sqrt_1. f_equal.
  unfold THREE.lengthSq, THREE.dot, normal. simpl.
  set (ax := THREE.x (currentPosition p1) - THREE.x (currentPosition p2)).
  set (ay := THREE.y (currentPosition p1) - THREE.y (currentPosition p2)).
  set (az := THREE.z (currentPosition p1) - THREE.z (currentPosition p2)).
  transitivity ((ax * ax + ay * ay + az * az) / (distance * distance)).
  - field. lra.
  - rewrite Hdd. change (ax * ax + ay * ay + az * az) with distanceSq.
    field. destruct Hsq; lra.
Qed.

Lemma resolvePair_distanceToSquared :
  THREE.distanceToSquared
    (currentPosition (resolvePair collisionDist p1 p2).1)
    (currentPosition (resolvePair collisionDist p1 p2).2)
  = collisionDist * collisionDist.
Proof.
  destruct resolvePair_positions as [-> ->].
  pose proof distance_pos as Hd. pose proof distance_sq as Hdd.
  unfold THREE.distanceToSquared, normal, overlap. simpl.
  set (ax := THREE.x (currentPosition p1) - THREE.x (currentPosition p2)).
  set (ay := THREE.y (currentPosition p1) - THREE.y (currentPosition p2)).
  set (az := THREE.z (currentPosition p1) - THREE.z (currentPosition p2)).
  transitivity ((ax * ax + ay * ay + az * az)
                * ((collisionDist * collisionDist) / (distance * distance))).
  - unfold ax, ay, az. field. lra.
  - rewrite Hdd. change (ax * ax + ay * ay + az * az) with distanceSq.
    field. destruct Hsq; lra.
Qed.

Lemma resolvePair_distanceTo :
  THREE.distanceTo
    (currentPosition (resolvePair collisionDist p1 p2).1)
    (currentPosition (resolvePair collisionDist p1 p2).2)
  = collisionDist.
Proof.
  unfold THREE.distanceTo. rewrite resolvePair_distanceToSquared.
  apply sqrt_mult_self. unfold collisionDist. lra.
Qed.

End ResolvePair.


(** ** The wraparound loops *)

Section RemapLoops.

Variable data : list Sample.
Variable upd : Particle -> Sample -> Particle.
Variable write : list Particle -> nat -> nat -> list Particle.

Hypothesis write_spec : forall ps i k,
  write ps i k =
  match ps !! i, data !! k with
  | Some p, Some d => <[i := upd p d]> ps
  | _, _ => ps
  end.

Lemma write_length ps i k : length (write ps i k) = length ps.
Proof.
  rewrite write_spec.
  destruct (ps !! i), (data !! k); try reflexivity. apply length_insert.
Qed.

Lemma write_lookup_ne ps i k j : i <> j -> write ps i k !! j = ps !! j.
Proof.
  intros Hne. rewrite write_spec.
  destruct (ps !! i), (data !! k); try reflexivity.
  apply list_lookup_insert_ne. exact Hne.
Qed.

Lemma write_lookup_eq ps i k p d :
  ps !! i = Some p -> data !! k = Some d ->
  write ps i k !! i = Some (upd p d).
Proof.
  intros Hp Hd. rewrite write_spec, Hp, Hd.
  apply list_lookup_insert_eq. eapply lookup_lt_Some. exact Hp.
Qed.

Lemma writeLoop_length kf idxs : forall ps,
  length (writeLoop write kf ps idxs) = length ps.
Proof.
  induction idxs as [|a idxs IH]; intros ps; simpl; [reflexivity|].
  rewrite IH. apply write_length.
Qed.

Lemma writeLoop_lookup_notin kf idxs : forall ps j,
  j ∉ idxs -> writeLoop write kf ps idxs !! j = ps !! j.
Proof.
  induction idxs as [|a idxs IH]; intros ps j Hj; simpl; [reflexivity|].
  apply not_elem_of_cons in Hj as [Hne Hj].
  rewrite IH by exact Hj.
  apply write_lookup_ne. congruence.
Qed.

Lemma writeLoop_lookup_in kf idxs : forall ps j p d,
  NoDup idxs -> j ∈ idxs ->
  ps !! j = Some p -> data !! kf j = Some d ->
  writeLoop write kf ps idxs !! j = Some (upd p d).
Proof.
  induction idxs as [|a idxs IH]; intros ps j p d Hnd Hj Hp Hd; simpl.
  - apply elem_of_nil in Hj. contradiction.
  - apply NoDup_cons in Hnd as [Ha Hnd].
    apply elem_of_cons in Hj as [->|Hj].
    + rewrite writeLoop_lookup_notin by exact Ha.
      apply write_lookup_eq; assumption.
    + assert (a <> j) by (intros ->; contradiction).
      apply (IH _ _ p d); try assumption.
      rewrite write_lookup_ne by assumption. exact Hp.
Qed.

Lemma remapLoops_length ps :
  length (remapLoops write (length data) ps) = length ps.
Proof.
  unfold remapLoops.
  set (n := Nat.min (length ps) (length data)).
  destruct (n <? _)%nat.
  - rewrite !writeLoop_length. reflexivity.
  - apply writeLoop_length.
Qed.

(** After the two loops, particle [i] has taken sample
    [i mod length data]. *)
Lemma remapLoops_lookup ps i p :
  (0 < length data)%nat ->
  ps !! i = Some p ->
  exists d, data !! (i mod length data)%nat = Some d /\
            remapLoops write (length data) ps !! i = Some (upd p d).
Proof.
  intros Hdata Hp.
  assert (Hi : (i < length ps)%nat) by (eapply lookup_lt_Some; exact Hp).
  destruct (lookup_lt_is_Some_2 data (i mod length data)%nat) as [d Hd].
  { apply Nat.mod_upper_bound. lia. }
  exists d. split; [exact Hd|].
  unfold remapLoops.
  set (n := Nat.min (length ps) (length data)).
  rewrite writeLoop_length.
  destruct (Nat.ltb_spec n (length ps)) as [Hlt|Hge].
  - assert (Hn : n = length data) by lia.
    destruct (Nat.lt_ge_cases i n) as [Hin|Hin].
    + rewrite writeLoop_lookup_notin.
      2:{ rewrite elem_of_seq. lia. }
      apply writeLoop_lookup_in; try assumption.
      * apply NoDup_seq.
      * rewrite elem_of_seq. lia.
      * rewrite <- Hd. f_equal. rewrite Nat.mod_small; lia.
    + apply writeLoop_lookup_in.
      * apply NoDup_seq.
      * rewrite elem_of_seq. lia.
      * rewrite writeLoop_lookup_notin; [exact Hp|].
        rewrite elem_of_seq. lia.
      * rewrite Hn. exact Hd.
  - assert (Hn : n = length ps) by lia.
    apply writeLoop_lookup_in; try assumption.
    + apply NoDup_seq.
    + rewrite elem_of_seq. lia.
    + rewrite <- Hd. f_equal. rewrite Nat.mod_small; lia.
Qed.

End RemapLoops.

(** ** The vibrancy transform on a sample *)

Lemma getHSL_dullRed : THREE.getHSL dullRed = THREE.mkHSL 0 (1/3) (3/8).
Proof.
  unfold THREE.getHSL, dullRed; simpl. Rtests. simpl.
  f_equal; field.
Qed.

Lemma applyVibrancy_dullRed :
  THREE.r (applyVibrancy dullRed defaultVibrancy) = 21/40.
Proof.
  unfold applyVibrancy. rewrite getHSL_dullRed. simpl.
  unfold THREE.setHSL, THREE.euclideanModulo1, THREE.clamp, defaultVibrancy.
  rewrite (Zfloor_eq 0 0) by (simpl; lra).
  Rtests. simpl.
  unfold THREE.hue2rgb. Rtests. simpl. Rtests. field.
Qed.

(** ** Loops that update the shared array one index at a time *)

Section PointwiseLoop.

Variable f : Particle -> Particle.
Variable stepf : list Particle -> nat -> list Particle.

Hypothesis stepf_spec : forall store j,
  stepf store j =
  match store !! j with
  | Some p => <[j := f p]> store
  | None => store
  end.

Lemma stepf_lookup_ne store j i : j <> i -> stepf store j !! i = store !! i.
Proof.
  intros Hne. rewrite stepf_spec. destruct (store !! j); [|reflexivity].
  apply list_lookup_insert_ne. exact Hne.
Qed.

Lemma stepf_lookup_eq store j : stepf store j !! j = f <$> store !! j.
Proof.
  rewrite stepf_spec. destruct (store !! j) as [p|] eqn:E; simpl.
  - apply list_lookup_insert_eq. eapply lookup_lt_Some. exact E.
  - exact E.
Qed.

Lemma foldl_stepf_notin idxs : forall store i,
  i ∉ idxs -> foldl stepf store idxs !! i = store !! i.
Proof.
  induction idxs as [|a idxs IH]; intros store i Hi; simpl; [reflexivity|].
  apply not_elem_of_cons in Hi as [Hne Hi].
  rewrite IH by exact Hi. apply stepf_lookup_ne. congruence.
Qed.

Lemma foldl_stepf_in idxs : forall store i,
  NoDup idxs -> i ∈ idxs -> foldl stepf store idxs !! i = f <$> store !! i.
Proof.
  induction idxs as [|a idxs IH]; intros store i Hnd Hi; simpl.
  - apply elem_of_nil in Hi. contradiction.
  - apply NoDup_cons in Hnd as [Ha Hnd].
    apply elem_of_cons in Hi as [->|Hi].
    + rewrite foldl_stepf_notin by exact Ha. apply stepf_lookup_eq.
    + assert (a <> i) by (intros ->; contradiction).
      rewrite IH by assumption. f_equal. apply stepf_lookup_ne. assumption.
Qed.

(** If the indices left out are fixed points of [f], the loop is a map. *)
Lemma foldl_stepf_map idxs store :
  NoDup idxs ->
  (forall i p, store !! i = Some p -> i ∉ idxs -> f p = p) ->
  foldl stepf store idxs = f <$> store.
Proof.
  intros Hnd Hfix. apply list_eq. intros i.
  rewrite list_lookup_fmap.
  destruct (decide (i ∈ idxs)) as [Hi|Hi].
  - apply foldl_stepf_in; assumption.
  - rewrite foldl_stepf_notin by exact Hi.
    destruct (store !! i) as [p|] eqn:E; [|reflexivity].
    simpl. f_equal. symmetry. eapply Hfix; eassumption.
Qed.

End PointwiseLoop.

(** ** The spatial hash grid *)

(** The indices, from [i] on, of the particles of [ps] that fall in cell
    [k], in array order. *)
Lemma gridPush_lookup grid key i k :
  default [] (gridPush grid key i !! k) =
  default [] (grid !! k) ++ (if decide (key = k) then [i] else []).
Proof.
  unfold gridPush. destruct (decide (key = k)) as [->|Hne].
  - rewrite lookup_insert_eq. reflexivity.
  - rewrite lookup_insert_ne by exact Hne. rewrite app_nil_r. reflexivity.
Qed.

Lemma buildGridFrom_lookup size k ps : forall i grid,
  default [] (buildGridFrom size i ps grid !! k) =
  default [] (grid !! k) ++ cellIndices size k i ps.
Proof.
  induction ps as [|p ps IH]; intros i grid; simpl.
  - rewrite app_nil_r. reflexivity.
  - rewrite IH, gridPush_lookup, <- app_assoc. reflexivity.
Qed.

Lemma buildGrid_lookup size k ps :
  default [] (buildGrid size ps !! k) = cellIndices size k 0 ps.
Proof.
  unfold buildGrid. rewrite buildGridFrom_lookup, lookup_empty. reflexivity.
Qed.

Lemma elem_of_cellIndices size k ps : forall i j,
  j ∈ cellIndices size k i ps <->
  (i <= j)%nat /\
  exists p, ps !! (j - i)%nat = Some p /\
            getCellKey size (currentPosition p) = k.
Proof.
  induction ps as [|p ps IH]; intros i j; simpl.
  - split.
    + intros H. apply elem_of_nil in H. contradiction.
    + intros (_ & q & Hq & _). discriminate.
  - rewrite elem_of_app, IH. split.
    + intros [H|(Hle & q & Hq & Hk)].
      * destruct (decide _) as [Hk|]; [|apply elem_of_nil in H; contradiction].
        apply list_elem_of_singleton in H as ->.
        split; [lia|]. exists p. rewrite Nat.sub_diag. auto.
      * split; [lia|]. exists q. split; [|exact Hk].
        replace (j - i)%nat with (S (j - S i)) by lia. exact Hq.
    + intros (Hle & q & Hq & Hk).
      destruct (decide (j = i)) as [->|Hne].
      * left. rewrite Nat.sub_diag in Hq. simpl in Hq.
        injection Hq as ->. rewrite decide_True by exact Hk.
        apply list_elem_of_singleton. reflexivity.
      * right. split; [lia|]. exists q. split; [|exact Hk].
        replace (j - i)%nat with (S (j - S i)) in Hq by lia. exact Hq.
Qed.

Lemma NoDup_cellIndices size k ps : forall i,
  NoDup (cellIndices size k i ps).
Proof.
  induction ps as [|p ps IH]; intros i; simpl; [constructor|].
  destruct (decide _); simpl; [|apply IH].
  constructor; [|apply IH].
  rewrite elem_of_cellIndices. intros [Hle _]. lia.
Qed.

(** *** The 27 neighbouring cells *)

Lemma NoDup_neighbourOffsets : NoDup neighbourOffsets.
Proof. apply (bool_decide_unpack _). vm_compute. exact I. Qed.

Lemma elem_of_neighbourOffsets (dx dy dz : Z) :
  (-1 <= dx <= 1)%Z -> (-1 <= dy <= 1)%Z -> (-1 <= dz <= 1)%Z ->
  (dx, dy, dz) ∈ neighbourOffsets.
Proof.
  intros Hx Hy Hz.
  assert (Ex : dx = (-1)%Z \/ dx = 0%Z \/ dx = 1%Z) by lia.
  assert (Ey : dy = (-1)%Z \/ dy = 0%Z \/ dy = 1%Z) by lia.
  assert (Ez : dz = (-1)%Z \/ dz = 0%Z \/ dz = 1%Z) by lia.
  apply (bool_decide_unpack _).
  destruct Ex as [->|[->| ->]], Ey as [->|[->| ->]], Ez as [->|[->| ->]];
    vm_compute; exact I.
Qed.

Lemma offsetKey_inj k o1 o2 : offsetKey k o1 = offsetKey k o2 -> o1 = o2.
Proof.
  destruct k as [[kx ky] kz], o1 as [[a1 b1] c1], o2 as [[a2 b2] c2].
  unfold offsetKey; simpl. intros H. injection H as H1 H2 H3.
  f_equal; [f_equal|]; lia.
Qed.

(** Two points closer than one cell size lie in neighbouring cells. *)
Lemma Zfloor_near (a b : R) :
  Rabs (a - b) < 1 -> (-1 <= Zfloor a - Zfloor b <= 1)%Z.
Proof.
  intros Hab. apply Rabs_def2 in Hab as [H1 H2].
  pose proof (Zfloor_bound a) as [Ha1 Ha2].
  pose proof (Zfloor_bound b) as [Hb1 Hb2].
  assert (L : (-2 < Zfloor a - Zfloor b)%Z)
    by (apply lt_IZR; rewrite minus_IZR; lra).
  assert (U : (Zfloor a - Zfloor b < 2)%Z)
    by (apply lt_IZR; rewrite minus_IZR; lra).
  lia.
Qed.

Lemma getCellKey_near size (a b : Vector3) :
  0 < size ->
  THREE.distanceToSquared a b < size * size ->
  exists o, o ∈ neighbourOffsets /\
            getCellKey size a = offsetKey (getCellKey size b) o.
Proof.
  intros Hsize Hd.
  unfold THREE.distanceToSquared in Hd. cbv zeta in Hd.
  assert (Hc : forall u v w : R,
             u * u + v * v + w * w < size * size ->
             Rabs (u / size) < 1).
  { intros u v w H. unfold Rdiv. rewrite Rabs_mult.
    rewrite (Rabs_right (/ size)).
    2:{ apply Rle_ge, Rlt_le, Rinv_0_lt_compat; lra. }
    apply (Rmult_lt_reg_r size); [lra|].
    rewrite Rmult_assoc, Rinv_l, Rmult_1_r, Rmult_1_l by lra.
    apply Rabs_def1; nra. }
  assert (Hx : Rabs (THREE.x a / size - THREE.x b / size) < 1).
  { replace (THREE.x a / size - THREE.x b / size)
      with ((THREE.x a - THREE.x b) / size) by (field; lra).
    eapply Hc. exact Hd. }
  assert (Hy : Rabs (THREE.y a / size - THREE.y b / size) < 1).
  { replace (THREE.y a / size - THREE.y b / size)
      with ((THREE.y a - THREE.y b) / size) by (field; lra).
    eapply (Hc _ (THREE.x a - THREE.x b) (THREE.z a - THREE.z b)). lra. }
  assert (Hz : Rabs (THREE.z a / size - THREE.z b / size) < 1).
  { replace (THREE.z a / size - THREE.z b / size)
      with ((THREE.z a - THREE.z b) / size) by (field; lra).
    eapply (Hc _ (THREE.x a - THREE.x b) (THREE.y a - THREE.y b)). lra. }
  apply Zfloor_near in Hx, Hy, Hz.
  eexists (_, _, _). split.
  - apply elem_of_neighbourOffsets; [exact Hx | exact Hy | exact Hz].
  - unfold getCellKey, offsetKey; simpl. f_equal; [f_equal|]; lia.
Qed.

(** *** Nested loops over cells visit a concatenation *)

Lemma foldl_cells {A B C} (stepf : A -> B -> A) (g : C -> list B)
    (l : list C) : forall a,
  foldl (fun st o => foldl stepf st (g o)) a l = foldl stepf a (l ≫= g).
Proof.
  induction l as [|o l IH]; intros a; [reflexivity|].
  rewrite bind_cons, foldl_app. simpl. apply IH.
Qed.

Lemma foldl_pointwise {A B} (f g : A -> B -> A) (l : list B) :
  (forall a b, f a b = g a b) -> forall a, foldl f a l = foldl g a l.
Proof.
  intros Hfg. induction l as [|b l IH]; intros a; simpl; [reflexivity|].
  rewrite Hfg. apply IH.
Qed.

(** The indices the 27-cell query around key [k] visits, in order. *)
Lemma NoDup_visited size k ps :
  NoDup (neighbourOffsets ≫=
           (fun o => cellIndices size (offsetKey k o) 0 ps)).
Proof.
  apply NoDup_bind.
  - intros o1 o2 j _ _ H1 H2.
    apply elem_of_cellIndices in H1 as (_ & q1 & Hq1 & Hk1).
    apply elem_of_cellIndices in H2 as (_ & q2 & Hq2 & Hk2).
    rewrite Hq1 in Hq2. injection Hq2 as <-.
    apply (offsetKey_inj k). congruence.
  - intros o _. apply NoDup_cellIndices.
  - apply NoDup_neighbourOffsets.
Qed.

(** ** The push block is a map over the particles *)

Lemma pushParticle_far pos pushRadius pushStrength p :
  pushRadius * pushRadius <= THREE.distanceToSquared (currentPosition p) pos ->
  pushParticle pos pushRadius pushStrength p = p.
Proof.
  intros H. unfold pushParticle.
  rewrite (proj2 (Rltb_false _ _) H), andb_false_r. reflexivity.
Qed.

Lemma pushStage_map pos pushRadius pushStrength ps :
  0 < pushRadius ->
  pushStage pos pushRadius pushStrength ps =
  pushParticle pos pushRadius pushStrength <$> ps.
Proof.
  intros HR. unfold pushStage.
  transitivity
    (foldl (pushStep pos pushRadius pushStrength) ps
       (neighbourOffsets ≫=
          (fun o => cellIndices pushRadius
                      (offsetKey (getCellKey pushRadius pos) o) 0 ps))).
  - rewrite <- foldl_cells. apply foldl_pointwise.
    intros st o. rewrite <- buildGrid_lookup.
    destruct (buildGrid pushRadius ps !! _); reflexivity.
  - apply foldl_stepf_map.
    + intros store j. reflexivity.
    + apply NoDup_visited.
    + intros i p Hp Hi. apply pushParticle_far.
      apply Rnot_lt_le. intros Hlt. apply Hi.
      destruct (getCellKey_near pushRadius (currentPosition p) pos HR Hlt)
        as (o & Ho & Hk).
      apply list_elem_of_bind. exists o. split; [|exact Ho].
      apply elem_of_cellIndices. split; [lia|].
      exists p. rewrite Nat.sub_0_r. split; [exact Hp | exact Hk].
Qed.

(** ** Pointer push *)

Lemma pushParticle_position pos pushRadius pushStrength p :
  currentPosition (pushParticle pos pushRadius pushStrength p)
  = currentPosition p.
Proof. unfold pushParticle. destruct (_ && _); reflexivity. Qed.

Lemma pushParticle_near pos pushRadius pushStrength p :
  THREE.distanceToSquared (currentPosition p) pos <= 1/1000000 ->
  pushParticle pos pushRadius pushStrength p = p.
Proof.
  intros H. unfold pushParticle.
  rewrite (proj2 (Rltb_false _ _) H). reflexivity.
Qed.

Lemma set_velocity_same p : set_velocity p (velocity p) = p.
Proof. destruct p; reflexivity. Qed.

Lemma add_zero_r (v : Vector3) : THREE.add v THREE.zero = v.
Proof. apply Vector3_eq; simpl; ring. Qed.

(** One visit adds [pushForce] to the velocity and changes nothing else. *)
Lemma pushParticle_pushForce pos pushRadius pushStrength p :
  0 < pushRadius ->
  pushParticle pos pushRadius pushStrength p =
  set_velocity p
    (THREE.add (velocity p) (pushForce true pos pushRadius pushStrength p)).
Proof.
  intros HR. unfold pushParticle, pushForce.
  rewrite (proj2 (Rltb_true _ _) HR). simpl.
  destruct (_ && _); [reflexivity|].
  rewrite add_zero_r, set_velocity_same. reflexivity.
Qed.

(** C8 (as amended): in the push block of a tick (push enabled, no pointer
    interaction, [pushRadius > 0]), a particle whose squared distance to
    the pointer lies strictly between [1e-6] and [pushRadius^2], that is
    [0.001 < d < pushRadius], gets the velocity increment
    [u * (pushStrength * (pushRadius - d) / pushRadius)], [u] being the
    unit vector from the pointer to the particle; a particle with squared
    distance at most [1e-6] or with [d >= pushRadius] is left as it is.
    Positions are not touched. *)
Theorem C8_push_force (pos : Vector3) (pushRadius pushStrength : R)
    (ps : list Particle) (i : nat) (p : Particle) :
  let distanceSq := THREE.distanceToSquared (currentPosition p) pos in
  let d := THREE.distanceTo (currentPosition p) pos in
  let u := THREE.multiplyScalar (THREE.sub (currentPosition p) pos) (1 / d) in
  0 < pushRadius ->
  ps !! i = Some p ->
  exists q,
    pushStage pos pushRadius pushStrength ps !! i = Some q /\
    currentPosition q = currentPosition p /\
    (1/1000000 < distanceSq < pushRadius * pushRadius ->
       THREE.length u = 1 /\
       0 < (pushRadius - d) / pushRadius /\
       q = set_velocity p
             (THREE.add (velocity p)
                (THREE.multiplyScalar u
                   (pushStrength * (pushRadius - d) / pushRadius)))) /\
    (distanceSq <= 1/1000000 \/ pushRadius <= d -> q = p).
Proof.
  cbv zeta. intros HR Hp.
  set (distanceSq := THREE.distanceToSquared (currentPosition p) pos).
  set (d := THREE.distanceTo (currentPosition p) pos).
  assert (Hnn : 0 <= distanceSq) by apply distanceToSquared_nonneg.
  assert (Hdd : d * d = distanceSq) by (apply sqrt_sqrt; exact Hnn).
  assert (Hd0 : 0 <= d) by apply sqrt_pos.
  exists (pushParticle pos pushRadius pushStrength p).
  split; [|split; [|split]].
  - rewrite pushStage_map by exact HR.
    rewrite list_lookup_fmap, Hp. reflexivity.
  - apply pushParticle_position.
  - intros [Hlo Hhi].
    assert (Hdpos : 0 < d) by nra.
    assert (HdR : d < pushRadius) by nra.
    split; [|split].
    + unfold THREE.length, THREE.lengthSq, THREE.dot. simpl.
      transitivity (sqrt 1); [f_equal | apply sqrt_1].
      set (ax := THREE.x (currentPosition p) - THREE.x pos).
      set (ay := THREE.y (currentPosition p) - THREE.y pos).
      set (az := THREE.z (currentPosition p) - THREE.z pos).
      transitivity ((ax * ax + ay * ay + az * az) / (d * d)).
      * field. lra.
      * rewrite Hdd. change (ax * ax + ay * ay + az * az) with distanceSq.
        field. lra.
    + apply Rdiv_lt_0_compat; lra.
    + unfold pushParticle. fold distanceSq.
      rewrite (proj2 (Rltb_true _ _) Hlo), (proj2 (Rltb_true _ _) Hhi).
      simpl. f_equal. f_equal.
      change (sqrt distanceSq) with d.
      apply Vector3_eq; simpl; field; lra.
  - intros [Hlo|Hhi].
    + apply pushParticle_near. exact Hlo.
    + apply pushParticle_far. fold distanceSq. nra.
Qed.

Lemma C8_push_force_witness :
  0 < 60 /\ [particleB] !! 0%nat = Some particleB /\
  exists q,
    pushStage THREE.zero 60 (8/10) [particleB] !! 0%nat = Some q /\
    currentPosition q = currentPosition particleB /\
    q = set_velocity particleB
          (THREE.add (velocity particleB)
             (THREE.multiplyScalar
                (THREE.multiplyScalar
                   (THREE.sub (currentPosition particleB) THREE.zero)
                   (1 / THREE.distanceTo (currentPosition particleB)
                          THREE.zero))
                (8/10 * (60 - THREE.distanceTo (currentPosition particleB)
                                 THREE.zero) / 60))).
Proof.
  split; [lra|]. split; [reflexivity|].
  destruct (C8_push_force THREE.zero 60 (8/10) [particleB] 0 particleB)
    as (q & Hq & Hpos & Hin & _); [lra | reflexivity |].
  exists q. split; [exact Hq|]. split; [exact Hpos|].
  apply Hin. unfold THREE.distanceToSquared; simpl. lra.
Defined.

(** C8 as stated fails: a particle at distance [0.0005] from the pointer
    satisfies [1e-6 <= d < pushRadius], yet the push block leaves it as it
    is; its velocity does not get the increment of magnitude
    [pushStrength * (pushRadius - d) / pushRadius] away from the pointer. *)
Lemma C8_counterexample :
  let p := particleNear in
  let d := THREE.distanceTo (currentPosition p) THREE.zero in
  let u :=
    THREE.multiplyScalar (THREE.sub (currentPosition p) THREE.zero) (1 / d) in
  1/1000000 <= d < 60 /\
  pushStage THREE.zero 60 (8/10) [p] = [p] /\
  ~ (exists q,
       pushStage THREE.zero 60 (8/10) [p] !! 0%nat = Some q /\
       velocity q =
       THREE.add (velocity p)
         (THREE.multiplyScalar u (8/10 * (60 - d) / 60))).
Proof.
  assert (Hd : THREE.distanceTo (currentPosition particleNear) THREE.zero
               = 1/2000).
  { unfold THREE.distanceTo, THREE.distanceToSquared; simpl.
    replace ((1/2000 - 0) * (1/2000 - 0) + (0 - 0) * (0 - 0)
             + (0 - 0) * (0 - 0)) with ((1/2000) * (1/2000)) by ring.
    apply sqrt_mult_self. lra. }
  assert (Hpush : pushStage THREE.zero 60 (8/10) [particleNear]
                  = [particleNear]).
  { rewrite pushStage_map by lra. simpl. f_equal.
    apply pushParticle_near.
    unfold THREE.distanceToSquared; simpl. lra. }
  cbv zeta. rewrite Hd, Hpush.
  split; [lra|]. split; [reflexivity|].
  intros (q & Hq & Hv). simpl in Hq. injection Hq as <-.
  apply (f_equal THREE.x) in Hv. simpl in Hv. lra.
Qed.

(** ** The force integration loop *)

Lemma integrateParticle_pushed returnStrength damping p F :
  integrateParticle returnStrength damping
    (set_velocity p (THREE.add (velocity p) F)) =
  let velocity' :=
    THREE.multiplyScalar
      (THREE.add
         (THREE.add (velocity p)
            (THREE.multiplyScalar
               (THREE.sub (attractorPosition p) (currentPosition p))
               returnStrength))
         F)
      damping in
  set_currentPosition (set_velocity p velocity')
    (THREE.add (currentPosition p) velocity').
Proof.
  destruct p; unfold integrateParticle, set_velocity, set_currentPosition;
    simpl.
  f_equal; apply Vector3_eq; simpl; ring.
Qed.

Lemma pushForce_disabled enabled pos pushRadius pushStrength p :
  enabled && Rltb 0 pushRadius = false ->
  pushForce enabled pos pushRadius pushStrength p = THREE.zero.
Proof. intros H. unfold pushForce. rewrite H. reflexivity. Qed.

(** C2: on a tick with no pointer interaction, every particle that enters
    the force stage (after the vibrancy and morph blocks) is updated as
    [velocity' = damping * (velocity + (attractorPosition - currentPosition)
    * returnStrength + pushForce)] and
    [currentPosition' = currentPosition + velocity'], nothing else of it
    changing; [pushForce] is zero when push is disabled or the particle is
    out of range.  The particles of the tick are these, handed to collision
    resolution when collisions are enabled. *)
Theorem C2_force_integration (props : Props) (now : R) (pos : Vector3)
    (st : State) :
  let f := tickForce props st in
  let ps :=
    (morphStage now (vibrancyStage props st) (morph st) (completed st)).1.1 in
  let update (p : Particle) :=
    let pushForce :=
      pushForce (enablePushForce props) pos (pushRadius f) (pushStrength f) p in
    let velocity' :=
      THREE.multiplyScalar
        (THREE.add
           (THREE.add (velocity p)
              (THREE.multiplyScalar
                 (THREE.sub (attractorPosition p) (currentPosition p))
                 (returnStrength f)))
           pushForce)
        (damping f) in
    set_currentPosition (set_velocity p velocity')
      (THREE.add (currentPosition p) velocity') in
  instancedMesh st = true ->
  particles st <> [] ->
  mouseInteractionState st = none ->
  particles (animate props now pos st) =
    if enableCollisions props
    then handleCollisions (update <$> ps) (particleSize f)
    else update <$> ps.
Proof.
  cbv zeta. intros Hmesh Hne Hmouse.
  unfold animate. rewrite Hmesh, Hmouse. simpl.
  destruct (particles st) as [|p0 ps0] eqn:Eps; [contradiction|].
  simpl.
  destruct (morphStage now (vibrancyStage props st) (morph st) (completed st))
    as [[ps ms] calls].
  simpl. unfold forceStage.
  set (f := tickForce props st).
  set (upd := fun p : Particle => set_currentPosition _ _).
  assert (E : map (integrateParticle (returnStrength f) (damping f))
                (if enablePushForce props && true && Rltb 0 (pushRadius f)
                 then pushStage pos (pushRadius f) (pushStrength f) ps
                 else ps)
              = upd <$> ps).
  { rewrite andb_true_r.
    destruct (enablePushForce props && Rltb 0 (pushRadius f)) eqn:Epush.
    - apply andb_true_iff in Epush as [Een HR]. apply Rltb_true in HR.
      rewrite pushStage_map by exact HR.
      change (map ?g (?h <$> ps)) with (g <$> (h <$> ps)).
      rewrite <- list_fmap_compose. apply list_fmap_ext.
      intros _ p _. simpl.
      rewrite pushParticle_pushForce by exact HR.
      rewrite integrateParticle_pushed. unfold upd. rewrite Een.
      reflexivity.
    - apply list_fmap_ext. intros _ p _. unfold upd.
      rewrite pushForce_disabled by exact Epush.
      rewrite <- (integrateParticle_pushed _ _ p THREE.zero).
      rewrite add_zero_r, set_velocity_same. reflexivity. }
  rewrite E. reflexivity.
Qed.

Lemma C2_force_integration_witness :
  let st := stateWith [particleB] none initialMorphState in
  instancedMesh st = true /\ particles st <> [] /\
  mouseInteractionState st = none /\
  length (particles (animate defaultProps 0 THREE.zero st)) = 1%nat.
Proof.
  cbv zeta. split; [reflexivity|]. split; [discriminate|].
  split; [reflexivity|].
  rewrite (C2_force_integration defaultProps 0 THREE.zero
             (stateWith [particleB] none initialMorphState));
    [| reflexivity | discriminate | reflexivity].
  unfold vibrancyStage; simpl. destruct (Rltb _ _); reflexivity.
Defined.

(** ** What the physics leaves alone *)

Lemma static_set_currentPosition p v :
  static (set_currentPosition p v) = static p.
Proof. reflexivity. Qed.

Lemma static_set_velocity p v : static (set_velocity p v) = static p.
Proof. reflexivity. Qed.

Lemma static_resolvePair collisionDist p1 p2 :
  static (resolvePair collisionDist p1 p2).1 = static p1 /\
  static (resolvePair collisionDist p1 p2).2 = static p2.
Proof.
  unfold resolvePair.
  destruct (_ <=? _)%nat; [split; reflexivity|].
  destruct (_ && _); [|split; reflexivity].
  cbv zeta.
  match goal with |- context [Rltb 0 ?v] => destruct (Rltb 0 v) end;
    split; reflexivity.
Qed.

Lemma static_pushParticle pos pushRadius pushStrength p :
  static (pushParticle pos pushRadius pushStrength p) = static p.
Proof. unfold pushParticle. destruct (_ && _); reflexivity. Qed.

Lemma static_integrateParticle returnStrength damping p :
  static (integrateParticle returnStrength damping p) = static p.
Proof. reflexivity. Qed.

Lemma static_insert_id (store : list Particle) i p q :
  store !! i = Some p -> static q = static p ->
  static <$> <[i := q]> store = static <$> store.
Proof.
  intros Hp Hq. rewrite list_fmap_insert, Hq.
  apply list_insert_id. rewrite list_lookup_fmap, Hp. reflexivity.
Qed.

Lemma static_collideStep collisionDist i store j :
  static <$> collideStep collisionDist i store j = static <$> store.
Proof.
  unfold collideStep.
  destruct (store !! i) as [p1|] eqn:E1; [|reflexivity].
  destruct (store !! j) as [p2|] eqn:E2; [|reflexivity].
  destruct (static_resolvePair collisionDist p1 p2) as [H1 H2].
  destruct (resolvePair collisionDist p1 p2) as [q1 q2]. simpl in *.
  rewrite list_fmap_insert, H1.
  rewrite (static_insert_id _ _ p2) by assumption.
  apply list_insert_id. rewrite list_lookup_fmap, E1. reflexivity.
Qed.

Lemma static_foldl {B} (stepf : list Particle -> B -> list Particle)
    (l : list B) :
  (forall store b, static <$> stepf store b = static <$> store) ->
  forall store, static <$> foldl stepf store l = static <$> store.
Proof.
  intros Hstep. induction l as [|b l IH]; intros store; simpl; [reflexivity|].
  rewrite IH. apply Hstep.
Qed.

Lemma static_collideParticle collisionDist grid store i :
  static <$> collideParticle collisionDist grid store i = static <$> store.
Proof.
  unfold collideParticle. destruct (store !! i); [|reflexivity].
  apply static_foldl. intros st o.
  destruct (grid !! _); [|reflexivity].
  apply static_foldl. intros st' j. apply static_collideStep.
Qed.

Lemma static_handleCollisions ps particleSize :
  static <$> handleCollisions ps particleSize = static <$> ps.
Proof.
  unfold handleCollisions. destruct (_ || _); [reflexivity|].
  apply static_foldl. intros st i. apply static_collideParticle.
Qed.

Lemma static_pushStage pos pushRadius pushStrength ps :
  static <$> pushStage pos pushRadius pushStrength ps = static <$> ps.
Proof.
  unfold pushStage. apply static_foldl. intros st o.
  destruct (_ !! _); [|reflexivity].
  apply static_foldl. intros st' j. unfold pushStep.
  destruct (st' !! j) as [p|] eqn:E; [|reflexivity].
  apply (static_insert_id _ _ p); [exact E|]. apply static_pushParticle.
Qed.

Lemma static_forceStage props f mouseState pos ps :
  static <$> forceStage props f mouseState pos ps = static <$> ps.
Proof.
  unfold forceStage.
  assert (E : forall l : list Particle,
             static <$> map (integrateParticle (returnStrength f) (damping f)) l
             = static <$> l).
  { intros l. change (map ?g l) with (g <$> l).
    rewrite <- list_fmap_compose. apply list_fmap_ext. reflexivity. }
  destruct (enableCollisions props).
  - rewrite static_handleCollisions, E.
    destruct (_ && _); [apply static_pushStage | reflexivity].
  - rewrite E. destruct (_ && _); [apply static_pushStage | reflexivity].
Qed.

Lemma static_length (ps qs : list Particle) :
  static <$> ps = static <$> qs -> length ps = length qs.
Proof.
  intros H. rewrite <- (length_fmap static ps), H. apply length_fmap.
Qed.

Lemma static_Forall (P : Particle -> Prop) (ps qs : list Particle) :
  (forall p, P p <-> P (static p)) ->
  static <$> ps = static <$> qs -> Forall P qs -> Forall P ps.
Proof.
  intros HP H Hqs.
  assert (Forall P (static <$> qs)) as Hs.
  { apply Forall_fmap. eapply Forall_impl; [exact Hqs|].
    intros p Hp. simpl. apply (proj1 (HP p)). exact Hp. }
  rewrite <- H, Forall_fmap in Hs.
  eapply Forall_impl; [exact Hs|]. intros p Hp. simpl in Hp.
  apply (proj2 (HP p)). exact Hp.
Qed.

(** ** [handleCollisions] on two particles

    The grid query does reach an overlapping pair, once, and the pass over
    the second particle finds nothing left to do: the whole function is
    the pair step. *)

Lemma collideParticle_visits collisionDist ps store i :
  collideParticle collisionDist (buildGrid collisionDist ps) store i =
  match store !! i with
  | Some p1 =>
      foldl (collideStep collisionDist i) store
        (neighbourOffsets ≫=
           (fun o => cellIndices collisionDist
                       (offsetKey
                          (getCellKey collisionDist (currentPosition p1)) o)
                       0 ps))
  | None => store
  end.
Proof.
  unfold collideParticle. destruct (store !! i) as [p1|]; [|reflexivity].
  rewrite <- foldl_cells. apply foldl_pointwise.
  intros st o. rewrite <- buildGrid_lookup. unfold collideCell.
  destruct (buildGrid collisionDist ps !! _); reflexivity.
Qed.

Lemma collideParticle_visits_Some collisionDist ps store i p1 :
  store !! i = Some p1 ->
  collideParticle collisionDist (buildGrid collisionDist ps) store i =
  foldl (collideStep collisionDist i) store
    (neighbourOffsets ≫=
       (fun o => cellIndices collisionDist
                   (offsetKey (getCellKey collisionDist (currentPosition p1)) o)
                   0 ps)).
Proof. intros H. rewrite collideParticle_visits, H. reflexivity. Qed.

Lemma visited_bound collisionDist k ps j :
  j ∈ neighbourOffsets ≫=
        (fun o => cellIndices collisionDist (offsetKey k o) 0 ps) ->
  (j < length ps)%nat.
Proof.
  intros H. apply list_elem_of_bind in H as (o & Hj & _).
  apply elem_of_cellIndices in Hj as (_ & q & Hq & _).
  rewrite Nat.sub_0_r in Hq. eapply lookup_lt_Some. exact Hq.
Qed.

Lemma id_static p q : static p = static q -> id p = id q.
Proof. intros H. apply (f_equal id) in H. exact H. Qed.

Lemma resolvePair_self collisionDist p :
  resolvePair collisionDist p p = (p, p).
Proof. unfold resolvePair. rewrite Nat.leb_refl. reflexivity. Qed.

Lemma resolvePair_reversed collisionDist p1 p2 :
  (id p1 < id p2)%nat -> resolvePair collisionDist p2 p1 = (p2, p1).
Proof.
  intros H. unfold resolvePair.
  destruct (Nat.leb_spec (id p1) (id p2)); [reflexivity | lia].
Qed.

Lemma resolvePair_again particleSize p1 p2 :
  0 < particleSize ->
  let q := resolvePair (particleSize * 2) p1 p2 in
  resolvePair (particleSize * 2) q.1 q.2 = q.
Proof.
  intros Hsize q.
  destruct (Nat.le_gt_cases (id p2) (id p1)) as [Hid|Hid].
  { assert (E : q = (p1, p2)).
    { unfold q, resolvePair.
      destruct (Nat.leb_spec (id p2) (id p1)); [reflexivity | lia]. }
    rewrite E. simpl. rewrite <- E. reflexivity. }
  set (distanceSq :=
         THREE.distanceToSquared (currentPosition p1) (currentPosition p2)).
  destruct (Rlt_le_dec 0 distanceSq) as [H0|H0];
    [destruct (Rlt_le_dec distanceSq (particleSize * 2 * (particleSize * 2)))
       as [H1|H1]|].
  - transitivity (q.1, q.2); [|symmetry; apply surjective_pairing].
    apply (resolvePair_skip particleSize). right.
    unfold q. rewrite resolvePair_distanceToSquared.
    + lra.
    + exact Hid.
    + split; assumption.
  - assert (E : q = (p1, p2)) by (apply resolvePair_skip; right; exact H1).
    rewrite E. simpl. rewrite <- E. reflexivity.
  - assert (E : q = (p1, p2)).
    { apply resolvePair_skip. left.
      pose proof (distanceToSquared_nonneg (currentPosition p1)
                    (currentPosition p2)).
      fold distanceSq in H. fold distanceSq. lra. }
    rewrite E. simpl. rewrite <- E. reflexivity.
Qed.

Lemma handleCollisions_pair particleSize p1 p2 q1 q2 :
  0 < particleSize ->
  (id p1 < id p2)%nat ->
  resolvePair (particleSize * 2) p1 p2 = (q1, q2) ->
  handleCollisions [p1; p2] particleSize = [q1; q2].
Proof.
  intros Hsize Hid Hq.
  set (cd := particleSize * 2) in *.
  assert (Hcd : 0 < cd) by (unfold cd; lra).
  destruct (static_resolvePair cd p1 p2) as [Hs1 Hs2].
  rewrite Hq in Hs1, Hs2. simpl in Hs1, Hs2.
  assert (Hidq : (id q1 < id q2)%nat).
  { rewrite (id_static _ _ Hs1), (id_static _ _ Hs2). exact Hid. }
  pose proof (resolvePair_again particleSize p1 p2 Hsize) as Hagain.
  cbv zeta in Hagain. fold cd in Hagain. rewrite Hq in Hagain.
  simpl in Hagain.
  (* the steps on the two stores *)
  assert (S00 : collideStep cd 0 [p1; p2] 0 = [p1; p2]).
  { unfold collideStep. simpl. rewrite resolvePair_self. reflexivity. }
  assert (S01 : collideStep cd 0 [p1; p2] 1 = [q1; q2]).
  { unfold collideStep. simpl. rewrite Hq. reflexivity. }
  assert (T00 : collideStep cd 0 [q1; q2] 0 = [q1; q2]).
  { unfold collideStep. simpl. rewrite resolvePair_self. reflexivity. }
  assert (T01 : collideStep cd 0 [q1; q2] 1 = [q1; q2]).
  { unfold collideStep. simpl. rewrite Hagain. reflexivity. }
  assert (T10 : collideStep cd 1 [q1; q2] 0 = [q1; q2]).
  { unfold collideStep. simpl.
    rewrite resolvePair_reversed by exact Hidq. reflexivity. }
  assert (T11 : collideStep cd 1 [q1; q2] 1 = [q1; q2]).
  { unfold collideStep. simpl. rewrite resolvePair_self. reflexivity. }
  (* once the pair is resolved, the pass of the first particle is over *)
  assert (Keep : forall V,
             (forall j, j ∈ V -> (j < 2)%nat) ->
             foldl (collideStep cd 0) [q1; q2] V = [q1; q2]).
  { induction V as [|b V IHV]; intros HV; [reflexivity|]. simpl.
    assert (Hb : b = 0%nat \/ b = 1%nat)
      by (assert (b < 2)%nat by (apply HV; left); lia).
    destruct Hb as [-> | ->]; rewrite ?T00, ?T01;
      apply IHV; intros j Hj; apply HV; right; exact Hj. }
  (* the pass of the first particle *)
  assert (First : forall V,
             (forall j, j ∈ V -> (j < 2)%nat) ->
             1%nat ∈ V \/ (q1, q2) = (p1, p2) ->
             foldl (collideStep cd 0) [p1; p2] V = [q1; q2]).
  { induction V as [|a V IH]; intros HV H.
    - destruct H as [H|H]; [apply elem_of_nil in H; contradiction|].
      injection H as -> ->. reflexivity.
    - assert (HV' : forall j, j ∈ V -> (j < 2)%nat)
        by (intros j Hj; apply HV; right; exact Hj).
      assert (Ha : a = 0%nat \/ a = 1%nat)
        by (assert (a < 2)%nat by (apply HV; left); lia).
      simpl. destruct Ha as [-> | ->].
      + rewrite S00. apply (IH HV').
        destruct H as [H|H]; [|right; exact H].
        apply elem_of_cons in H as [H|H]; [discriminate | left; exact H].
      + rewrite S01. apply Keep. exact HV'. }
  (* the pass of the second particle *)
  assert (Second : forall V,
             (forall j, j ∈ V -> (j < 2)%nat) ->
             foldl (collideStep cd 1) [q1; q2] V = [q1; q2]).
  { induction V as [|b V IHV]; intros HV; [reflexivity|]. simpl.
    assert (Hb : b = 0%nat \/ b = 1%nat)
      by (assert (b < 2)%nat by (apply HV; left); lia).
    destruct Hb as [-> | ->]; rewrite ?T10, ?T11;
      apply IHV; intros j Hj; apply HV; right; exact Hj. }
  unfold handleCollisions. fold cd.
  rewrite (proj2 (Rleb_false _ _) Hsize). simpl.
  set (grid := buildGrid cd [p1; p2]).
  assert (E0 : collideParticle cd grid [p1; p2] 0 = [q1; q2]).
  { unfold grid.
    rewrite (collideParticle_visits_Some cd _ _ _ p1) by reflexivity.
    apply First.
    - intros j Hj. exact (visited_bound cd _ [p1; p2] j Hj).
    - set (distanceSq :=
             THREE.distanceToSquared (currentPosition p1) (currentPosition p2)).
      destruct (Rlt_le_dec distanceSq (cd * cd)) as [Hnear|Hfar].
      + left.
        destruct (getCellKey_near cd (currentPosition p2) (currentPosition p1)
                    Hcd) as (o & Ho & Hk).
        { rewrite distanceToSquared_sym. exact Hnear. }
        apply list_elem_of_bind. exists o. split; [|exact Ho].
        apply elem_of_cellIndices. split; [lia|].
        exists p2. split; [reflexivity | exact Hk].
      + right. rewrite <- Hq. apply resolvePair_skip. right. exact Hfar. }
  rewrite E0. unfold grid.
  rewrite (collideParticle_visits_Some cd _ _ _ q2) by reflexivity.
  apply Second.
  intros j Hj. exact (visited_bound cd _ [p1; p2] j Hj).
Qed.

(** ** The claims on collision resolution *)

(** C7: a pair that collision resolution handles in canonical order
    ([p1.id < p2.id]) with [0 < distanceSq < (2 * particleSize)^2] is moved
    apart along the unit normal from [p2] to [p1], each particle by the
    positive half overlap, and its distance does not decrease; a pair whose
    squared distance is [0] or at least [(2 * particleSize)^2] is left
    exactly as it was.  On an array of these two particles,
    [handleCollisions] as a whole does this and nothing more. *)
Theorem C7_pair_pushed_apart (particleSize : R) (p1 p2 : Particle) :
  let collisionDist := particleSize * 2 in
  let distanceSq :=
    THREE.distanceToSquared (currentPosition p1) (currentPosition p2) in
  let distance := sqrt distanceSq in
  let normal :=
    THREE.multiplyScalar
      (THREE.sub (currentPosition p1) (currentPosition p2)) (1 / distance) in
  let overlap := (collisionDist - distance) * (1/2) in
  let q := resolvePair collisionDist p1 p2 in
  0 < particleSize ->
  (id p1 < id p2)%nat ->
  (0 < distanceSq < collisionDist * collisionDist ->
     THREE.length normal = 1 /\
     0 < overlap /\
     currentPosition q.1 =
       THREE.add (currentPosition p1) (THREE.multiplyScalar normal overlap) /\
     currentPosition q.2 =
       THREE.sub (currentPosition p2) (THREE.multiplyScalar normal overlap) /\
     THREE.distanceTo (currentPosition p1) (currentPosition p2)
       <= THREE.distanceTo (currentPosition q.1) (currentPosition q.2)) /\
  (distanceSq = 0 \/ collisionDist * collisionDist <= distanceSq ->
     q = (p1, p2)) /\
  handleCollisions [p1; p2] particleSize = [q.1; q.2].
Proof.
  cbv zeta. intros Hsize Hid.
  split; [|split].
  - intros Hsq.
    destruct (resolvePair_positions particleSize p1 p2 Hid Hsq) as [E1 E2].
    repeat split.
    + apply (normal_unit particleSize); assumption.
    + apply (overlap_pos particleSize); assumption.
    + exact E1.
    + exact E2.
    + rewrite resolvePair_distanceTo by assumption.
      apply Rlt_le. apply distance_lt_collisionDist; assumption.
  - intros Hskip. apply resolvePair_skip. exact Hskip.
  - apply handleCollisions_pair; [exact Hsize | exact Hid |].
    apply surjective_pairing.
Qed.

Lemma C7_pair_pushed_apart_witness :
  let q := resolvePair (1 * 2) particleA particleB in
  0 < 1 /\ (id particleA < id particleB)%nat /\
  0 < THREE.distanceToSquared (currentPosition particleA)
        (currentPosition particleB) < 1 * 2 * (1 * 2) /\
  THREE.distanceTo (currentPosition particleA) (currentPosition particleB)
    <= THREE.distanceTo (currentPosition q.1) (currentPosition q.2) /\
  handleCollisions [particleA; particleB] 1 = [q.1; q.2].
Proof.
  assert (Hsq : 0 < THREE.distanceToSquared (currentPosition particleA)
                      (currentPosition particleB) < 1 * 2 * (1 * 2))
    by (unfold THREE.distanceToSquared; simpl; lra).
  destruct (C7_pair_pushed_apart 1 particleA particleB) as (Hin & _ & Hall);
    [lra | simpl; lia |].
  destruct (Hin Hsq) as (_ & _ & _ & _ & Hdist).
  cbv zeta. split; [lra|]. split; [simpl; lia|]. split; [exact Hsq|].
  split; [exact Hdist | exact Hall].
Defined.

(** C10: in exact arithmetic, a pair handled in canonical order with
    [0 < distance < 2 * particleSize] ends at distance exactly
    [2 * particleSize]: each particle is moved by
    [(2 * particleSize - distance) / 2] along the connecting normal, in
    opposite directions.  [handleCollisions] on an array of these two
    particles returns them at that distance. *)
Theorem C10_pair_ends_at_minimum_separation
    (particleSize : R) (p1 p2 : Particle) :
  let distance :=
    THREE.distanceTo (currentPosition p1) (currentPosition p2) in
  let normal :=
    THREE.multiplyScalar
      (THREE.sub (currentPosition p1) (currentPosition p2)) (1 / distance) in
  let shift := (2 * particleSize - distance) / 2 in
  let q := resolvePair (particleSize * 2) p1 p2 in
  (id p1 < id p2)%nat ->
  0 < distance < 2 * particleSize ->
  currentPosition q.1 =
    THREE.add (currentPosition p1) (THREE.multiplyScalar normal shift) /\
  currentPosition q.2 =
    THREE.sub (currentPosition p2) (THREE.multiplyScalar normal shift) /\
  THREE.distanceTo (currentPosition q.1) (currentPosition q.2)
    = 2 * particleSize /\
  handleCollisions [p1; p2] particleSize = [q.1; q.2].
Proof.
  cbv zeta.
  set (distance :=
         THREE.distanceTo (currentPosition p1) (currentPosition p2)).
  set (shift := (2 * particleSize - distance) / 2).
  intros Hid Hd.
  assert (Hsize : 0 < particleSize) by lra.
  set (distanceSq :=
         THREE.distanceToSquared (currentPosition p1) (currentPosition p2)).
  assert (Hsq : 0 < distanceSq < particleSize * 2 * (particleSize * 2)).
  { pose proof (distanceToSquared_nonneg (currentPosition p1)
                  (currentPosition p2)) as Hnn.
    fold distanceSq in Hnn.
    assert (Hdd : distance * distance = distanceSq)
      by (apply sqrt_sqrt; exact Hnn).
    split; nra. }
  destruct (resolvePair_positions particleSize p1 p2 Hid Hsq) as [E1 E2].
  assert (Eshift : shift =
                   (particleSize * 2 - sqrt distanceSq) * (1/2))
    by (unfold shift, distance, THREE.distanceTo; fold distanceSq; field).
  split; [|split; [|split]].
  - rewrite E1, Eshift. reflexivity.
  - rewrite E2, Eshift. reflexivity.
  - rewrite resolvePair_distanceTo by assumption. ring.
  - apply handleCollisions_pair; [exact Hsize | exact Hid |].
    apply surjective_pairing.
Qed.

Lemma distanceTo_particleA_particleB :
  THREE.distanceTo (currentPosition particleA) (currentPosition particleB) = 1.
Proof.
  unfold THREE.distanceTo, THREE.distanceToSquared; simpl.
  replace ((0 - 1) * (0 - 1) + (0 - 0) * (0 - 0) + (0 - 0) * (0 - 0))
    with 1 by ring.
  apply sqrt_1.
Qed.

Lemma C10_pair_ends_at_minimum_separation_witness :
  (id particleA < id particleB)%nat /\
  0 < THREE.distanceTo (currentPosition particleA) (currentPosition particleB)
    < 2 * 1 /\
  let q := resolvePair (1 * 2) particleA particleB in
  THREE.distanceTo (currentPosition q.1) (currentPosition q.2) = 2 * 1.
Proof.
  split; [simpl; lia|].
  split; [rewrite distanceTo_particleA_particleB; lra|].
  apply (C10_pair_ends_at_minimum_separation 1 particleA particleB);
    [simpl; lia | rewrite distanceTo_particleA_particleB; lra].
Defined.

(** ** Seeding and re-sampling *)

Lemma writeSource_spec vibrancy data ps i k :
  writeSource vibrancy data ps i k =
  match ps !! i, data !! k with
  | Some p, Some d => <[i := takeSource vibrancy p d]> ps
  | _, _ => ps
  end.
Proof. reflexivity. Qed.

Lemma writeTarget_spec vibrancy data ps i k :
  writeTarget vibrancy data ps i k =
  match ps !! i, data !! k with
  | Some p, Some d => <[i := takeTarget vibrancy p d]> ps
  | _, _ => ps
  end.
Proof. reflexivity. Qed.

Lemma sourceLoaded_length props data st :
  instancedMesh st = true ->
  length (particles (sourceLoaded props data st)) = length (particles st).
Proof.
  intros Hmesh. unfold sourceLoaded. rewrite Hmesh.
  destruct (_ =? _)%nat; [reflexivity|]. simpl.
  destruct (morphState props), (isMorphing (morph st)); simpl;
    rewrite ?length_map;
    apply (remapLoops_length data (takeSource (vibrancy (appearance props))));
    apply writeSource_spec.
Qed.

Lemma targetLoaded_length props data st :
  length (particles (targetLoaded props data st)) = length (particles st).
Proof.
  unfold targetLoaded. simpl.
  destruct (_ || _); [reflexivity|].
  destruct (morphState props), (isMorphing (morph st)); simpl;
    rewrite ?length_map;
    apply (remapLoops_length data (takeTarget (vibrancy (appearance props))));
    apply writeTarget_spec.
Qed.

Lemma morphTrigger_length props d now rnd st :
  length (particles (morphTrigger props d now rnd st)) = length (particles st).
Proof.
  unfold morphTrigger.
  destruct d as [d|]; [|reflexivity].
  destruct (targetParticleData st) as [tp|]; [|reflexivity].
  destruct (_ || _); [reflexivity|]. simpl.
  rewrite length_imap.
  apply (remapLoops_length tp (takeTarget (vibrancy (appearance props)))).
  apply writeTarget_spec.
Qed.

Lemma morphStage_static_length now ps ms calls :
  length (morphStage now ps ms calls).1.1 = length ps.
Proof.
  unfold morphStage. destruct (isMorphing ms); [|reflexivity].
  destruct (Rleb _ _); simpl; [apply length_map | apply length_imap].
Qed.

Lemma vibrancyStage_length props st :
  length (vibrancyStage props st) = length (particles st).
Proof.
  unfold vibrancyStage. destruct (Rltb _ _); [apply length_map | reflexivity].
Qed.

Lemma forceStage_length props f mouseState pos ps :
  length (forceStage props f mouseState pos ps) = length ps.
Proof. apply static_length, static_forceStage. Qed.

Lemma animate_length props now pos st :
  length (particles (animate props now pos st)) = length (particles st).
Proof.
  unfold animate. destruct (_ || _); [reflexivity|].
  destruct (mouseInteractionState st); simpl.
  - pose proof (morphStage_static_length now (vibrancyStage props st)
                  (morph st) (completed st)) as H.
    destruct (morphStage _ _ _ _) as [[ps ms] calls]. simpl in *.
    rewrite forceStage_length, H. apply vibrancyStage_length.
  - rewrite length_map. apply vibrancyStage_length.
  - rewrite length_map. apply vibrancyStage_length.
Qed.

Lemma step_length st e :
  instancedMesh st = true ->
  length (particles (step st e)) = length (particles st).
Proof.
  intros Hmesh. destruct e; simpl.
  - apply sourceLoaded_length. exact Hmesh.
  - apply targetLoaded_length.
  - apply morphTrigger_length.
  - apply length_imap.
  - reflexivity.
  - apply animate_length.
Qed.

Lemma step_instancedMesh st e :
  instancedMesh st = true -> instancedMesh (step st e) = true.
Proof.
  intros Hmesh. destruct e; simpl.
  - unfold sourceLoaded. rewrite Hmesh.
    destruct (_ =? _)%nat; [exact Hmesh|]. simpl.
    destruct (morphState props), (isMorphing (morph st)); exact Hmesh.
  - unfold targetLoaded. simpl. destruct (_ || _); [exact Hmesh|].
    destruct (morphState props), (isMorphing (morph st)); exact Hmesh.
  - unfold morphTrigger. destruct morphDirection; [|exact Hmesh].
    destruct (targetParticleData st); [|exact Hmesh].
    destruct (_ || _); exact Hmesh.
  - exact Hmesh.
  - exact Hmesh.
  - unfold animate. destruct (_ || _); [exact Hmesh|].
    destruct (mouseInteractionState st); simpl; try exact Hmesh.
    destruct (morphStage _ _ _ _) as [[ps ms] calls]. exact Hmesh.
Qed.

Lemma run_length es : forall st,
  instancedMesh st = true ->
  instancedMesh (run st es) = true /\
  length (particles (run st es)) = length (particles st).
Proof.
  induction es as [|e es IH]; intros st Hmesh; simpl; [auto|].
  destruct (IH (step st e)) as [H1 H2].
  { apply step_instancedMesh, Hmesh. }
  split; [exact H1|]. rewrite H2. apply step_length, Hmesh.
Qed.

(** C6: the first non-empty source sampling seeds one particle per sample
    point; from then on, whatever events follow (source and target
    re-samplings, and also morph triggers, pointer events and ticks), the
    particle array keeps that length. *)
Theorem C6_particle_count_invariant (props0 props : Props)
    (sourceData : list Sample) (es : list Event) :
  sourceData <> [] ->
  let seeded := sourceLoaded props sourceData (initialState props0) in
  length (particles seeded) = length sourceData /\
  length (particles (run seeded es)) = length sourceData.
Proof.
  intros Hne seeded.
  assert (Hseed : instancedMesh seeded = true
                  /\ length (particles seeded) = length sourceData).
  { unfold seeded, sourceLoaded. destruct sourceData; [contradiction|].
    simpl. split; [reflexivity|]. rewrite length_imap. reflexivity. }
  destruct Hseed as [Hmesh Hlen]. split; [exact Hlen|].
  destruct (run_length es seeded Hmesh) as [_ ->]. exact Hlen.
Qed.

Lemma C6_particle_count_invariant_witness :
  [blackSample; blackSample] <> [] /\
  length (particles
            (run seededPair
               [TargetLoaded defaultProps [redSample];
                SourceLoaded defaultProps [redSample];
                Tick defaultProps 16 THREE.zero])) = 2%nat.
Proof.
  split; [discriminate|].
  apply (C6_particle_count_invariant defaultProps defaultProps
           [blackSample; blackSample]).
  discriminate.
Defined.

Lemma sourceLoaded_lookup props data st i p :
  instancedMesh st = true ->
  (0 < length data)%nat ->
  particles st !! i = Some p ->
  exists d q,
    data !! (i mod length data)%nat = Some d /\
    particles (sourceLoaded props data st) !! i = Some q /\
    sourcePosition q = position d /\
    sourceBaseColor q = color d /\
    sourceColor q = applyVibrancy (color d) (vibrancy (appearance props)).
Proof.
  intros Hmesh Hdata Hp.
  destruct (remapLoops_lookup data (takeSource (vibrancy (appearance props)))
              _ (writeSource_spec _ data) (particles st) i p Hdata Hp)
    as (d & Hd & Hq).
  exists d. unfold sourceLoaded. rewrite Hmesh.
  destruct (Nat.eqb_spec (length data) 0) as [E|_]; [lia|]. simpl.
  destruct (morphState props), (isMorphing (morph st)); simpl;
    eexists; (split; [exact Hd|]);
    (split; [first [ exact Hq
                   | change (map ?g ?l) with (g <$> l);
                     rewrite list_lookup_fmap, Hq; reflexivity ]|]);
    repeat split; reflexivity.
Qed.

Lemma targetLoaded_lookup props data st i p :
  (0 < length data)%nat ->
  particles st !! i = Some p ->
  exists d q,
    data !! (i mod length data)%nat = Some d /\
    particles (targetLoaded props data st) !! i = Some q /\
    targetPosition q = position d /\
    targetBaseColor q = color d /\
    targetColor q = applyVibrancy (color d) (vibrancy (appearance props)).
Proof.
  intros Hdata Hp.
  destruct (remapLoops_lookup data (takeTarget (vibrancy (appearance props)))
              _ (writeTarget_spec _ data) (particles st) i p Hdata Hp)
    as (d & Hd & Hq).
  exists d. unfold targetLoaded. simpl.
  destruct (Nat.eqb_spec (length data) 0) as [E|_]; [lia|].
  destruct (Nat.eqb_spec (length (particles st)) 0) as [E|_].
  { apply lookup_lt_Some in Hp. lia. }
  simpl.
  destruct (morphState props), (isMorphing (morph st)); simpl;
    eexists; (split; [exact Hd|]);
    (split; [first [ exact Hq
                   | change (map ?g ?l) with (g <$> l);
                     rewrite list_lookup_fmap, Hq; reflexivity ]|]);
    repeat split; reflexivity.
Qed.

(** C5 (as amended): in a source or target re-sampling with non-empty
    data, every existing particle [i] takes sample [i mod length data]
    (which is sample [i] when [i < length data]): its role position and
    role base colour are the sample's, and its role colour is the sample's
    colour under the vibrancy transform; the array keeps its length. *)
Theorem C5_resampling_wraps_around (props : Props) (data : list Sample)
    (st : State) (i : nat) (p : Particle) :
  instancedMesh st = true ->
  (0 < length data)%nat ->
  particles st !! i = Some p ->
  exists d,
    data !! (i mod length data)%nat = Some d /\
    ((i < length data)%nat -> data !! i = Some d) /\
    (exists q,
       particles (sourceLoaded props data st) !! i = Some q /\
       sourcePosition q = position d /\
       sourceBaseColor q = color d /\
       sourceColor q = applyVibrancy (color d) (vibrancy (appearance props))) /\
    (exists q,
       particles (targetLoaded props data st) !! i = Some q /\
       targetPosition q = position d /\
       targetBaseColor q = color d /\
       targetColor q = applyVibrancy (color d) (vibrancy (appearance props))) /\
    length (particles (sourceLoaded props data st)) = length (particles st) /\
    length (particles (targetLoaded props data st)) = length (particles st).
Proof.
  intros Hmesh Hdata Hp.
  destruct (sourceLoaded_lookup props data st i p Hmesh Hdata Hp)
    as (d & q & Hd & Hq & H1 & H2 & H3).
  destruct (targetLoaded_lookup props data st i p Hdata Hp)
    as (d' & q' & Hd' & Hq' & H1' & H2' & H3').
  assert (d' = d) as -> by congruence.
  exists d. split; [exact Hd|]. split.
  { intros Hi. rewrite Nat.mod_small in Hd by exact Hi. exact Hd. }
  split; [exists q; auto|]. split; [exists q'; auto|].
  split; [apply sourceLoaded_length, Hmesh | apply targetLoaded_length].
Qed.

Lemma seededPair_lookup_1 :
  particles seededPair !! 1%nat
  = Some (seedParticle defaultVibrancy 1 blackSample).
Proof. reflexivity. Qed.

Lemma C5_resampling_wraps_around_witness :
  instancedMesh seededPair = true /\
  (0 < length [redSample])%nat /\
  exists d,
    [redSample] !! (1 mod length [redSample])%nat = Some d /\
    exists q,
      particles (sourceLoaded defaultProps [redSample] seededPair) !! 1%nat
        = Some q /\
      sourcePosition q = position d.
Proof.
  split; [reflexivity|]. split; [simpl; lia|].
  destruct (C5_resampling_wraps_around defaultProps [redSample] seededPair 1
              (seedParticle defaultVibrancy 1 blackSample))
    as (d & Hd & _ & (q & Hq & Hpos & _) & _);
    [reflexivity | simpl; lia | exact seededPair_lookup_1 |].
  exists d. split; [exact Hd|]. exists q. split; [exact Hq | exact Hpos].
Defined.

(** C5 as stated fails on the role colour: with fewer samples than
    particles, particle [1] takes sample [1 mod 1 = 0], but its
    [sourceColor] is not the colour of that sample (it is the colour after
    the vibrancy transform). *)
Lemma C5_counterexample :
  (length [redSample] < length (particles seededPair))%nat /\
  [redSample] !! (1 mod length [redSample])%nat = Some redSample /\
  exists q,
    particles (sourceLoaded defaultProps [redSample] seededPair) !! 1%nat
      = Some q /\
    sourceColor q <> color redSample.
Proof.
  split; [simpl; lia|]. split; [reflexivity|].
  destruct (sourceLoaded_lookup defaultProps [redSample] seededPair 1
              (seedParticle defaultVibrancy 1 blackSample))
    as (d & q & Hd & Hq & _ & _ & Hcol);
    [reflexivity | simpl; lia | exact seededPair_lookup_1 |].
  simpl in Hd. injection Hd as <-.
  exists q. split; [exact Hq|].
  rewrite Hcol. simpl. intros H.
  apply (f_equal THREE.r) in H. rewrite applyVibrancy_dullRed in H.
  simpl in H. lra.
Qed.

(** ** The morph trigger *)

Lemma morphTrigger_accepted props d now rnd st tp :
  targetParticleData st = Some tp -> tp <> [] -> particles st <> [] ->
  let st' := morphTrigger props (Some d) now rnd st in
  morph st' =
    {| isMorphing := true; startTime := now; direction := Some d;
       duration := duration (morph st);
       phaseOneDuration := phaseOneDuration (morph st);
       phaseTwoDuration := phaseTwoDuration (morph st) |} /\
  completed st' = completed st /\
  instancedMesh st' = instancedMesh st /\
  mouseInteractionState st' = mouseInteractionState st /\
  forall i q, particles st' !! i = Some q ->
    burstPosition q =
    THREE.add (departurePosition (Some d) q) (randomOffset rnd i 300).
Proof.
  intros Htp Hne Hps. unfold morphTrigger. rewrite Htp.
  destruct (particles st) as [|p0 ps0] eqn:Eps; [contradiction|].
  destruct tp as [|t0 tp0]; [contradiction|].
  simpl. repeat split.
  intros i q Hq. rewrite list_lookup_imap in Hq.
  destruct (_ !! i) as [q0|]; [|discriminate].
  simpl in Hq. injection Hq as <-.
  destruct d; reflexivity.
Qed.

Lemma morphTrigger_dropped props d now rnd st :
  targetParticleData st = None -> morphTrigger props d now rnd st = st.
Proof.
  intros H. unfold morphTrigger. rewrite H. destruct d; reflexivity.
Qed.

(** C3: a trigger received while a morph is in flight is not ignored by
    the effect, which tests [morphDirection] and the target data but
    never [isMorphing].  A morph to the target runs since time [0]; at
    time [1000] the effect runs again, once because [morphState] was
    set back (direction [toSource]), once because [appearance.vibrancy]
    changed (same direction).  Either run restarts the morph:
    [startTime] moves to [1000], and the first also turns the direction
    around, where the claim leaves [startTime] and [direction] as they
    are. *)
Theorem C3_trigger_while_morphing :
  let vivid :=
    {| morphState := stateTarget; enablePushForce := true;
       enableCollisions := true; force := defaultForce;
       appearance := {| vibrancy := 2; exposure := 1 |} |} in
  let turned :=
    morphTrigger defaultProps (Some toSource) 1000 noRandom morphingPair in
  let again :=
    morphTrigger vivid (Some toTarget) 1000 noRandom morphingPair in
  isMorphing (morph morphingPair) = true /\
  startTime (morph morphingPair) = 0 /\
  direction (morph morphingPair) = Some toTarget /\
  startTime (morph turned) = 1000 /\
  direction (morph turned) = Some toSource /\
  turned <> morphingPair /\
  startTime (morph again) = 1000 /\
  direction (morph again) = Some toTarget /\
  again <> morphingPair.
Proof.
  cbv zeta.
  set (vivid := {| morphState := stateTarget; enablePushForce := true;
                   enableCollisions := true; force := defaultForce;
                   appearance := {| vibrancy := 2; exposure := 1 |} |}).
  set (turned := morphTrigger defaultProps (Some toSource) 1000 noRandom
                   morphingPair).
  set (again := morphTrigger vivid (Some toTarget) 1000 noRandom
                  morphingPair).
  destruct (morphTrigger_accepted defaultProps toSource 1000 noRandom
              morphingPair [redSample])
    as (Hturned & _); [reflexivity | discriminate | discriminate |].
  destruct (morphTrigger_accepted vivid toTarget 1000 noRandom
              morphingPair [redSample])
    as (Hagain & _); [reflexivity | discriminate | discriminate |].
  fold turned in Hturned. fold again in Hagain.
  assert (Hstart : startTime (morph morphingPair) = 0) by reflexivity.
  assert (Hturned_start : startTime (morph turned) = 1000)
    by (rewrite Hturned; reflexivity).
  assert (Hagain_start : startTime (morph again) = 1000)
    by (rewrite Hagain; reflexivity).
  split; [reflexivity|]. split; [exact Hstart|]. split; [reflexivity|].
  split; [exact Hturned_start|].
  split; [rewrite Hturned; reflexivity|].
  split; [intros H; rewrite H, Hstart in Hturned_start; lra|].
  split; [exact Hagain_start|].
  split; [rewrite Hagain; reflexivity|].
  intros H. rewrite H, Hstart in Hagain_start. lra.
Qed.

(** ** Ticks under pointer interaction *)

Lemma attractorPosition_pointerOverride mouseState pos p :
  attractorPosition (pointerOverride mouseState pos p) = attractorPosition p.
Proof. destruct mouseState; reflexivity. Qed.

Lemma attractorPosition_refreshVibrancy ms morphing v p :
  attractorPosition (refreshVibrancy ms morphing v p) = attractorPosition p.
Proof. destruct ms, morphing; reflexivity. Qed.

Lemma attractorPosition_vibrancyStage props st :
  attractorPosition <$> vibrancyStage props st
  = attractorPosition <$> particles st.
Proof.
  unfold vibrancyStage. destruct (Rltb _ _); [|reflexivity].
  change (map ?g ?l) with (g <$> l).
  rewrite <- list_fmap_compose. apply list_fmap_ext.
  intros _ p _. apply attractorPosition_refreshVibrancy.
Qed.

(** With the pointer pressed, a tick returns before the morph block. *)
Lemma animate_pointer_active props now pos st :
  mouseInteractionState st <> none ->
  let st' := animate props now pos st in
  morph st' = morph st /\
  completed st' = completed st /\
  mouseInteractionState st' <> none /\
  instancedMesh st' = instancedMesh st /\
  attractorPosition <$> particles st' = attractorPosition <$> particles st.
Proof.
  intros Hmouse. unfold animate.
  destruct (_ || _); [cbv zeta; auto|].
  destruct (mouseInteractionState st) eqn:E; [contradiction| |]; simpl.
  - repeat split.
    + destruct (Rltb _ _); discriminate.
    + change (map ?g ?l) with (g <$> l).
      rewrite <- list_fmap_compose.
      rewrite <- (attractorPosition_vibrancyStage props st).
      apply list_fmap_ext. intros _ p _.
      apply (attractorPosition_pointerOverride bursting).
  - repeat split.
    + discriminate.
    + change (map ?g ?l) with (g <$> l).
      rewrite <- list_fmap_compose.
      rewrite <- (attractorPosition_vibrancyStage props st).
      apply list_fmap_ext. intros _ p _.
      apply (attractorPosition_pointerOverride attracting).
Qed.

(** ** Completion of a morph *)

Lemma snapped_static d p : snapped d p <-> snapped d (static p).
Proof. destruct d as [[|]|]; reflexivity. Qed.

Lemma snapped_snapToArrival d p : snapped d (snapToArrival d p).
Proof. destruct d as [[|]|]; split; reflexivity. Qed.

(** The completion branch, on a tick with the pointer released. *)
Lemma animate_completes props now pos st :
  instancedMesh st = true ->
  particles st <> [] ->
  mouseInteractionState st = none ->
  isMorphing (morph st) = true ->
  duration (morph st) <= now - startTime (morph st) ->
  let st' := animate props now pos st in
  morph st' = finished (morph st) /\
  completed st' = completed st ++ [direction (morph st)] /\
  Forall (snapped (direction (morph st))) (particles st').
Proof.
  intros Hmesh Hne Hmouse Hmorph Hdur. unfold animate.
  rewrite Hmesh, Hmouse.
  destruct (particles st) as [|p0 ps0] eqn:Eps; [contradiction|].
  simpl. unfold morphStage. rewrite Hmorph.
  rewrite (proj2 (Rleb_true _ _) Hdur). simpl.
  split; [reflexivity|]. split; [reflexivity|].
  eapply static_Forall.
  - apply snapped_static.
  - apply static_forceStage.
  - apply Forall_fmap. apply Forall_true. intros p.
    apply snapped_snapToArrival.
Qed.

(** Before the duration has elapsed no tick completes the morph. *)
Lemma animate_in_progress props now pos st :
  now - startTime (morph st) < duration (morph st) ->
  let st' := animate props now pos st in
  morph st' = morph st /\ completed st' = completed st.
Proof.
  intros Hearly. unfold animate.
  destruct (_ || _); [cbv zeta; auto|].
  destruct (mouseInteractionState st); simpl; [|auto|auto].
  unfold morphStage.
  destruct (isMorphing (morph st)); [|auto].
  rewrite (proj2 (Rleb_false _ _) Hearly). auto.
Qed.

(** Any tick either leaves the morph state and the callback trace alone,
    or completes the morph in flight and calls back once. *)
Lemma animate_morph_cases props now pos st :
  let st' := animate props now pos st in
  (morph st' = morph st /\ completed st' = completed st) \/
  (isMorphing (morph st) = true /\
   morph st' = finished (morph st) /\
   completed st' = completed st ++ [direction (morph st)]).
Proof.
  unfold animate.
  destruct (_ || _); [left; auto|].
  destruct (mouseInteractionState st); simpl; [|left; auto|left; auto].
  unfold morphStage.
  destruct (isMorphing (morph st)) eqn:E; [|left; auto].
  destruct (Rleb _ _); simpl; [right; auto | left; auto].
Qed.

Lemma step_morph_cases st e :
  isMorphTrigger e = false ->
  (morph (step st e) = morph st /\ completed (step st e) = completed st) \/
  (isMorphing (morph st) = true /\
   morph (step st e) = finished (morph st) /\
   completed (step st e) = completed st ++ [direction (morph st)]).
Proof.
  intros He. destruct e; simpl; try discriminate.
  - left. unfold sourceLoaded.
    destruct (_ =? _)%nat; [auto|]. destruct (negb _); [auto|].
    destruct (morphState props), (isMorphing (morph st)); auto.
  - left. unfold targetLoaded. simpl. destruct (_ || _); [auto|].
    destruct (morphState props), (isMorphing (morph st)); auto.
  - left. auto.
  - left. auto.
  - apply animate_morph_cases.
Qed.

(** Between two triggers the callback fires at most once, with the
    direction of the morph in flight, and only by completing it. *)
Lemma run_morph_cases es : forall st,
  forallb (fun e => negb (isMorphTrigger e)) es = true ->
  isMorphing (morph st) = true ->
  (morph (run st es) = morph st /\ completed (run st es) = completed st) \/
  (morph (run st es) = finished (morph st) /\
   completed (run st es) = completed st ++ [direction (morph st)]).
Proof.
  assert (Hidle : forall es st,
             forallb (fun e => negb (isMorphTrigger e)) es = true ->
             isMorphing (morph st) = false ->
             morph (run st es) = morph st /\
             completed (run st es) = completed st).
  { induction es0 as [|e es0 IH]; intros st Hes Hm; simpl; [auto|].
    simpl in Hes. apply andb_true_iff in Hes as [He Hes].
    apply negb_true_iff in He.
    destruct (step_morph_cases st e He) as [[H1 H2]|[H1 _]]; [|congruence].
    destruct (IH (step st e) Hes) as [H3 H4]; [congruence|].
    split; congruence. }
  induction es as [|e es IH]; intros st Hes Hm; simpl; [left; auto|].
  simpl in Hes. apply andb_true_iff in Hes as [He Hes].
  apply negb_true_iff in He.
  destruct (step_morph_cases st e He) as [[H1 H2]|(_ & H1 & H2)].
  - destruct (IH (step st e) Hes) as [[H3 H4]|[H3 H4]]; [congruence| |].
    + left. split; congruence.
    + right. split; congruence.
  - destruct (Hidle es (step st e) Hes) as [H3 H4].
    { rewrite H1. reflexivity. }
    right. split; congruence.
Qed.

Lemma nonempty_length (ps : list Particle) :
  ps <> [] <-> (0 < length ps)%nat.
Proof. destruct ps; simpl; split; intros; try lia; congruence. Qed.

(** C1 (as amended): take an accepted morph request (target data loaded,
    neither array empty) in direction [d] at time [t0], with the total
    duration [4000], and any events after it that do not restart the morph.
    The callback has then fired at most once, with direction [d], and
    exactly when the morph is over.  While it is not over, a tick with
    [now - t0 < 4000] leaves it in flight, and the first tick with no
    pointer interaction active and [now - t0 >= 4000] ends it: every
    particle's [attractorPosition] and [currentColor] are those of the
    arrival role, the controller is idle, and the callback has fired once,
    with [d]. *)
Theorem C1_morph_completion (props0 props : Props) (d : Direction)
    (t0 now : R) (rnd : nat -> R) (pos : Vector3) (st : State)
    (tp : list Sample) (es : list Event) :
  instancedMesh st = true ->
  particles st <> [] ->
  targetParticleData st = Some tp ->
  tp <> [] ->
  duration (morph st) = 4000 ->
  forallb (fun e => negb (isMorphTrigger e)) es = true ->
  let st1 := run (morphTrigger props0 (Some d) t0 rnd st) es in
  let st2 := animate props now pos st1 in
  ((isMorphing (morph st1) = true /\ completed st1 = completed st) \/
   (isMorphing (morph st1) = false /\
    completed st1 = completed st ++ [Some d])) /\
  (isMorphing (morph st1) = true ->
   now - t0 < 4000 ->
   isMorphing (morph st2) = true /\ completed st2 = completed st) /\
  (isMorphing (morph st1) = true ->
   mouseInteractionState st1 = none ->
   4000 <= now - t0 ->
   isMorphing (morph st2) = false /\
   completed st2 = completed st ++ [Some d] /\
   Forall (snapped (Some d)) (particles st2)).
Proof.
  intros Hmesh Hps Htp Hne Hdur Hes. cbv zeta.
  set (st0 := morphTrigger props0 (Some d) t0 rnd st).
  destruct (morphTrigger_accepted props0 d t0 rnd st tp Htp Hne Hps)
    as (Hm & Hc & Hi & _). fold st0 in Hm, Hc, Hi.
  assert (Hmorphing : isMorphing (morph st0) = true)
    by (rewrite Hm; reflexivity).
  assert (Hdir : direction (morph st0) = Some d)
    by (rewrite Hm; reflexivity).
  pose proof (run_morph_cases es st0 Hes Hmorphing) as Hcases.
  rewrite Hdir, Hc in Hcases.
  split; [|split].
  - destruct Hcases as [[H1 H2]|[H1 H2]].
    + left. split; [rewrite H1; exact Hmorphing | exact H2].
    + right. split; [rewrite H1; reflexivity | exact H2].
  - intros Hstill Hnow.
    destruct Hcases as [[H1 H2]|[H1 _]].
    2:{ rewrite H1 in Hstill. discriminate Hstill. }
    destruct (animate_in_progress props now pos (run st0 es)) as [E1 E2].
    { rewrite H1, Hm. simpl. rewrite Hdur. exact Hnow. }
    rewrite E1, E2. split; [exact Hstill | exact H2].
  - intros Hstill Hmouse Hnow.
    destruct Hcases as [[H1 H2]|[H1 _]].
    2:{ rewrite H1 in Hstill. discriminate Hstill. }
    destruct (run_length es st0) as [Hmesh1 Hlen1].
    { rewrite Hi. exact Hmesh. }
    destruct (animate_completes props now pos (run st0 es)) as (E1 & E2 & E3).
    + exact Hmesh1.
    + apply nonempty_length. rewrite Hlen1. unfold st0.
      rewrite morphTrigger_length. apply nonempty_length. exact Hps.
    + exact Hmouse.
    + exact Hstill.
    + rewrite H1, Hm. simpl. rewrite Hdur. exact Hnow.
    + rewrite H1, Hdir in E2, E3. rewrite H2 in E2.
      split; [rewrite E1; reflexivity|]. split; [exact E2 | exact E3].
Qed.

Lemma C1_morph_completion_witness :
  let st1 :=
    run (morphTrigger defaultProps (Some toTarget) 0 noRandom loadedPair) [] in
  let st2 := animate defaultProps 4000 THREE.zero st1 in
  instancedMesh loadedPair = true /\
  particles loadedPair <> [] /\
  targetParticleData loadedPair = Some [redSample] /\
  [redSample] <> [] /\
  duration (morph loadedPair) = 4000 /\
  forallb (fun e => negb (isMorphTrigger e)) [] = true /\
  isMorphing (morph st1) = true /\
  mouseInteractionState st1 = none /\
  4000 <= 4000 - 0 /\
  isMorphing (morph st2) = false /\
  completed st2 = completed loadedPair ++ [Some toTarget] /\
  Forall (snapped (Some toTarget)) (particles st2).
Proof.
  assert (H1 : instancedMesh loadedPair = true) by reflexivity.
  assert (H2 : particles loadedPair <> []) by discriminate.
  assert (H3 : targetParticleData loadedPair = Some [redSample])
    by reflexivity.
  assert (H4 : [redSample] <> []) by discriminate.
  assert (H5 : duration (morph loadedPair) = 4000) by reflexivity.
  assert (H6 : forallb (fun e => negb (isMorphTrigger e)) [] = true)
    by reflexivity.
  assert (H7 : 4000 <= 4000 - 0) by lra.
  destruct (C1_morph_completion defaultProps defaultProps toTarget 0 4000
              noRandom THREE.zero loadedPair [redSample] [] H1 H2 H3 H4 H5 H6)
    as (_ & _ & Hdone).
  destruct (Hdone eq_refl eq_refl H7) as (D1 & D2 & D3).
  cbv zeta. repeat (split; [assumption || reflexivity|]). exact D3.
Defined.

(** C1 as stated fails: the morph started at time [0] has run its
    [4000] ms at the tick of time [4000], but the pointer is pressed, and
    after that tick the controller is still morphing and the callback has
    not been called. *)
Lemma C1_counterexample :
  let st := pressedWhileMorphing in
  let st' := animate defaultProps 4000 THREE.zero st in
  isMorphing (morph st) = true /\
  direction (morph st) = Some toTarget /\
  duration (morph st) <= 4000 - startTime (morph st) /\
  isMorphing (morph st') = true /\
  completed st' = [].
Proof.
  cbv zeta.
  destruct (animate_pointer_active defaultProps 4000 THREE.zero
              pressedWhileMorphing) as (Hm & Hc & _); [discriminate|].
  rewrite Hm, Hc.
  split; [reflexivity|]. split; [reflexivity|].
  split; [simpl; lra|]. split; reflexivity.
Qed.

(** C4 (as amended): a tick with a pointer interaction active returns
    before the morph block: it leaves the morph state, the callback trace
    and every attractor as they are, whatever the elapsed time, and the
    pointer interaction is still active after it.  The completion is
    deferred: once the pointer is released, the next tick with
    [now - startTime >= duration] snaps the particles, goes idle and calls
    back, once. *)
Theorem C4_pointer_defers_completion (props props' : Props) (now now' : R)
    (pos pos' : Vector3) (st : State) :
  mouseInteractionState st <> none ->
  let st1 := animate props now pos st in
  let st2 := animate props' now' pos' (handlePointerUp st1) in
  morph st1 = morph st /\
  completed st1 = completed st /\
  mouseInteractionState st1 <> none /\
  attractorPosition <$> particles st1 = attractorPosition <$> particles st /\
  (instancedMesh st = true ->
   particles st <> [] ->
   isMorphing (morph st) = true ->
   duration (morph st) <= now' - startTime (morph st) ->
   isMorphing (morph st2) = false /\
   completed st2 = completed st ++ [direction (morph st)] /\
   Forall (snapped (direction (morph st))) (particles st2)).
Proof.
  intros Hmouse. cbv zeta.
  destruct (animate_pointer_active props now pos st Hmouse)
    as (Hm & Hc & Hstill & Hi & Ha).
  split; [exact Hm|]. split; [exact Hc|]. split; [exact Hstill|].
  split; [exact Ha|].
  intros Hmesh Hps Hmorph Hdur.
  destruct (animate_completes props' now' pos'
              (handlePointerUp (animate props now pos st)))
    as (E1 & E2 & E3); simpl.
  - rewrite Hi. exact Hmesh.
  - apply nonempty_length. rewrite animate_length.
    apply nonempty_length. exact Hps.
  - reflexivity.
  - rewrite Hm. exact Hmorph.
  - rewrite Hm. exact Hdur.
  - simpl in E1, E2, E3. rewrite Hm in E1, E2, E3. rewrite Hc in E2.
    split; [rewrite E1; reflexivity|]. split; [exact E2 | exact E3].
Qed.

Lemma C4_pointer_defers_completion_witness :
  mouseInteractionState pressedWhileMorphing <> none /\
  let st1 := animate defaultProps 4100 THREE.zero pressedWhileMorphing in
  morph st1 = morph pressedWhileMorphing /\
  completed st1 = completed pressedWhileMorphing.
Proof.
  split; [discriminate|].
  destruct (C4_pointer_defers_completion defaultProps defaultProps 4100 4200
              THREE.zero THREE.zero pressedWhileMorphing)
    as (Hm & Hc & _); [discriminate|].
  split; [exact Hm | exact Hc].
Defined.

(** C4 as stated fails: with the pointer pressed, the tick at time
    [4100] of a morph started at time [0] does no completion bookkeeping;
    the callback comes with the first tick after the release. *)
Lemma C4_counterexample :
  let st1 := animate defaultProps 4100 THREE.zero pressedWhileMorphing in
  let st2 := animate defaultProps 4200 THREE.zero (handlePointerUp st1) in
  mouseInteractionState pressedWhileMorphing = bursting /\
  duration (morph pressedWhileMorphing)
    <= 4100 - startTime (morph pressedWhileMorphing) /\
  isMorphing (morph st1) = true /\
  completed st1 = [] /\
  isMorphing (morph st2) = false /\
  completed st2 = [Some toTarget].
Proof.
  cbv zeta.
  set (st1 := animate defaultProps 4100 THREE.zero pressedWhileMorphing).
  destruct (animate_pointer_active defaultProps 4100 THREE.zero
              pressedWhileMorphing) as (Hm & Hc & _ & Hi & _); [discriminate|].
  fold st1 in Hm, Hc, Hi.
  destruct (animate_completes defaultProps 4200 THREE.zero
              (handlePointerUp st1)) as (E1 & E2 & _).
  - change (instancedMesh st1 = true). rewrite Hi. reflexivity.
  - change (particles st1 <> []). apply nonempty_length.
    unfold st1. rewrite animate_length. simpl. lia.
  - reflexivity.
  - change (isMorphing (morph st1) = true). rewrite Hm. reflexivity.
  - change (duration (morph st1) <= 4200 - startTime (morph st1)).
    rewrite Hm. simpl. lra.
  - change (morph (handlePointerUp st1)) with (morph st1) in E1, E2.
    change (completed (handlePointerUp st1)) with (completed st1) in E2.
    rewrite Hm in E1, E2. rewrite Hc in E2.
    split; [reflexivity|]. split; [simpl; lra|].
    rewrite Hm, Hc, E1, E2. repeat split; reflexivity.
Qed.

(** ** The damped spring of the integration loop

    One coordinate of a particle with a fixed attractor: [e n] is the
    offset from the attractor and [v n] the velocity after [n] ticks. *)

Section Spring.

Variables k d : R.

Hypothesis Hd : 0 < d < 1.
Hypothesis Hk : 0 < k.
Hypothesis Hkd : d * k < 2 * (1 + d).

Let tau := 1 + d - d * k.

Section Sequence.

Variables e v : nat -> R.

Hypothesis Hv : forall n, v (S n) = (v n + (0 - e n) * k) * d.
Hypothesis He : forall n, e (S n) = e n + v (S n).

Lemma spring_recurrence n : e (S (S n)) = tau * e (S n) - d * e n.
Proof.
  rewrite (He (S n)), (Hv (S n)).
  replace (v (S n)) with (e (S n) - e n) by (rewrite (He n); ring).
  unfold tau. ring.
Qed.

(** *** Oscillating case: the invariant quadratic form shrinks by [d] *)

Let Q n := e (S n) * e (S n) - tau * e (S n) * e n + d * (e n * e n).

Lemma Q_step n : Q (S n) = d * Q n.
Proof. unfold Q. rewrite spring_recurrence. ring. Qed.

Lemma Q_pow n : Q n = d ^ n * Q 0.
Proof.
  induction n as [|n IH]; simpl; [ring|].
  rewrite Q_step, IH. ring.
Qed.

Lemma Q_bound n : (4 * d - tau * tau) * (e n * e n) <= 4 * Q n.
Proof.
  unfold Q.
  pose proof (Rle_0_sqr (2 * e (S n) - tau * e n)) as H.
  unfold Rsqr in H. nra.
Qed.

Lemma decay_oscillating :
  tau * tau < 4 * d ->
  exists C, 0 <= C /\ forall n, Rabs (e n) <= C * sqrt d ^ n.
Proof.
  intros Hosc.
  set (K := 4 * Q 0 / (4 * d - tau * tau)).
  assert (HQ0 : 0 <= Q 0).
  { pose proof (Q_bound 0). pose proof (Rle_0_sqr (e 0%nat)) as H0.
    unfold Rsqr in H0. nra. }
  assert (HK : 0 <= K).
  { unfold K. apply Rmult_le_pos; [lra|].
    apply Rlt_le, Rinv_0_lt_compat. lra. }
  assert (Hsd : sqrt d * sqrt d = d) by (apply sqrt_sqrt; lra).
  assert (Hsd0 : 0 <= sqrt d) by apply sqrt_pos.
  exists (sqrt K). split; [apply sqrt_pos|].
  intros n.
  assert (Hpow : 0 <= sqrt d ^ n) by (apply pow_le; exact Hsd0).
  rewrite <- (Rabs_right (sqrt K * sqrt d ^ n)).
  2:{ apply Rle_ge, Rmult_le_pos; [apply sqrt_pos | exact Hpow]. }
  apply Rsqr_le_abs_0. unfold Rsqr.
  replace (sqrt K * sqrt d ^ n * (sqrt K * sqrt d ^ n))
    with ((sqrt K * sqrt K) * (sqrt d ^ n * sqrt d ^ n)) by ring.
  rewrite sqrt_sqrt by exact HK.
  rewrite <- Rpow_mult_distr, Hsd.
  pose proof (Q_bound n) as Hb. rewrite Q_pow in Hb.
  assert (Hdn : 0 <= d ^ n) by (apply pow_le; lra).
  unfold K.
  apply (Rmult_le_reg_l (4 * d - tau * tau)); [lra|].
  replace ((4 * d - tau * tau) * (4 * Q 0 / (4 * d - tau * tau) * d ^ n))
    with (4 * (d ^ n * Q 0)) by (field; lra).
  exact Hb.
Qed.

(** *** Overdamped case: two real roots inside the unit interval *)

Lemma decay_overdamped :
  4 * d <= tau * tau ->
  let s := sqrt (tau * tau - 4 * d) in
  let r0 := Rmax (Rabs ((tau + s) / 2)) (Rabs ((tau - s) / 2)) in
  r0 < 1 /\
  exists C, 0 <= C /\ forall n, Rabs (e n) <= C * ((1 + r0) / 2) ^ n.
Proof.
  intros Hreal s r0.
  assert (Hs0 : 0 <= s) by apply sqrt_pos.
  assert (Hss : s * s = tau * tau - 4 * d) by (apply sqrt_sqrt; lra).
  assert (Hdk : 0 < d * k) by (apply Rmult_lt_0_compat; lra).
  assert (Htau : - (1 + d) < tau < 1 + d) by (unfold tau; lra).
  assert (Hs1 : s < 2 - tau) by nra.
  assert (Hs2 : s < 2 + tau) by nra.
  set (l1 := (tau + s) / 2) in *. set (l2 := (tau - s) / 2) in *.
  assert (Hl1 : Rabs l1 < 1) by (apply Rabs_def1; unfold l1; lra).
  assert (Hl2 : Rabs l2 < 1) by (apply Rabs_def1; unfold l2; lra).
  assert (Hr0 : r0 < 1) by (unfold r0; apply Rmax_lub_lt; assumption).
  assert (Hr0pos : 0 <= r0).
  { unfold r0. eapply Rle_trans; [apply Rabs_pos | apply Rmax_l]. }
  split; [exact Hr0|].
  set (r := (1 + r0) / 2).
  assert (Hr : r0 < r < 1) by (unfold r; lra).
  set (u := fun n => e (S n) - l1 * e n).
  assert (Hu : forall n, u (S n) = l2 * u n).
  { intros n. unfold u. rewrite spring_recurrence.
    replace tau with (l1 + l2) by (unfold l1, l2; field).
    replace d with (l1 * l2) at 1 by (unfold l1, l2; nra).
    ring. }
  assert (Hun : forall n, Rabs (u n) <= Rabs (u 0%nat) * r0 ^ n).
  { induction n as [|n IH]; simpl; [lra|].
    rewrite Hu, Rabs_mult.
    assert (Rabs l2 <= r0) by (unfold r0; apply Rmax_r).
    pose proof (Rabs_pos l2). pose proof (Rabs_pos (u n)).
    assert (0 <= r0 ^ n) by (apply pow_le; exact Hr0pos).
    pose proof (Rabs_pos (u 0%nat)).
    nra. }
  set (C := Rabs (e 0%nat) + Rabs (u 0%nat) / (r - r0)).
  assert (HC0 : 0 <= Rabs (u 0%nat) / (r - r0)).
  { apply Rmult_le_pos; [apply Rabs_pos|].
    apply Rlt_le, Rinv_0_lt_compat. lra. }
  assert (HCu : Rabs (u 0%nat) <= C * (r - r0)).
  { unfold C. rewrite Rmult_plus_distr_r.
    replace (Rabs (u 0%nat) / (r - r0) * (r - r0)) with (Rabs (u 0%nat))
      by (field; lra).
    pose proof (Rabs_pos (e 0%nat)).
    assert (0 <= Rabs (e 0%nat) * (r - r0)) by (apply Rmult_le_pos; lra).
    lra. }
  exists C. split.
  { unfold C. pose proof (Rabs_pos (e 0%nat)). lra. }
  induction n as [|n IH]; simpl.
  - unfold C. lra.
  - replace (e (S n)) with (l1 * e n + u n) by (unfold u; ring).
    eapply Rle_trans; [apply Rabs_triang|]. rewrite Rabs_mult.
    assert (Rabs l1 <= r0) by (unfold r0; apply Rmax_l).
    pose proof (Hun n) as Hn.
    assert (Hpow : r0 ^ n <= r ^ n) by (apply pow_incr; lra).
    assert (0 <= r ^ n) by (apply pow_le; lra).
    assert (0 <= r0 ^ n) by (apply pow_le; lra).
    pose proof (Rabs_pos l1). pose proof (Rabs_pos (e n)).
    pose proof (Rabs_pos (u 0%nat)).
    assert (Rabs l1 * Rabs (e n) <= r0 * (C * r ^ n)).
    { apply Rmult_le_compat; assumption. }
    assert (Rabs (u 0%nat) * r0 ^ n <= Rabs (u 0%nat) * r ^ n).
    { apply Rmult_le_compat_l; assumption. }
    assert (Rabs (u 0%nat) * r ^ n <= C * (r - r0) * r ^ n).
    { apply Rmult_le_compat_r; assumption. }
    nra.
Qed.

End Sequence.

Lemma springRate_bounds : 0 < springRate k d < 1.
Proof.
  unfold springRate. fold tau.
  destruct (Rltb (tau * tau) (4 * d)) eqn:E.
  - assert (Hs : sqrt d * sqrt d = d) by (apply sqrt_sqrt; lra).
    assert (0 < sqrt d) by (apply sqrt_lt_R0; lra).
    split; [assumption | nra].
  - apply Rltb_false in E. cbv zeta.
    set (s := sqrt (tau * tau - 4 * d)).
    set (r0 := Rmax (Rabs ((tau + s) / 2)) (Rabs ((tau - s) / 2))).
    assert (Hs0 : 0 <= s) by apply sqrt_pos.
    assert (Hss : s * s = tau * tau - 4 * d) by (apply sqrt_sqrt; lra).
    assert (Hdk : 0 < d * k) by (apply Rmult_lt_0_compat; lra).
    assert (Htau : - (1 + d) < tau < 1 + d) by (unfold tau; lra).
    assert (Hs1 : s < 2 - tau) by nra.
    assert (Hs2 : s < 2 + tau) by nra.
    assert (Hr0 : r0 < 1).
    { unfold r0. apply Rmax_lub_lt; apply Rabs_def1; lra. }
    assert (Hr0pos : 0 <= r0).
    { unfold r0. eapply Rle_trans; [apply Rabs_pos | apply Rmax_l]. }
    lra.
Qed.

(** Every coordinate decays at the rate [springRate]. *)
Lemma spring_decay (e v : nat -> R) :
  (forall n, v (S n) = (v n + (0 - e n) * k) * d) ->
  (forall n, e (S n) = e n + v (S n)) ->
  exists C, 0 <= C /\
    forall n, Rabs (e n) <= C * springRate k d ^ n /\
              Rabs (v n) <= C * springRate k d ^ n.
Proof.
  intros Hv He.
  pose proof springRate_bounds as Hrate.
  assert (Hpos : exists C, 0 <= C /\
                   forall n, Rabs (e n) <= C * springRate k d ^ n).
  { unfold springRate. fold tau.
    destruct (Rltb (tau * tau) (4 * d)) eqn:E.
    - apply Rltb_true in E. apply (decay_oscillating e v Hv He E).
    - apply Rltb_false in E.
      destruct (decay_overdamped e v Hv He E) as [_ H]. exact H. }
  destruct Hpos as (C & HC & Hbound).
  set (r := springRate k d) in *.
  exists (Rabs (v 0%nat) + C * (1 + r) / r).
  assert (HC' : 0 <= C * (1 + r) / r).
  { apply Rmult_le_pos; [apply Rmult_le_pos; lra|].
    apply Rlt_le, Rinv_0_lt_compat. lra. }
  pose proof (Rabs_pos (v 0%nat)) as Hv0.
  assert (HCC : C <= C * (1 + r) / r).
  { apply (Rmult_le_reg_r r); [lra|].
    replace (C * (1 + r) / r * r) with (C * (1 + r)) by (field; lra). nra. }
  split; [lra|]. intros n.
  assert (Hrn : 0 <= r ^ n) by (apply pow_le; lra).
  split.
  - eapply Rle_trans; [apply Hbound|]. apply Rmult_le_compat_r; lra.
  - destruct n as [|n]; simpl; [lra|].
    replace (v (S n)) with (e (S n) - e n) by (rewrite (He n); ring).
    eapply Rle_trans; [apply Rabs_triang|]. rewrite Rabs_Ropp.
    pose proof (Hbound (S n)) as H1. pose proof (Hbound n) as H2.
    simpl in H1.
    assert (Hrn' : 0 <= r ^ n) by (apply pow_le; lra).
    replace ((Rabs (v 0%nat) + C * (1 + r) / r) * (r * r ^ n))
      with (Rabs (v 0%nat) * (r * r ^ n) + C * (1 + r) * r ^ n)
      by (field; lra).
    assert (0 <= Rabs (v 0%nat) * (r * r ^ n)).
    { apply Rmult_le_pos; [lra|]. apply Rmult_le_pos; lra. }
    nra.
Qed.

End Spring.

(** ** The durations are constants of the component *)

Lemma step_durations st e :
  duration (morph (step st e)) = duration (morph st) /\
  phaseOneDuration (morph (step st e)) = phaseOneDuration (morph st) /\
  phaseTwoDuration (morph (step st e)) = phaseTwoDuration (morph st).
Proof.
  destruct e; simpl.
  - unfold sourceLoaded.
    destruct (_ =? _)%nat; [auto|]. destruct (negb _); [auto|].
    destruct (morphState props), (isMorphing (morph st)); auto.
  - unfold targetLoaded. simpl. destruct (_ || _); [auto|].
    destruct (morphState props), (isMorphing (morph st)); auto.
  - unfold morphTrigger. destruct morphDirection; [|auto].
    destruct (targetParticleData st); [|auto].
    destruct (_ || _); auto.
  - auto.
  - auto.
  - destruct (animate_morph_cases props now pos st) as [[-> _]|(_ & -> & _)];
      auto.
Qed.

Lemma run_durations es : forall st,
  duration (morph (run st es)) = duration (morph st) /\
  phaseOneDuration (morph (run st es)) = phaseOneDuration (morph st) /\
  phaseTwoDuration (morph (run st es)) = phaseTwoDuration (morph st).
Proof.
  induction es as [|e es IH]; intros st; simpl; [auto|].
  destruct (IH (step st e)) as (-> & -> & ->). apply step_durations.
Qed.

(** In every state the component can reach, a morph lasts [4000] ms, in
    phases of [1300], [1300] and [1400] ms. *)
Lemma reachable_durations props es :
  let ms := morph (run (initialState props) es) in
  duration ms = 4000 /\ phaseOneDuration ms = 1300 /\
  phaseTwoDuration ms = 1300 /\
  duration ms - (phaseOneDuration ms + phaseTwoDuration ms) = 1400.
Proof.
  cbv zeta.
  destruct (run_durations es (initialState props)) as (-> & -> & ->).
  simpl. repeat split; lra.
Qed.

(** ** Ticks with no external forcing

    With the pointer released, no morph in flight, push and collisions
    disabled and the animated props settled on the props, a tick is the
    integration loop and nothing else. *)
Lemma mathLerp_same a t : THREE.mathLerp a a t = a.
Proof. unfold THREE.mathLerp. ring. Qed.

Lemma animate_unforced props now pos st :
  instancedMesh st = true ->
  particles st <> [] ->
  mouseInteractionState st = none ->
  isMorphing (morph st) = false ->
  enablePushForce props = false ->
  enableCollisions props = false ->
  animatedForce st = force props ->
  animatedAppearance st = appearance props ->
  animate props now pos st =
  set_particles st
    (map (integrateParticle (returnStrength (force props))
            (damping (force props))) (particles st)).
Proof.
  intros Hmesh Hps Hmouse Hmorph Hpush Hcoll Hforce Happ.
  assert (Ef : tickForce props st = force props).
  { unfold tickForce, animateForce. rewrite Hforce.
    rewrite !mathLerp_same. destruct (force props); reflexivity. }
  assert (Ea : tickAppearance props st = appearance props).
  { unfold tickAppearance, animateAppearance. rewrite Happ.
    rewrite !mathLerp_same. destruct (appearance props); reflexivity. }
  assert (Ev : vibrancyStage props st = particles st).
  { unfold vibrancyStage. rewrite Ea, Happ.
    rewrite (proj2 (Rltb_false _ _)); [reflexivity|].
    rewrite Rminus_diag, Rabs_R0. lra. }
  unfold animate. rewrite Hmesh, Hmouse, Ev, Ef, Ea.
  replace (length (particles st) =? 0)%nat with false.
  2:{ destruct (particles st); [contradiction | reflexivity]. }
  simpl. unfold morphStage. rewrite Hmorph.
  unfold forceStage. rewrite Hpush, Hcoll. simpl.
  unfold set_particles. rewrite <- Hmouse, <- Hforce, <- Happ, Hmesh.
  reflexivity.
Qed.

(** Any number of such ticks iterate the integration loop on each
    particle. *)
Lemma run_unforced props (ticks : list (R * Vector3)) : forall st,
  instancedMesh st = true ->
  particles st <> [] ->
  mouseInteractionState st = none ->
  isMorphing (morph st) = false ->
  enablePushForce props = false ->
  enableCollisions props = false ->
  animatedForce st = force props ->
  animatedAppearance st = appearance props ->
  particles (run st (map (fun t => Tick props t.1 t.2) ticks)) =
  map (Nat.iter (length ticks)
         (integrateParticle (returnStrength (force props))
            (damping (force props)))) (particles st).
Proof.
  induction ticks as [|[now pos] ticks IH];
    intros st Hmesh Hps Hmouse Hmorph Hpush Hcoll Hforce Happ; simpl.
  - symmetry. apply map_id.
  - rewrite animate_unforced by assumption.
    rewrite IH; try assumption.
    + simpl. rewrite map_map. apply map_ext. intros p.
      clear. induction (length ticks) as [|n IHn]; simpl; [reflexivity|].
      rewrite IHn. reflexivity.
    + simpl. destruct (particles st); [contradiction | discriminate].
Qed.

(** ** A particle under the integration loop alone *)

Lemma iter_integrate_attractor returnStrength damping p n :
  attractorPosition (Nat.iter n (integrateParticle returnStrength damping) p)
  = attractorPosition p.
Proof. induction n as [|n IH]; simpl; [reflexivity | exact IH]. Qed.

Lemma distanceTo_le_sum (a b : Vector3) :
  THREE.distanceTo a b
  <= Rabs (THREE.x a - THREE.x b) + Rabs (THREE.y a - THREE.y b)
     + Rabs (THREE.z a - THREE.z b).
Proof.
  unfold THREE.distanceTo, THREE.distanceToSquared. cbv zeta.
  set (u := THREE.x a - THREE.x b). set (v := THREE.y a - THREE.y b).
  set (w := THREE.z a - THREE.z b).
  pose proof (Rabs_pos u). pose proof (Rabs_pos v). pose proof (Rabs_pos w).
  assert (Hu : Rabs u * Rabs u = u * u)
    by (rewrite <- Rabs_mult; apply Rabs_right; nra).
  assert (Hv : Rabs v * Rabs v = v * v)
    by (rewrite <- Rabs_mult; apply Rabs_right; nra).
  assert (Hw : Rabs w * Rabs w = w * w)
    by (rewrite <- Rabs_mult; apply Rabs_right; nra).
  rewrite <- (sqrt_mult_self (Rabs u + Rabs v + Rabs w)) by lra.
  apply sqrt_le_1_alt. nra.
Qed.

Lemma length_le_sum (a : Vector3) :
  THREE.length a <= Rabs (THREE.x a) + Rabs (THREE.y a) + Rabs (THREE.z a).
Proof.
  pose proof (distanceTo_le_sum a THREE.zero) as H.
  unfold THREE.distanceTo, THREE.distanceToSquared in H. simpl in H.
  rewrite !Rminus_0_r in H. exact H.
Qed.

Lemma distanceTo_particleB_attractor :
  THREE.distanceTo (currentPosition particleB) (attractorPosition particleB)
  = 1.
Proof.
  unfold THREE.distanceTo, THREE.distanceToSquared; simpl.
  replace ((1 - 0) * (1 - 0) + (0 - 0) * (0 - 0) + (0 - 0) * (0 - 0))
    with 1 by ring.
  apply sqrt_1.
Qed.

(** C9 (as amended): with [0 < damping < 1], [returnStrength > 0] and
    [damping * returnStrength < 2 * (1 + damping)] (every
    [returnStrength] in [(0, 4]] qualifies), a particle with a fixed
    attractor, under the integration loop alone and from any position and
    velocity, has its speed and its distance to the attractor bounded by a
    geometric sequence [C * rho^n] with [rho < 1]; hence for every
    [eps > 0] the distance stays below [eps] from some tick on.  (By
    [run_unforced], ticks with no external forcing iterate exactly this
    loop.) *)
Theorem C9_spring_converges (returnStrength damping : R) (p : Particle) :
  0 < damping < 1 ->
  0 < returnStrength ->
  damping * returnStrength < 2 * (1 + damping) ->
  let after n := Nat.iter n (integrateParticle returnStrength damping) p in
  let rho := springRate returnStrength damping in
  0 < rho < 1 /\
  (exists C, forall n,
     THREE.length (velocity (after n)) <= C * rho ^ n /\
     THREE.distanceTo (currentPosition (after n)) (attractorPosition p)
       <= C * rho ^ n) /\
  (forall eps, 0 < eps ->
     exists N, forall n, (N <= n)%nat ->
       THREE.distanceTo (currentPosition (after n)) (attractorPosition p)
         < eps).
Proof.
  intros Hd Hk Hkd after rho.
  pose proof (springRate_bounds returnStrength damping Hd Hk Hkd) as Hrho.
  fold rho in Hrho.
  assert (Hstep : forall n, after (S n)
                  = integrateParticle returnStrength damping (after n))
    by reflexivity.
  assert (Hattr : forall n, attractorPosition (after n) = attractorPosition p)
    by (intros n; apply iter_integrate_attractor).
  destruct (spring_decay returnStrength damping Hd Hk Hkd
              (fun n => THREE.x (currentPosition (after n))
                        - THREE.x (attractorPosition p))
              (fun n => THREE.x (velocity (after n))))
    as (Cx & HCx & Hx).
  { intros n. rewrite Hstep. simpl. rewrite Hattr. ring. }
  { intros n. rewrite Hstep. simpl. rewrite Hattr. ring. }
  destruct (spring_decay returnStrength damping Hd Hk Hkd
              (fun n => THREE.y (currentPosition (after n))
                        - THREE.y (attractorPosition p))
              (fun n => THREE.y (velocity (after n))))
    as (Cy & HCy & Hy).
  { intros n. rewrite Hstep. simpl. rewrite Hattr. ring. }
  { intros n. rewrite Hstep. simpl. rewrite Hattr. ring. }
  destruct (spring_decay returnStrength damping Hd Hk Hkd
              (fun n => THREE.z (currentPosition (after n))
                        - THREE.z (attractorPosition p))
              (fun n => THREE.z (velocity (after n))))
    as (Cz & HCz & Hz).
  { intros n. rewrite Hstep. simpl. rewrite Hattr. ring. }
  { intros n. rewrite Hstep. simpl. rewrite Hattr. ring. }
  fold rho in Hx, Hy, Hz.
  set (C := Cx + Cy + Cz).
  assert (Hbound : forall n,
             THREE.length (velocity (after n)) <= C * rho ^ n /\
             THREE.distanceTo (currentPosition (after n)) (attractorPosition p)
               <= C * rho ^ n).
  { intros n.
    destruct (Hx n) as [Hx1 Hx2], (Hy n) as [Hy1 Hy2], (Hz n) as [Hz1 Hz2].
    cbv beta in Hx1, Hx2, Hy1, Hy2, Hz1, Hz2.
    unfold C. split.
    - eapply Rle_trans; [apply length_le_sum|]. lra.
    - eapply Rle_trans; [apply distanceTo_le_sum|]. lra. }
  split; [exact Hrho|]. split; [exists C; exact Hbound|].
  intros eps Heps.
  assert (HC : 0 <= C) by (unfold C; lra).
  destruct (pow_lt_1_zero rho) with (y := eps / (C + 1)) as [N HN].
  { rewrite Rabs_right; lra. }
  { apply Rdiv_lt_0_compat; lra. }
  exists N. intros n Hn.
  destruct (Hbound n) as [_ Hdist].
  eapply Rle_lt_trans; [exact Hdist|].
  assert (Hpow : rho ^ n < eps / (C + 1)).
  { eapply Rle_lt_trans; [apply Rle_abs|]. apply HN. lia. }
  assert (Hrn : 0 <= rho ^ n) by (apply pow_le; lra).
  apply (Rmult_lt_reg_r (/ (C + 1))).
  { apply Rinv_0_lt_compat. lra. }
  apply Rle_lt_trans with (rho ^ n); [|exact Hpow].
  apply (Rmult_le_reg_r (C + 1)); [lra|].
  rewrite Rmult_assoc, Rinv_l by lra. nra.
Qed.

Lemma C9_spring_converges_witness :
  0 < 92/100 < 1 /\ 0 < 2/100 /\ 92/100 * (2/100) < 2 * (1 + 92/100) /\
  exists N, forall n, (N <= n)%nat ->
    THREE.distanceTo
      (currentPosition
         (Nat.iter n (integrateParticle (2/100) (92/100)) particleB))
      (attractorPosition particleB) < 1/100.
Proof.
  split; [lra|]. split; [lra|]. split; [lra|].
  apply (C9_spring_converges (2/100) (92/100) particleB); lra.
Defined.

(** C9 as stated fails: with [damping = 0.92 < 1] and
    [returnStrength = 0] (the lower end of its range), a particle released
    at rest one unit away from its attractor never moves, so its distance
    to the attractor never comes within [1/2]. *)
Lemma C9_counterexample :
  92/100 < 1 /\
  velocity particleB = THREE.zero /\
  ~ (exists N, forall n, (N <= n)%nat ->
       THREE.distanceTo
         (currentPosition
            (Nat.iter n (integrateParticle 0 (92/100)) particleB))
         (attractorPosition particleB) < 1/2).
Proof.
  split; [lra|]. split; [reflexivity|].
  assert (Hfix : forall n,
             Nat.iter n (integrateParticle 0 (92/100)) particleB = particleB).
  { induction n as [|n IH]; simpl; [reflexivity|]. rewrite IH.
    unfold integrateParticle, particleB, particleAt, set_velocity,
      set_currentPosition; simpl.
    f_equal; apply Vector3_eq; simpl; ring. }
  intros [N HN]. specialize (HN N (Nat.le_refl N)).
  rewrite Hfix, distanceTo_particleB_attractor in HN. lra.
Qed.

(** * Further properties *)

(** ** The easing curve *)

Lemma easeInOutCubic_low t : t < 1/2 -> easeInOutCubic t = 4 * t * t * t.
Proof.
  intros H. unfold easeInOutCubic. rewrite (proj2 (Rltb_true _ _) H).
  reflexivity.
Qed.

Lemma easeInOutCubic_high t :
  1/2 <= t ->
  easeInOutCubic t = 1 - (2 - 2 * t) * (2 - 2 * t) * (2 - 2 * t) / 2.
Proof.
  intros H. unfold easeInOutCubic. rewrite (proj2 (Rltb_false _ _) H).
  simpl. field.
Qed.

Lemma easeInOutCubic_0 : easeInOutCubic 0 = 0.
Proof. rewrite easeInOutCubic_low by lra. ring. Qed.

Lemma easeInOutCubic_1 : easeInOutCubic 1 = 1.
Proof. rewrite easeInOutCubic_high by lra. field. Qed.

Lemma cube_monotone (a b : R) : a <= b -> a * a * a <= b * b * b.
Proof.
  intros H.
  assert (E : b * b * b - a * a * a
              = (b - a) * ((a + b / 2) * (a + b / 2) + 3 / 4 * (b * b)))
    by field.
  assert (0 <= (a + b / 2) * (a + b / 2) + 3 / 4 * (b * b)) by nra.
  assert (0 <= (b - a) * ((a + b / 2) * (a + b / 2) + 3 / 4 * (b * b)))
    by (apply Rmult_le_pos; lra).
  lra.
Qed.

(** The easing curve of the morph starts at [0], ends at [1], never
    decreases, and so keeps every progress in [[0, 1]] inside [[0, 1]]. *)
Theorem easeInOutCubic_monotone (a b : R) :
  a <= b ->
  easeInOutCubic a <= easeInOutCubic b /\
  (0 <= a -> b <= 1 ->
   0 <= easeInOutCubic a /\ easeInOutCubic b <= 1).
Proof.
  intros Hab.
  assert (Hmono : forall u v, u <= v -> easeInOutCubic u <= easeInOutCubic v).
  { intros u v Huv.
    destruct (Rlt_le_dec u (1/2)) as [Hu|Hu];
      destruct (Rlt_le_dec v (1/2)) as [Hv|Hv].
    - rewrite !easeInOutCubic_low by assumption.
      pose proof (cube_monotone u v Huv). lra.
    - rewrite easeInOutCubic_low, easeInOutCubic_high by assumption.
      pose proof (cube_monotone u (1/2)). 
      pose proof (cube_monotone (2 - 2 * v) 1). lra.
    - lra.
    - rewrite !easeInOutCubic_high by assumption.
      pose proof (cube_monotone (2 - 2 * v) (2 - 2 * u)). lra. }
  split; [apply Hmono; exact Hab|].
  intros Ha Hb. split.
  - rewrite <- easeInOutCubic_0. apply Hmono. exact Ha.
  - rewrite <- easeInOutCubic_1. apply Hmono. exact Hb.
Qed.

Lemma easeInOutCubic_monotone_witness :
  1/4 <= 3/4 /\ easeInOutCubic (1/4) <= easeInOutCubic (3/4).
Proof.
  split; [lra|]. apply (easeInOutCubic_monotone (1/4) (3/4)). lra.
Defined.

(** The curve is symmetric about its midpoint: easing out mirrors easing
    in. *)
Theorem easeInOutCubic_symmetric (t : R) :
  easeInOutCubic (1 - t) = 1 - easeInOutCubic t.
Proof.
  destruct (Rtotal_order t (1/2)) as [H|[H|H]].
  - rewrite (easeInOutCubic_low t) by exact H.
    rewrite (easeInOutCubic_high (1 - t)) by lra. field.
  - subst t. rewrite !easeInOutCubic_high by lra. field.
  - rewrite (easeInOutCubic_high t) by lra.
    rewrite (easeInOutCubic_low (1 - t)) by lra. field.
Qed.

(** ** The morph in progress *)

Lemma Color_eq (a b : Color) :
  THREE.r a = THREE.r b -> THREE.g a = THREE.g b -> THREE.b a = THREE.b b ->
  a = b.
Proof. destruct a, b; simpl; intros; subst; reflexivity. Qed.

Lemma lerpVectors_0 a b : THREE.lerpVectors a b 0 = a.
Proof. apply Vector3_eq; simpl; ring. Qed.

Lemma colorLerp_0 a b : THREE.colorLerp a b 0 = a.
Proof. apply Color_eq; simpl; ring. Qed.

Lemma zero_div a : 0 / a = 0.
Proof. unfold Rdiv. apply Rmult_0_l. Qed.

Lemma length_setFromSphericalCoords radius phi theta :
  THREE.length (THREE.setFromSphericalCoords radius phi theta) = Rabs radius.
Proof.
  unfold THREE.length, THREE.lengthSq, THREE.dot; simpl.
  rewrite <- sqrt_Rsqr_abs. f_equal. unfold Rsqr.
  pose proof (sin2_cos2 phi) as Hp. pose proof (sin2_cos2 theta) as Ht.
  unfold Rsqr in Hp, Ht.
  set (sp := sin phi) in *. set (cp := cos phi) in *.
  set (st := sin theta) in *. set (ct := cos theta) in *.
  transitivity (radius * radius
                * (sp * sp * (st * st + ct * ct) + cp * cp)); [ring|].
  rewrite Ht. replace (sp * sp * 1 + cp * cp) with (sp * sp + cp * cp) by ring.
  rewrite Hp. ring.
Qed.

Lemma length_spherePos n i : THREE.length (spherePos n i) = 180.
Proof.
  unfold spherePos. rewrite length_setFromSphericalCoords.
  apply Rabs_right. lra.
Qed.

Section MorphParticle.

Variables (ms : MorphState) (n i : nat) (p : Particle).

Hypothesis Hdur : duration ms = 4000.
Hypothesis Hone : phaseOneDuration ms = 1300.
Hypothesis Htwo : phaseTwoDuration ms = 1300.

Lemma morphParticle_start :
  attractorPosition (morphParticle ms 0 n i p)
    = departurePosition (direction ms) p /\
  currentColor (morphParticle ms 0 n i p) = departureColor (direction ms) p.
Proof.
  unfold morphParticle. rewrite Hone, Hdur, !zero_div.
  rewrite (proj2 (Rltb_true 0 1300)) by lra.
  rewrite easeInOutCubic_0. simpl.
  rewrite lerpVectors_0, colorLerp_0.
  destruct (direction ms) as [[|]|]; split; reflexivity.
Qed.

Lemma morphParticle_burst :
  attractorPosition (morphParticle ms 1300 n i p) = burstPosition p.
Proof.
  unfold morphParticle. rewrite Hone, Htwo.
  rewrite (proj2 (Rltb_false 1300 1300)) by lra.
  rewrite (proj2 (Rltb_true 1300 (1300 + 1300))) by lra.
  replace (1300 - 1300) with 0 by ring.
  rewrite zero_div, easeInOutCubic_0. simpl.
  apply lerpVectors_0.
Qed.

Lemma morphParticle_sphere :
  attractorPosition (morphParticle ms 2600 n i p) = spherePos n i.
Proof.
  unfold morphParticle. rewrite Hone, Htwo, Hdur.
  rewrite (proj2 (Rltb_false 2600 1300)) by lra.
  rewrite (proj2 (Rltb_false 2600 (1300 + 1300))) by lra.
  replace (2600 - (1300 + 1300)) with 0 by ring.
  rewrite zero_div, easeInOutCubic_0, Rmult_0_l, sin_0, Rmult_0_r.
  cbv zeta. fold (spherePos n i).
  set (perp := if Rltb _ _ then _ else _).
  simpl. rewrite lerpVectors_0.
  apply Vector3_eq; simpl; ring.
Qed.

End MorphParticle.

Lemma static_fields p q :
  static p = static q ->
  id p = id q /\
  sourcePosition p = sourcePosition q /\
  targetPosition p = targetPosition q /\
  currentColor p = currentColor q /\
  sourceColor p = sourceColor q /\
  targetColor p = targetColor q /\
  sourceBaseColor p = sourceBaseColor q /\
  targetBaseColor p = targetBaseColor q /\
  attractorPosition p = attractorPosition q /\
  burstPosition p = burstPosition q /\
  sphereTargetPosition p = sphereTargetPosition q /\
  mouseBurstPosition p = mouseBurstPosition q.
Proof.
  destruct p, q. unfold static; simpl. intros H. injection H as -> -> ->.
  intros. subst. repeat split; reflexivity.
Qed.

Lemma static_lookup (ps qs : list Particle) i q :
  static <$> qs = static <$> ps ->
  qs !! i = Some q ->
  exists p, ps !! i = Some p /\ static q = static p.
Proof.
  intros H Hq.
  assert (E : (static <$> ps) !! i = Some (static q))
    by (rewrite <- H, list_lookup_fmap, Hq; reflexivity).
  rewrite list_lookup_fmap in E.
  destruct (ps !! i) as [p|]; [|discriminate].
  exists p. split; [reflexivity|]. simpl in E. congruence.
Qed.

(** The particles of a tick that finds the morph in flight, before its
    end: each one is, up to position and velocity, the result of the
    in-progress branch. *)
Lemma animate_morphing_lookup props now pos st i q :
  instancedMesh st = true ->
  particles st <> [] ->
  mouseInteractionState st = none ->
  isMorphing (morph st) = true ->
  now - startTime (morph st) < duration (morph st) ->
  particles (animate props now pos st) !! i = Some q ->
  exists p,
    vibrancyStage props st !! i = Some p /\
    static q =
    static (morphParticle (morph st) (now - startTime (morph st))
              (length (particles st)) i p).
Proof.
  intros Hmesh Hps Hmouse Hmorph Hearly Hq.
  unfold animate in Hq. rewrite Hmesh, Hmouse in Hq.
  replace (length (particles st) =? 0)%nat with false in Hq.
  2:{ destruct (particles st); [contradiction | reflexivity]. }
  simpl in Hq. unfold morphStage in Hq. rewrite Hmorph in Hq.
  rewrite (proj2 (Rleb_false _ _) Hearly) in Hq. simpl in Hq.
  destruct (static_lookup _ _ i q (static_forceStage _ _ _ _ _) Hq)
    as (p' & Hp' & Hs).
  rewrite list_lookup_imap in Hp'.
  destruct (vibrancyStage props st !! i) as [p|] eqn:E; [|discriminate].
  simpl in Hp'. injection Hp' as <-.
  exists p. split; [reflexivity|].
  rewrite vibrancyStage_length in Hs. exact Hs.
Qed.

Lemma refreshVibrancy_homes ms morphing v p :
  sourcePosition (refreshVibrancy ms morphing v p) = sourcePosition p /\
  targetPosition (refreshVibrancy ms morphing v p) = targetPosition p /\
  burstPosition (refreshVibrancy ms morphing v p) = burstPosition p.
Proof. destruct ms, morphing; repeat split; reflexivity. Qed.

(** The in-progress branch writes the attractor and the current colour
    only. *)
Lemma morphParticle_homes ms e n i p :
  let q := morphParticle ms e n i p in
  id q = id p /\
  sourcePosition q = sourcePosition p /\
  targetPosition q = targetPosition p /\
  sourceColor q = sourceColor p /\
  targetColor q = targetColor p /\
  burstPosition q = burstPosition p /\
  currentPosition q = currentPosition p /\
  velocity q = velocity p.
Proof.
  cbv zeta. unfold morphParticle.
  repeat match goal with |- context [if Rltb ?a ?b then _ else _] =>
           destruct (Rltb a b) end;
    repeat split; reflexivity.
Qed.

(** The scripted path passes through its waypoints: a tick, with no
    pointer interaction, of a morph that started exactly [0], [1300] or
    [2600] ms before leaves every attractor on, respectively, the home
    position of the role the morph leaves (and the colour on that role's
    colour), the particle's burst position, and its waypoint on the
    sphere of radius [180]. *)
Theorem morph_waypoints (props : Props) (now : R) (pos : Vector3)
    (st : State) (i : nat) (q : Particle) :
  instancedMesh st = true ->
  particles st <> [] ->
  mouseInteractionState st = none ->
  isMorphing (morph st) = true ->
  duration (morph st) = 4000 ->
  phaseOneDuration (morph st) = 1300 ->
  phaseTwoDuration (morph st) = 1300 ->
  particles (animate props now pos st) !! i = Some q ->
  let elapsedTime := now - startTime (morph st) in
  let d := direction (morph st) in
  (elapsedTime = 0 ->
     attractorPosition q = departurePosition d q /\
     currentColor q = departureColor d q) /\
  (elapsedTime = 1300 -> attractorPosition q = burstPosition q) /\
  (elapsedTime = 2600 ->
     attractorPosition q = spherePos (length (particles st)) i /\
     THREE.length (attractorPosition q) = 180).
Proof.
  intros Hmesh Hps Hmouse Hmorph Hdur Hone Htwo Hq elapsedTime d.
  assert (Hin : elapsedTime < 4000 ->
                exists p,
                  static q =
                  static (morphParticle (morph st) elapsedTime
                            (length (particles st)) i p)).
  { intros He.
    destruct (animate_morphing_lookup props now pos st i q)
      as (p & _ & Hs); try assumption.
    - rewrite Hdur. exact He.
    - exists p. exact Hs. }
  split; [|split]; intros He.
  - destruct Hin as (p & Hs); [lra|]. rewrite He in Hs.
    apply static_fields in Hs
      as (_ & Hsp & Htp & Hcc & Hsc & Htc & _ & _ & Hap & _).
    destruct (morphParticle_start (morph st) (length (particles st)) i p
                Hdur Hone) as [Ea Ec].
    rewrite Hap, Ea, Hcc, Ec. unfold d.
    assert (Ed : departurePosition (direction (morph st)) q
                 = departurePosition (direction (morph st)) p).
    { unfold departurePosition.
      destruct (morphParticle_homes (morph st) 0 (length (particles st)) i p)
        as (_ & Hs' & Ht' & _).
      destruct (direction (morph st)) as [[|]|]; congruence. }
    assert (Ek : departureColor (direction (morph st)) q
                 = departureColor (direction (morph st)) p).
    { unfold departureColor.
      destruct (morphParticle_homes (morph st) 0 (length (particles st)) i p)
        as (_ & _ & _ & Hs' & Ht' & _).
      destruct (direction (morph st)) as [[|]|]; congruence. }
    rewrite Ed, Ek. split; reflexivity.
  - destruct Hin as (p & Hs); [lra|]. rewrite He in Hs.
    apply static_fields in Hs
      as (_ & _ & _ & _ & _ & _ & _ & _ & Hap & Hbp & _).
    rewrite Hap, Hbp.
    rewrite (morphParticle_burst (morph st) (length (particles st)) i p
               Hone Htwo).
    symmetry.
    apply (morphParticle_homes (morph st) 1300 (length (particles st)) i p).
  - destruct Hin as (p & Hs); [lra|]. rewrite He in Hs.
    apply static_fields in Hs
      as (_ & _ & _ & _ & _ & _ & _ & _ & Hap & _).
    rewrite Hap.
    rewrite (morphParticle_sphere (morph st) (length (particles st)) i p
               Hdur Hone Htwo).
    split; [reflexivity | apply length_spherePos].
Qed.

Lemma morph_waypoints_witness :
  let st := morphingPair in
  let st' := animate defaultProps 1300 THREE.zero st in
  instancedMesh st = true /\
  particles st <> [] /\
  mouseInteractionState st = none /\
  isMorphing (morph st) = true /\
  duration (morph st) = 4000 /\
  phaseOneDuration (morph st) = 1300 /\
  phaseTwoDuration (morph st) = 1300 /\
  1300 - startTime (morph st) = 1300 /\
  exists q, particles st' !! 0%nat = Some q /\
            attractorPosition q = burstPosition q.
Proof.
  cbv zeta.
  assert (H1 : instancedMesh morphingPair = true) by reflexivity.
  assert (H2 : particles morphingPair <> []) by discriminate.
  assert (H3 : mouseInteractionState morphingPair = none) by reflexivity.
  assert (H4 : isMorphing (morph morphingPair) = true) by reflexivity.
  assert (H5 : duration (morph morphingPair) = 4000) by reflexivity.
  assert (H6 : phaseOneDuration (morph morphingPair) = 1300) by reflexivity.
  assert (H7 : phaseTwoDuration (morph morphingPair) = 1300) by reflexivity.
  assert (H8 : 1300 - startTime (morph morphingPair) = 1300)
    by (simpl; lra).
  repeat (split; [assumption|]).
  assert (L : length (particles (animate defaultProps 1300 THREE.zero
                                   morphingPair)) = 2%nat)
    by (rewrite animate_length; reflexivity).
  destruct (particles (animate defaultProps 1300 THREE.zero morphingPair))
    as [|q l] eqn:E; [discriminate|].
  exists q. split; [reflexivity|].
  assert (Hq : particles (animate defaultProps 1300 THREE.zero morphingPair)
               !! 0%nat = Some q) by (rewrite E; reflexivity).
  exact (proj1 (proj2 (morph_waypoints defaultProps 1300 THREE.zero
                         morphingPair 0 q H1 H2 H3 H4 H5 H6 H7 Hq)) H8).
Defined.

(** ** Collisions: what a resolution conserves *)

Ltac vec :=
  apply Vector3_eq; simpl; try lra; try ring.

Lemma add_comm a b : THREE.add a b = THREE.add b a.
Proof. vec. Qed.

Lemma add_assoc a b c :
  THREE.add a (THREE.add b c) = THREE.add (THREE.add a b) c.
Proof. vec. Qed.

(** Replacing the entry [x] of index [i] by [y] moves the sum by
    [f y - f x]. *)
Lemma vsum_insert f (l : list Particle) i x y :
  l !! i = Some x ->
  THREE.add (vsum f (<[i := y]> l)) (f x) = THREE.add (vsum f l) (f y).
Proof.
  revert i. induction l as [|a l IH]; intros [|i] H; simpl in *;
    try discriminate.
  - injection H as ->. vec.
  - specialize (IH i H).
    assert (Hx := f_equal THREE.x IH).
    assert (Hy := f_equal THREE.y IH).
    assert (Hz := f_equal THREE.z IH).
    simpl in Hx, Hy, Hz. vec.
Qed.

(** A resolution moves the two velocities, and the two positions, by
    opposite amounts. *)
Lemma resolvePair_sums collisionDist p1 p2 :
  let q := resolvePair collisionDist p1 p2 in
  THREE.add (velocity q.1) (velocity q.2)
  = THREE.add (velocity p1) (velocity p2) /\
  THREE.add (currentPosition q.1) (currentPosition q.2)
  = THREE.add (currentPosition p1) (currentPosition p2).
Proof.
  cbv zeta. unfold resolvePair.
  destruct (_ <=? _)%nat; [split; reflexivity|].
  destruct (_ && _); [|split; reflexivity].
  cbv zeta.
  match goal with |- context [Rltb 0 ?v] => destruct (Rltb 0 v) end;
    simpl; split; vec.
Qed.

Lemma vsum_collideStep f collisionDist i store j :
  (forall p1 p2,
     let q := resolvePair collisionDist p1 p2 in
     THREE.add (f q.1) (f q.2) = THREE.add (f p1) (f p2)) ->
  vsum f (collideStep collisionDist i store j) = vsum f store.
Proof.
  intros Hf. unfold collideStep.
  destruct (store !! i) as [p1|] eqn:E1; [|reflexivity].
  destruct (store !! j) as [p2|] eqn:E2; [|reflexivity].
  destruct (decide (i = j)) as [->|Hij].
  - assert (p1 = p2) as -> by congruence.
    rewrite resolvePair_self.
    rewrite !(list_insert_id store j p2 E2). reflexivity.
  - specialize (Hf p1 p2). cbv zeta in Hf.
    destruct (resolvePair collisionDist p1 p2) as [q1 q2]. simpl in Hf.
    assert (E1' : <[j := q2]> store !! i = Some p1)
      by (rewrite list_lookup_insert_ne by congruence; exact E1).
    pose proof (vsum_insert f _ i p1 q1 E1') as H1.
    pose proof (vsum_insert f _ j p2 q2 E2) as H2.
    assert (Hx := f_equal THREE.x Hf). assert (Hy := f_equal THREE.y Hf).
    assert (Hz := f_equal THREE.z Hf).
    assert (H1x := f_equal THREE.x H1). assert (H1y := f_equal THREE.y H1).
    assert (H1z := f_equal THREE.z H1).
    assert (H2x := f_equal THREE.x H2). assert (H2y := f_equal THREE.y H2).
    assert (H2z := f_equal THREE.z H2).
    simpl in *. vec.
Qed.

Lemma vsum_foldl {B} f (stepf : list Particle -> B -> list Particle)
    (l : list B) :
  (forall store b, vsum f (stepf store b) = vsum f store) ->
  forall store, vsum f (foldl stepf store l) = vsum f store.
Proof.
  intros Hstep. induction l as [|b l IH]; intros store; simpl; [reflexivity|].
  rewrite IH. apply Hstep.
Qed.

(** Collision handling conserves the total momentum and the centre of
    mass of the cloud: whatever the particles and the size, the sum of
    the velocities and the sum of the positions are the same before and
    after [handleCollisions]. *)
Theorem handleCollisions_conserves (ps : list Particle) (particleSize : R) :
  vsum velocity (handleCollisions ps particleSize) = vsum velocity ps /\
  vsum currentPosition (handleCollisions ps particleSize)
  = vsum currentPosition ps.
Proof.
  assert (H : forall f : Particle -> Vector3,
            (forall collisionDist p1 p2,
               let q := resolvePair collisionDist p1 p2 in
               THREE.add (f q.1) (f q.2) = THREE.add (f p1) (f p2)) ->
            vsum f (handleCollisions ps particleSize) = vsum f ps).
  { intros f Hf. unfold handleCollisions. destruct (_ || _); [reflexivity|].
    cbv zeta. apply vsum_foldl. intros store i.
    unfold collideParticle. destruct (store !! i); [|reflexivity].
    apply vsum_foldl. intros st o. cbv beta.
    destruct (buildGrid _ _ !! _); [|reflexivity].
    apply vsum_foldl. intros st' j. apply vsum_collideStep. apply Hf. }
  split; apply H; intros cd p1 p2; apply (resolvePair_sums cd p1 p2).
Qed.

(** The connecting normal of two particles at a positive distance is a
    unit vector. *)
Lemma unit_normal (a b : Vector3) :
  0 < THREE.distanceToSquared a b ->
  let n := THREE.multiplyScalar (THREE.sub a b)
             (1 / sqrt (THREE.distanceToSquared a b)) in
  THREE.dot n n = 1.
Proof.
  intros Hpos. cbv zeta.
  pose proof (sqrt_lt_R0 _ Hpos) as Hd.
  pose proof (sqrt_sqrt _ (Rlt_le _ _ Hpos)) as Hdd.
  revert Hd Hdd. generalize (sqrt (THREE.distanceToSquared a b)).
  intros d Hd Hdd.
  unfold THREE.distanceToSquared in Hdd. cbv zeta in Hdd.
  unfold THREE.dot, THREE.multiplyScalar, THREE.sub. simpl.
  set (ax := THREE.x a - THREE.x b) in *.
  set (ay := THREE.y a - THREE.y b) in *.
  set (az := THREE.z a - THREE.z b) in *.
  transitivity ((ax * ax + ay * ay + az * az) / (d * d)).
  - field. lra.
  - rewrite Hdd. field.
    intros H0. rewrite H0 in Hdd. nra.
Qed.

(** The collision response is that of a coefficient of restitution of
    one half: when two overlapping particles, handled in canonical order,
    are not separating, their relative velocity changes along the
    connecting normal only, and its normal component is reversed and
    halved; when they are separating, no velocity is touched. *)
Theorem resolvePair_restitution (collisionDist : R) (p1 p2 : Particle) :
  (id p1 < id p2)%nat ->
  let distanceSq :=
    THREE.distanceToSquared (currentPosition p1) (currentPosition p2) in
  0 < distanceSq < collisionDist * collisionDist ->
  let n :=
    THREE.multiplyScalar (THREE.sub (currentPosition p1) (currentPosition p2))
      (1 / sqrt distanceSq) in
  let relativeVelocity := THREE.sub (velocity p1) (velocity p2) in
  let velocityAlongNormal := THREE.dot relativeVelocity n in
  let q := resolvePair collisionDist p1 p2 in
  (velocityAlongNormal <= 0 ->
     THREE.sub (velocity q.1) (velocity q.2)
     = THREE.add relativeVelocity
         (THREE.multiplyScalar n (- (3/2) * velocityAlongNormal)) /\
     THREE.dot (THREE.sub (velocity q.1) (velocity q.2)) n
     = - (1/2) * velocityAlongNormal) /\
  (0 < velocityAlongNormal ->
     velocity q.1 = velocity p1 /\ velocity q.2 = velocity p2).
Proof.
  intros Hid distanceSq Hsq n relativeVelocity velocityAlongNormal q.
  pose proof (unit_normal (currentPosition p1) (currentPosition p2)
                (proj1 Hsq)) as Hn.
  cbv zeta in Hn. fold distanceSq in Hn. fold n in Hn.
  assert (Hq : q = if Rltb 0 velocityAlongNormal
                   then (set_currentPosition p1
                           (THREE.add (currentPosition p1)
                              (THREE.multiplyScalar n
                                 ((collisionDist - sqrt distanceSq) * (1/2)))),
                         set_currentPosition p2
                           (THREE.sub (currentPosition p2)
                              (THREE.multiplyScalar n
                                 ((collisionDist - sqrt distanceSq) * (1/2)))))
                   else
                     let impulse :=
                       THREE.multiplyScalar n
                         (- (1 + 1/2) * velocityAlongNormal * (1/2)) in
                     (set_velocity
                        (set_currentPosition p1
                           (THREE.add (currentPosition p1)
                              (THREE.multiplyScalar n
                                 ((collisionDist - sqrt distanceSq) * (1/2)))))
                        (THREE.add (velocity p1) impulse),
                      set_velocity
                        (set_currentPosition p2
                           (THREE.sub (currentPosition p2)
                              (THREE.multiplyScalar n
                                 ((collisionDist - sqrt distanceSq) * (1/2)))))
                        (THREE.sub (velocity p2) impulse))).
  { unfold q, resolvePair.
    destruct (Nat.leb_spec (id p2) (id p1)) as [Hle|_]; [lia|].
    fold distanceSq.
    assert (Rltb 0 distanceSq = true) as -> by apply Rltb_true, Hsq.
    assert (Rltb distanceSq (collisionDist * collisionDist) = true) as ->
      by apply Rltb_true, Hsq.
    reflexivity. }
  split.
  - intros Hle.
    rewrite (proj2 (Rltb_false 0 velocityAlongNormal)) in Hq by lra.
    rewrite Hq. cbv zeta. simpl.
    assert (E : THREE.sub
                  (THREE.add (velocity p1)
                     (THREE.multiplyScalar n
                        (- (1 + 1/2) * velocityAlongNormal * (1/2))))
                  (THREE.sub (velocity p2)
                     (THREE.multiplyScalar n
                        (- (1 + 1/2) * velocityAlongNormal * (1/2))))
                = THREE.add relativeVelocity
                    (THREE.multiplyScalar n (- (3/2) * velocityAlongNormal))).
    { unfold relativeVelocity. vec. }
    rewrite E. split; [reflexivity|].
    transitivity (velocityAlongNormal
                  - 3/2 * velocityAlongNormal * THREE.dot n n).
    + unfold velocityAlongNormal, THREE.dot. simpl. ring.
    + rewrite Hn. lra.
  - intros Hpos.
    rewrite (proj2 (Rltb_true 0 velocityAlongNormal)) in Hq by lra.
    rewrite Hq. split; reflexivity.
Qed.

Lemma resolvePair_restitution_witness :
  let p1 := set_velocity particleA (THREE.mkVector3 1 0 0) in
  let p2 := particleB in
  let q := resolvePair 2 p1 p2 in
  (id p1 < id p2)%nat /\
  0 < THREE.distanceToSquared (currentPosition p1) (currentPosition p2)
    < 2 * 2 /\
  THREE.dot (THREE.sub (velocity q.1) (velocity q.2))
    (THREE.multiplyScalar (THREE.sub (currentPosition p1) (currentPosition p2))
       (1 / sqrt (THREE.distanceToSquared (currentPosition p1)
                    (currentPosition p2))))
  = - (1/2) *
    THREE.dot (THREE.sub (velocity p1) (velocity p2))
      (THREE.multiplyScalar
         (THREE.sub (currentPosition p1) (currentPosition p2))
         (1 / sqrt (THREE.distanceToSquared (currentPosition p1)
                      (currentPosition p2)))).
Proof.
  cbv zeta.
  assert (Hid : (id (set_velocity particleA (THREE.mkVector3 1 0 0))
                 < id particleB)%nat) by (simpl; lia).
  assert (Hd : THREE.distanceToSquared
                 (currentPosition
                    (set_velocity particleA (THREE.mkVector3 1 0 0)))
                 (currentPosition particleB) = 1)
    by (unfold THREE.distanceToSquared; simpl; lra).
  assert (Hsq : 0 < THREE.distanceToSquared
                      (currentPosition
                         (set_velocity particleA (THREE.mkVector3 1 0 0)))
                      (currentPosition particleB) < 2 * 2)
    by (rewrite Hd; lra).
  split; [exact Hid|]. split; [exact Hsq|].
  apply (resolvePair_restitution 2 _ _ Hid Hsq).
  rewrite Hd, sqrt_1. unfold THREE.dot. simpl. lra.
Defined.

Lemma foldl_fixed {A B} (f : A -> B -> A) (a : A) (l : list B) :
  (forall b, f a b = a) -> foldl f a l = a.
Proof.
  intros H. induction l as [|b l IH]; simpl; [reflexivity|].
  rewrite H. exact IH.
Qed.

(** A pass in which no pair is resolved returns the array as it is. *)
Lemma collide_fixed (ps : list Particle) (particleSize : R) :
  (forall i j p1 p2,
     ps !! i = Some p1 -> ps !! j = Some p2 ->
     resolvePair (particleSize * 2) p1 p2 = (p1, p2)) ->
  handleCollisions ps particleSize = ps.
Proof.
  intros Hskip. unfold handleCollisions.
  destruct (_ || _); [reflexivity|]. cbv zeta.
  apply foldl_fixed. intros i. unfold collideParticle.
  destruct (ps !! i) as [p1|] eqn:E1; [|reflexivity].
  apply foldl_fixed. intros o. cbv beta.
  destruct (buildGrid _ _ !! _) as [cell|]; [|reflexivity].
  apply foldl_fixed. intros j. unfold collideStep. rewrite E1.
  destruct (ps !! j) as [p2|] eqn:E2; [|reflexivity].
  rewrite (Hskip i j p1 p2 E1 E2).
  rewrite (list_insert_id ps j p2 E2). apply list_insert_id, E1.
Qed.

(** Particles no two of which overlap are left exactly as they are. *)
Theorem handleCollisions_apart (ps : list Particle) (particleSize : R) :
  (forall i j p1 p2,
     ps !! i = Some p1 -> ps !! j = Some p2 -> i <> j ->
     particleSize * 2 * (particleSize * 2)
     <= THREE.distanceToSquared (currentPosition p1) (currentPosition p2)) ->
  handleCollisions ps particleSize = ps.
Proof.
  intros Hapart. apply collide_fixed. intros i j p1 p2 E1 E2.
  destruct (decide (i = j)) as [->|Hij].
  - assert (p1 = p2) as -> by congruence. apply resolvePair_self.
  - apply resolvePair_skip. right. exact (Hapart i j p1 p2 E1 E2 Hij).
Qed.

Lemma handleCollisions_apart_witness :
  let ps := [particleA; particleAt 1 (THREE.mkVector3 10 0 0)] in
  (forall i j p1 p2,
     ps !! i = Some p1 -> ps !! j = Some p2 -> i <> j ->
     1 * 2 * (1 * 2)
     <= THREE.distanceToSquared (currentPosition p1) (currentPosition p2)) /\
  handleCollisions ps 1 = ps.
Proof.
  cbv zeta.
  assert (H : forall i j p1 p2,
            [particleA; particleAt 1 (THREE.mkVector3 10 0 0)] !! i = Some p1 ->
            [particleA; particleAt 1 (THREE.mkVector3 10 0 0)] !! j = Some p2 ->
            i <> j ->
            1 * 2 * (1 * 2)
            <= THREE.distanceToSquared (currentPosition p1)
                 (currentPosition p2)).
  { intros [|[|i]] [|[|j]] p1 p2 H1 H2 Hij; simpl in H1, H2;
      try discriminate; try congruence;
      injection H1 as <-; injection H2 as <-;
      unfold THREE.distanceToSquared; simpl; lra. }
  split; [exact H|].
  exact (handleCollisions_apart _ 1 H).
Defined.

(** ** The pointer held down *)

Lemma uncoloured_refreshVibrancy ms morphing v p :
  uncoloured (refreshVibrancy ms morphing v p) = uncoloured p.
Proof. destruct ms, morphing; reflexivity. Qed.

Lemma vibrancyStage_lookup props st i p :
  particles st !! i = Some p ->
  exists p', vibrancyStage props st !! i = Some p' /\
             uncoloured p' = uncoloured p.
Proof.
  intros H. unfold vibrancyStage. destruct (Rltb _ _).
  - change (map ?g ?l) with (g <$> l). rewrite list_lookup_fmap, H. simpl.
    eexists. split; [reflexivity|]. apply uncoloured_refreshVibrancy.
  - exists p. split; [exact H | reflexivity].
Qed.

Lemma uncoloured_fields p q :
  uncoloured p = uncoloured q ->
  id p = id q /\
  currentPosition p = currentPosition q /\
  velocity p = velocity q /\
  sourcePosition p = sourcePosition q /\
  targetPosition p = targetPosition q /\
  sourceBaseColor p = sourceBaseColor q /\
  targetBaseColor p = targetBaseColor q /\
  attractorPosition p = attractorPosition q /\
  burstPosition p = burstPosition q /\
  sphereTargetPosition p = sphereTargetPosition q /\
  mouseBurstPosition p = mouseBurstPosition q.
Proof.
  destruct p, q. unfold uncoloured; simpl. intros H. injection H.
  intros. subst. repeat split; reflexivity.
Qed.

(** One tick with the pointer in its gathering state. *)
Lemma animate_attracting props now pos st i p :
  instancedMesh st = true ->
  mouseInteractionState st = attracting ->
  particles st !! i = Some p ->
  let st' := animate props now pos st in
  instancedMesh st' = true /\
  mouseInteractionState st' = attracting /\
  exists q,
    particles st' !! i = Some q /\
    sphereTargetPosition q = sphereTargetPosition p /\
    currentPosition q
    = THREE.lerp (currentPosition p)
        (THREE.add pos (sphereTargetPosition p)) (4/100) /\
    velocity q = THREE.sub (currentPosition q) (currentPosition p).
Proof.
  intros Hmesh Hmouse Hp. cbv zeta. unfold animate.
  rewrite Hmesh, Hmouse.
  replace (length (particles st) =? 0)%nat with false.
  2:{ destruct (particles st); [discriminate | reflexivity]. }
  simpl. split; [reflexivity|]. split; [reflexivity|].
  destruct (vibrancyStage_lookup props st i p Hp) as (p' & Hp' & Hu).
  apply uncoloured_fields in Hu
    as (_ & Hc & _ & _ & _ & _ & _ & _ & _ & Hs & _).
  exists (pointerOverride attracting pos p').
  change (map ?g ?l) with (g <$> l). rewrite list_lookup_fmap, Hp'.
  split; [reflexivity|].
  unfold pointerOverride. simpl. rewrite Hc, Hs.
  repeat split; reflexivity.
Qed.

Lemma lerp_offset a b t :
  THREE.sub (THREE.lerp a b t) b = THREE.multiplyScalar (THREE.sub a b) (1 - t).
Proof. vec. Qed.

(** While the pointer is held in its gathering state at one place, each
    particle closes in on its own point of the ball around the pointer:
    every tick, whatever the props and the time, takes away 4% of what
    separates the particle from that point, so that after [n] ticks the
    offset is [0.96 ^ n] times the initial one. *)
Theorem pointer_gathers (ticks : list (Props * R)) (pos : Vector3)
    (st : State) (i : nat) (p : Particle) :
  instancedMesh st = true ->
  mouseInteractionState st = attracting ->
  particles st !! i = Some p ->
  let st' := run st (map (fun t => Tick t.1 t.2 pos) ticks) in
  let target := THREE.add pos (sphereTargetPosition p) in
  mouseInteractionState st' = attracting /\
  exists q,
    particles st' !! i = Some q /\
    THREE.sub (currentPosition q) target
    = THREE.multiplyScalar (THREE.sub (currentPosition p) target)
        ((96/100) ^ length ticks).
Proof.
  revert st p. induction ticks as [|[props now] ticks IH];
    intros st p Hmesh Hmouse Hp; cbv zeta.
  - simpl. split; [exact Hmouse|]. exists p. split; [exact Hp|]. vec.
  - destruct (animate_attracting props now pos st i p Hmesh Hmouse Hp)
      as (Hmesh' & Hmouse' & q1 & Hq1 & Hs1 & Hc1 & _).
    destruct (IH _ q1 Hmesh' Hmouse' Hq1) as (Hm & q & Hq & Hoff).
    simpl. split; [exact Hm|]. exists q. split; [exact Hq|].
    rewrite Hs1 in Hoff. rewrite Hoff, Hc1, lerp_offset.
    apply Vector3_eq; simpl; field.
Qed.

Lemma pointer_gathers_witness :
  let st := stateWith [particleB] attracting initialMorphState in
  let st' := run st [Tick defaultProps 0 THREE.zero] in
  instancedMesh st = true /\
  mouseInteractionState st = attracting /\
  particles st !! 0%nat = Some particleB /\
  mouseInteractionState st' = attracting /\
  exists q,
    particles st' !! 0%nat = Some q /\
    THREE.sub (currentPosition q)
      (THREE.add THREE.zero (sphereTargetPosition particleB))
    = THREE.multiplyScalar
        (THREE.sub (currentPosition particleB)
           (THREE.add THREE.zero (sphereTargetPosition particleB)))
        ((96/100) ^ 1).
Proof.
  cbv zeta.
  assert (H1 : instancedMesh (stateWith [particleB] attracting
                                initialMorphState) = true) by reflexivity.
  assert (H2 : mouseInteractionState (stateWith [particleB] attracting
                                        initialMorphState) = attracting)
    by reflexivity.
  assert (H3 : particles (stateWith [particleB] attracting initialMorphState)
               !! 0%nat = Some particleB) by reflexivity.
  split; [exact H1|]. split; [exact H2|]. split; [exact H3|].
  exact (pointer_gathers [(defaultProps, 0)] THREE.zero _ 0 particleB
           H1 H2 H3).
Defined.

(** [Math.cbrt] maps the unit interval into itself. *)
Lemma cbrt_unit u : 0 <= u < 1 -> 0 <= cbrt u < 1.
Proof.
  intros [H0 H1]. unfold cbrt.
  destruct (Reqb u 0) eqn:E0; [lra|].
  assert (Hu : 0 < u).
  { destruct H0 as [H0|H0]; [exact H0|].
    apply Reqb_false in E0. congruence. }
  rewrite (proj2 (Rltb_true 0 u)) by exact Hu.
  unfold Rpower. split; [left; apply exp_pos|].
  assert (ln u < 0) by (rewrite <- ln_1; apply ln_increasing; lra).
  apply Rlt_le_trans with (exp 0); [apply exp_increasing; lra|].
  rewrite exp_0. lra.
Qed.

(** Pressing the pointer scatters and gathers within fixed bounds: with
    [Math.random()] in [[0, 1)], every particle's burst position lies in
    the cube of side [150] centred on where the particle is, and its
    gathering point lies strictly inside the ball of radius [120] around
    the pointer.  The press itself moves no particle. *)
Theorem handlePointerDown_targets (now : R) (rnd : nat -> R) (st : State)
    (i : nat) (q : Particle) :
  (forall k, 0 <= rnd k < 1) ->
  particles (handlePointerDown now rnd st) !! i = Some q ->
  let offset := THREE.sub (mouseBurstPosition q) (currentPosition q) in
  (-75 <= THREE.x offset < 75 /\
   -75 <= THREE.y offset < 75 /\
   -75 <= THREE.z offset < 75) /\
  THREE.length (sphereTargetPosition q) < 120 /\
  exists p, particles st !! i = Some p /\
            currentPosition q = currentPosition p /\
            velocity q = velocity p /\
            attractorPosition q = attractorPosition p.
Proof.
  intros Hrnd Hq. simpl in Hq. rewrite list_lookup_imap in Hq.
  destruct (particles st !! i) as [p|] eqn:Hp; [|discriminate].
  simpl in Hq. injection Hq as <-. cbv zeta.
  split; [|split].
  - unfold setPointerTargets. simpl.
    pose proof (Hrnd (6 * i)%nat) as Hx.
    pose proof (Hrnd (6 * i + 1)%nat) as Hy.
    pose proof (Hrnd (6 * i + 2)%nat) as Hz.
    simpl in Hx, Hy, Hz. repeat split; lra.
  - assert (E : sphereTargetPosition (setPointerTargets rnd i p)
                = THREE.setFromSphericalCoords
                    (120 * cbrt (rnd (6 * i + 3)%nat))
                    (acos (2 * rnd (6 * i + 5)%nat - 1))
                    (rnd (6 * i + 4)%nat * 2 * PI)) by reflexivity.
    rewrite E, length_setFromSphericalCoords.
    pose proof (cbrt_unit _ (Hrnd (6 * i + 3)%nat)) as Hc.
    rewrite Rabs_right by lra. lra.
  - exists p. repeat split; reflexivity.
Qed.

Lemma handlePointerDown_targets_witness :
  let st := stateWith [particleB] none initialMorphState in
  let q := setPointerTargets noRandom 0 particleB in
  (forall k : nat, 0 <= noRandom k < 1) /\
  particles (handlePointerDown 0 noRandom st) !! 0%nat = Some q /\
  THREE.length (sphereTargetPosition q) < 120.
Proof.
  cbv zeta.
  assert (H1 : forall k : nat, 0 <= noRandom k < 1)
    by (intros k; unfold noRandom; lra).
  assert (H2 : particles (handlePointerDown 0 noRandom
                            (stateWith [particleB] none initialMorphState))
               !! 0%nat = Some (setPointerTargets noRandom 0 particleB))
    by reflexivity.
  split; [exact H1|]. split; [exact H2|].
  exact (proj1 (proj2 (handlePointerDown_targets 0 noRandom _ 0 _ H1 H2))).
Defined.

(** One tick with the pointer in its bursting state. *)
Lemma animate_bursting props now pos st i p :
  instancedMesh st = true ->
  mouseInteractionState st = bursting ->
  particles st !! i = Some p ->
  let st' := animate props now pos st in
  instancedMesh st' = true /\
  mouseInteractionStartTime st' = mouseInteractionStartTime st /\
  mouseInteractionState st'
  = (if Rltb 400 (now - mouseInteractionStartTime st)
     then attracting else bursting) /\
  exists q,
    particles st' !! i = Some q /\
    mouseBurstPosition q = mouseBurstPosition p /\
    currentPosition q
    = THREE.lerp (currentPosition p) (mouseBurstPosition p) (8/100).
Proof.
  intros Hmesh Hmouse Hp. cbv zeta. unfold animate.
  rewrite Hmesh, Hmouse.
  replace (length (particles st) =? 0)%nat with false.
  2:{ destruct (particles st); [discriminate | reflexivity]. }
  simpl. split; [reflexivity|]. split; [reflexivity|]. split; [reflexivity|].
  destruct (vibrancyStage_lookup props st i p Hp) as (p' & Hp' & Hu).
  apply uncoloured_fields in Hu
    as (_ & Hc & _ & _ & _ & _ & _ & _ & _ & _ & Hb).
  exists (pointerOverride bursting pos p').
  change (map ?g ?l) with (g <$> l). rewrite list_lookup_fmap, Hp'.
  split; [reflexivity|].
  unfold pointerOverride. simpl. rewrite Hc, Hb.
  split; reflexivity.
Qed.

(** The burst after a press: as long as the ticks fall within [400] ms
    of the press, each one takes away 8% of what separates a particle
    from its burst position, wherever the pointer is, and the state
    stays [bursting]; the first tick later than that still moves the
    particle towards its burst position, and hands over to the
    gathering state for the ticks after it. *)
Theorem pointer_bursts (ticks : list (Props * R * Vector3))
    (last : Props * R * Vector3) (st : State) (i : nat) (p : Particle) :
  instancedMesh st = true ->
  mouseInteractionState st = bursting ->
  particles st !! i = Some p ->
  Forall (fun t => t.1.2 - mouseInteractionStartTime st <= 400) ticks ->
  400 < last.1.2 - mouseInteractionStartTime st ->
  let st' := run st (map (fun t => Tick t.1.1 t.1.2 t.2) ticks) in
  let st'' := animate last.1.1 last.1.2 last.2 st' in
  mouseInteractionState st' = bursting /\
  mouseInteractionState st'' = attracting /\
  exists q q',
    particles st' !! i = Some q /\
    particles st'' !! i = Some q' /\
    THREE.sub (currentPosition q) (mouseBurstPosition p)
    = THREE.multiplyScalar
        (THREE.sub (currentPosition p) (mouseBurstPosition p))
        ((92/100) ^ length ticks) /\
    THREE.sub (currentPosition q') (mouseBurstPosition p)
    = THREE.multiplyScalar
        (THREE.sub (currentPosition p) (mouseBurstPosition p))
        ((92/100) ^ S (length ticks)).
Proof.
  intros Hmesh Hmouse Hp Hticks Hlast. cbv zeta.
  assert (Hrun : forall st p,
            instancedMesh st = true ->
            mouseInteractionState st = bursting ->
            particles st !! i = Some p ->
            Forall (fun t => t.1.2 - mouseInteractionStartTime st <= 400)
              ticks ->
            let st' := run st (map (fun t => Tick t.1.1 t.1.2 t.2) ticks) in
            instancedMesh st' = true /\
            mouseInteractionStartTime st' = mouseInteractionStartTime st /\
            mouseInteractionState st' = bursting /\
            exists q,
              particles st' !! i = Some q /\
              mouseBurstPosition q = mouseBurstPosition p /\
              THREE.sub (currentPosition q) (mouseBurstPosition p)
              = THREE.multiplyScalar
                  (THREE.sub (currentPosition p) (mouseBurstPosition p))
                  ((92/100) ^ length ticks)).
  { clear. induction ticks as [|[[props now] pos] ticks IH];
      intros st p Hmesh Hmouse Hp Hticks; cbv zeta.
    - simpl. repeat (split; [assumption || reflexivity|]).
      exists p. split; [exact Hp|]. split; [reflexivity|]. vec.
    - apply Forall_cons in Hticks as [Hnow Hticks]. simpl in Hnow.
      destruct (animate_bursting props now pos st i p Hmesh Hmouse Hp)
        as (Hmesh' & Hstart' & Hstate' & q1 & Hq1 & Hb1 & Hc1).
      rewrite (proj2 (Rltb_false _ _) Hnow) in Hstate'.
      rewrite <- Hstart' in Hticks.
      destruct (IH _ q1 Hmesh' Hstate' Hq1 Hticks)
        as (Hm & Hs & Hst & q & Hq & Hb & Hoff).
      simpl. split; [exact Hm|]. split; [congruence|]. split; [exact Hst|].
      exists q. split; [exact Hq|]. split; [congruence|].
      rewrite Hb1 in Hoff. rewrite Hoff, Hc1, lerp_offset.
      apply Vector3_eq; simpl; field. }
  destruct (Hrun st p Hmesh Hmouse Hp Hticks)
    as (Hmesh' & Hstart' & Hstate' & q & Hq & Hb & Hoff).
  destruct (animate_bursting last.1.1 last.1.2 last.2 _ i q Hmesh' Hstate' Hq)
    as (_ & _ & Hstate'' & q' & Hq' & _ & Hc').
  rewrite Hstart', (proj2 (Rltb_true _ _) Hlast) in Hstate''.
  split; [exact Hstate'|]. split; [exact Hstate''|].
  exists q, q'. split; [exact Hq|]. split; [exact Hq'|].
  split; [exact Hoff|].
  rewrite Hc', Hb, lerp_offset, Hoff.
  apply Vector3_eq; simpl; field.
Qed.

Lemma pointer_bursts_witness :
  let st := stateWith [particleB] bursting initialMorphState in
  instancedMesh st = true /\
  mouseInteractionState st = bursting /\
  particles st !! 0%nat = Some particleB /\
  Forall (fun t : Props * R * Vector3 =>
            t.1.2 - mouseInteractionStartTime st <= 400)
    [(defaultProps, 16, THREE.zero)] /\
  400 < 416 - mouseInteractionStartTime st /\
  mouseInteractionState
    (animate defaultProps 416 THREE.zero
       (run st [Tick defaultProps 16 THREE.zero])) = attracting.
Proof.
  cbv zeta.
  set (st := stateWith [particleB] bursting initialMorphState).
  assert (H1 : instancedMesh st = true) by reflexivity.
  assert (H2 : mouseInteractionState st = bursting) by reflexivity.
  assert (H3 : particles st !! 0%nat = Some particleB) by reflexivity.
  assert (H4 : Forall (fun t : Props * R * Vector3 =>
                         t.1.2 - mouseInteractionStartTime st <= 400)
                 [(defaultProps, 16, THREE.zero)]).
  { apply Forall_cons. split; [simpl; lra | apply Forall_nil; exact I]. }
  assert (H5 : 400 < 416 - mouseInteractionStartTime st) by (simpl; lra).
  split; [exact H1|]. split; [exact H2|]. split; [exact H3|].
  split; [exact H4|]. split; [exact H5|].
  exact (proj1 (proj2 (pointer_bursts [(defaultProps, 16, THREE.zero)]
                         (defaultProps, 416, THREE.zero) st 0 particleB
                         H1 H2 H3 H4 H5))).
Defined.

(** ** What the events keep *)

Section Projection.

Context {A : Type} (f : Particle -> A).

Lemma fmap_insert_same (ps : list Particle) i p q :
  ps !! i = Some p -> f q = f p -> f <$> <[i := q]> ps = f <$> ps.
Proof.
  intros Hp Hq. rewrite list_fmap_insert, Hq.
  apply list_insert_id. rewrite list_lookup_fmap, Hp. reflexivity.
Qed.

Lemma fmap_writeLoop write kf (idxs : list nat) :
  (forall ps i k, f <$> write ps i k = f <$> ps) ->
  forall ps, f <$> writeLoop write kf ps idxs = f <$> ps.
Proof.
  intros Hw. unfold writeLoop.
  induction idxs as [|i idxs IH]; intros ps; simpl; [reflexivity|].
  rewrite IH. apply Hw.
Qed.

Lemma fmap_remapLoops write n ps :
  (forall ps i k, f <$> write ps i k = f <$> ps) ->
  f <$> remapLoops write n ps = f <$> ps.
Proof.
  intros Hw. unfold remapLoops. cbv zeta.
  destruct (_ <? _)%nat; rewrite ?fmap_writeLoop by exact Hw; reflexivity.
Qed.

Lemma fmap_writeSource v data ps i k :
  (forall p d, f (takeSource v p d) = f p) ->
  f <$> writeSource v data ps i k = f <$> ps.
Proof.
  intros Hf. unfold writeSource.
  destruct (ps !! i) as [p|] eqn:E; [|reflexivity].
  destruct (data !! k) as [d|]; [|reflexivity].
  apply (fmap_insert_same ps i p); [exact E | apply Hf].
Qed.

Lemma fmap_writeTarget v data ps i k :
  (forall p d, f (takeTarget v p d) = f p) ->
  f <$> writeTarget v data ps i k = f <$> ps.
Proof.
  intros Hf. unfold writeTarget.
  destruct (ps !! i) as [p|] eqn:E; [|reflexivity].
  destruct (data !! k) as [d|]; [|reflexivity].
  apply (fmap_insert_same ps i p); [exact E | apply Hf].
Qed.

Lemma fmap_map_same g (ps : list Particle) :
  (forall p, f (g p) = f p) -> f <$> map g ps = f <$> ps.
Proof.
  intros Hg. induction ps as [|p ps IH]; simpl; [reflexivity|].
  rewrite Hg. f_equal. exact IH.
Qed.

Lemma fmap_imap_same g (ps : list Particle) :
  (forall i p, f (g i p) = f p) -> f <$> imap g ps = f <$> ps.
Proof.
  intros Hg. revert g Hg. induction ps as [|p ps IH]; intros g Hg; simpl;
    [reflexivity|].
  rewrite Hg. f_equal. apply IH. intros i q. apply Hg.
Qed.

(** A projection that does not look at position and velocity is kept by
    the physics of a tick. *)
Lemma fmap_static (ps qs : list Particle) :
  (forall p, f p = f (static p)) ->
  static <$> ps = static <$> qs -> f <$> ps = f <$> qs.
Proof.
  intros Hf H.
  assert (E : forall l : list Particle, f <$> l = f <$> (static <$> l)).
  { intros l. rewrite <- list_fmap_compose. apply list_fmap_ext.
    intros i p _. apply Hf. }
  rewrite (E ps), (E qs), H. reflexivity.
Qed.

End Projection.

Lemma sourceHome_animate props now pos st :
  sourceHome <$> particles (animate props now pos st)
  = sourceHome <$> particles st.
Proof.
  assert (Hv : sourceHome <$> vibrancyStage props st
               = sourceHome <$> particles st).
  { unfold vibrancyStage. destruct (Rltb _ _); [|reflexivity].
    apply fmap_map_same. intros p. destruct (morphState props),
      (isMorphing (morph st)); reflexivity. }
  unfold animate. destruct (_ || _); [reflexivity|].
  destruct (mouseInteractionState st) eqn:Em; simpl.
  - rewrite <- Hv. unfold morphStage.
    destruct (isMorphing (morph st)).
    + destruct (Rleb _ _); simpl.
      * rewrite (fmap_static sourceHome _ _ (fun p => eq_refl)
                   (static_forceStage _ _ _ _ _)).
        apply fmap_map_same. reflexivity.
      * rewrite (fmap_static sourceHome _ _ (fun p => eq_refl)
                   (static_forceStage _ _ _ _ _)).
        apply fmap_imap_same. intros i p.
        unfold sourceHome.
        destruct (morphParticle_homes (morph st)
                    (now - startTime (morph st))
                    (length (vibrancyStage props st)) i p)
          as (-> & -> & _).
        unfold morphParticle.
        repeat match goal with |- context [if Rltb ?a ?b then _ else _] =>
                 destruct (Rltb a b) end; reflexivity.
    + simpl. apply (fmap_static sourceHome _ _ (fun p => eq_refl)
                      (static_forceStage _ _ _ _ _)).
  - rewrite <- Hv. apply fmap_map_same. reflexivity.
  - rewrite <- Hv. apply fmap_map_same. reflexivity.
Qed.

Lemma sourceHome_targetLoaded props data st :
  sourceHome <$> particles (targetLoaded props data st)
  = sourceHome <$> particles st.
Proof.
  unfold targetLoaded. cbv zeta. destruct (_ || _); [reflexivity|].
  simpl.
  assert (E : sourceHome <$>
              remapLoops (writeTarget (vibrancy (appearance props)) data)
                (length data) (particles st)
              = sourceHome <$> particles st).
  { apply fmap_remapLoops. intros ps i k. apply fmap_writeTarget.
    reflexivity. }
  destruct (morphState props), (isMorphing (morph st)); simpl;
    try exact E.
  rewrite <- E. apply fmap_map_same. reflexivity.
Qed.

Lemma sourceHome_morphTrigger props d now rnd st :
  sourceHome <$> particles (morphTrigger props d now rnd st)
  = sourceHome <$> particles st.
Proof.
  unfold morphTrigger. destruct d as [d|]; [|reflexivity].
  destruct (targetParticleData st) as [tp|]; [|reflexivity].
  destruct (_ || _); [reflexivity|]. simpl.
  rewrite fmap_imap_same by reflexivity.
  apply fmap_remapLoops. intros ps i k. apply fmap_writeTarget. reflexivity.
Qed.

Lemma step_sourceHome st e :
  isSourceLoaded e = false ->
  sourceHome <$> particles (step st e) = sourceHome <$> particles st.
Proof.
  destruct e; simpl; intros H; try discriminate.
  - apply sourceHome_targetLoaded.
  - apply sourceHome_morphTrigger.
  - apply fmap_imap_same. reflexivity.
  - reflexivity.
  - apply sourceHome_animate.
Qed.

(** Only a load of the source image writes the identity, the source
    position and the source base colour of a particle: over any sequence
    of other events (target loads, morph triggers, pointer presses and
    releases, ticks) they stay what they were, particle by particle. *)
Theorem run_sourceHome (es : list Event) (st : State) :
  forallb (fun e => negb (isSourceLoaded e)) es = true ->
  sourceHome <$> particles (run st es) = sourceHome <$> particles st.
Proof.
  revert st. induction es as [|e es IH]; intros st H; simpl in *;
    [reflexivity|].
  apply andb_prop in H as [He Hes]. apply negb_true_iff in He.
  unfold run in IH. rewrite (IH _ Hes). apply step_sourceHome, He.
Qed.

Lemma run_sourceHome_witness :
  let es := [MorphTrigger defaultProps (Some toTarget) 0 noRandom;
             PointerDown 10 noRandom; Tick defaultProps 20 THREE.zero;
             PointerUp; Tick defaultProps 5000 THREE.zero] in
  forallb (fun e => negb (isSourceLoaded e)) es = true /\
  sourceHome <$> particles (run loadedPair es)
  = sourceHome <$> particles loadedPair.
Proof.
  cbv zeta. split; [reflexivity|].
  apply run_sourceHome. reflexivity.
Defined.

(** ** Reachable states *)

Lemma sourceHome_id (ps qs : list Particle) :
  sourceHome <$> ps = sourceHome <$> qs ->
  id <$> ps = id <$> qs /\ length ps = length qs.
Proof.
  intros H. split.
  - assert (E : forall l : list Particle,
              id <$> l = (fun h : nat * Vector3 * Color => h.1.1)
                         <$> (sourceHome <$> l)).
    { intros l. rewrite <- list_fmap_compose. reflexivity. }
    rewrite (E ps), (E qs), H. reflexivity.
  - rewrite <- (length_fmap sourceHome ps), H. apply length_fmap.
Qed.

Lemma ids_imap (g : nat -> Sample -> Particle) (data : list Sample) k :
  (forall i d, id (g i d) = (k + i)%nat) ->
  id <$> imap g data = seq k (length data).
Proof.
  revert g k. induction data as [|d data IH]; intros g k Hg; simpl;
    [reflexivity|].
  rewrite Hg, Nat.add_0_r. f_equal.
  apply IH. intros i d'. unfold compose. rewrite Hg. lia.
Qed.

Lemma ids_sourceLoaded props data st :
  id <$> particles st = seq 0 (length (particles st)) ->
  id <$> particles (sourceLoaded props data st)
  = seq 0 (length (particles (sourceLoaded props data st))).
Proof.
  intros Hids. unfold sourceLoaded.
  destruct (_ =? _)%nat; [exact Hids|].
  destruct (instancedMesh st); simpl.
  - assert (E : id <$>
                remapLoops (writeSource (vibrancy (appearance props)) data)
                  (length data) (particles st)
                = id <$> particles st).
    { apply fmap_remapLoops. intros ps i k. apply fmap_writeSource.
      reflexivity. }
    assert (L : length (remapLoops
                          (writeSource (vibrancy (appearance props)) data)
                          (length data) (particles st))
                = length (particles st)).
    { rewrite <- (length_fmap id), E. apply length_fmap. }
    destruct (morphState props), (isMorphing (morph st)); simpl;
      rewrite ?length_map, ?fmap_map_same by reflexivity;
      rewrite E, L; exact Hids.
  - rewrite length_imap. apply ids_imap. reflexivity.
Qed.

Lemma step_ids st e :
  id <$> particles st = seq 0 (length (particles st)) ->
  id <$> particles (step st e) = seq 0 (length (particles (step st e))).
Proof.
  intros Hids. destruct (isSourceLoaded e) eqn:E.
  - destruct e; try discriminate. apply ids_sourceLoaded, Hids.
  - destruct (sourceHome_id _ _ (step_sourceHome st e E)) as [-> ->].
    exact Hids.
Qed.

(** In every state the component can reach, the particle of index [i]
    carries the id [i]: ids are distinct, and the order of the ids, by
    which a collision pass picks the one turn of each pair, is the order
    of the array. *)
Theorem reachable_ids (props : Props) (es : list Event) :
  let ps := particles (run (initialState props) es) in
  id <$> ps = seq 0 (length ps).
Proof.
  cbv zeta.
  assert (H : forall st,
            id <$> particles st = seq 0 (length (particles st)) ->
            id <$> particles (run st es)
            = seq 0 (length (particles (run st es)))).
  { induction es as [|e es IH]; intros st Hst; [exact Hst|].
    simpl. apply IH, step_ids, Hst. }
  apply H. reflexivity.
Qed.

Lemma step_mesh st e :
  isSourceLoaded e = false -> instancedMesh (step st e) = instancedMesh st.
Proof.
  destruct e; simpl; intros H; try discriminate; try reflexivity.
  - unfold targetLoaded. cbv zeta. destruct (_ || _); [reflexivity|].
    simpl. destruct (morphState props), (isMorphing (morph st)); reflexivity.
  - unfold morphTrigger. destruct morphDirection; [|reflexivity].
    destruct (targetParticleData st); [|reflexivity].
    destruct (_ || _); reflexivity.
  - unfold animate. destruct (_ || _); [reflexivity|].
    destruct (mouseInteractionState st); simpl; try reflexivity.
    destruct (morphStage _ _ _ _) as [[? ?] ?]. reflexivity.
Qed.

Lemma sourceLoaded_mesh props data st :
  (instancedMesh st = true <-> particles st <> []) ->
  instancedMesh (sourceLoaded props data st) = true
  <-> particles (sourceLoaded props data st) <> [].
Proof.
  intros Hinv.
  destruct (instancedMesh st) eqn:Em.
  - pose proof (sourceLoaded_length props data st Em) as L.
    assert (Hm : instancedMesh (sourceLoaded props data st) = true).
    { unfold sourceLoaded. destruct (_ =? _)%nat; [exact Em|].
      rewrite Em. simpl.
      destruct (morphState props), (isMorphing (morph st)); exact Em. }
    split; [|intros _; exact Hm].
    intros _ H0. rewrite H0 in L. simpl in L.
    apply (proj1 Hinv eq_refl). destruct (particles st); [reflexivity|].
    discriminate.
  - unfold sourceLoaded.
    destruct (length data =? 0)%nat eqn:E0; [rewrite Em; exact Hinv|].
    rewrite Em. simpl. split; [|reflexivity].
    intros _. destruct data; [discriminate|]. discriminate.
Qed.

Lemma step_wellformed st e :
  (instancedMesh st = true <-> particles st <> []) ->
  (isMorphing (morph st) = true ->
   direction (morph st) <> None /\ particles st <> []) ->
  Forall (fun d : MorphDirection => d <> None) (completed st) ->
  (instancedMesh (step st e) = true <-> particles (step st e) <> []) /\
  (isMorphing (morph (step st e)) = true ->
   direction (morph (step st e)) <> None /\ particles (step st e) <> []) /\
  Forall (fun d : MorphDirection => d <> None) (completed (step st e)).
Proof.
  intros Hmesh Hmorph Hcalls.
  assert (Hmesh' : instancedMesh (step st e) = true
                   <-> particles (step st e) <> []).
  { destruct (isSourceLoaded e) eqn:E.
    - destruct e; try discriminate. apply sourceLoaded_mesh, Hmesh.
    - rewrite (step_mesh st e E).
      destruct (sourceHome_id _ _ (step_sourceHome st e E)) as [_ L].
      rewrite Hmesh. split; intros H H0; apply H.
      + rewrite H0 in L. destruct (particles st); [reflexivity|discriminate].
      + rewrite H0 in L. destruct (particles (step st e));
          [reflexivity|discriminate]. }
  assert (Hkeep : isMorphing (morph st) = true -> particles (step st e) <> []).
  { intros Hm. destruct (Hmorph Hm) as [_ Hne].
    apply Hmesh'. apply step_instancedMesh. apply Hmesh, Hne. }
  split; [exact Hmesh'|].
  destruct (isMorphTrigger e) eqn:Et.
  - destruct e; try discriminate. simpl in *.
    unfold morphTrigger in *.
    destruct morphDirection as [d|];
      [|split; [intros Hm; split; [apply Hmorph, Hm | apply Hkeep, Hm]
               | exact Hcalls]].
    destruct (targetParticleData st) as [tp|];
      [|split; [intros Hm; split; [apply Hmorph, Hm | apply Hkeep, Hm]
               | exact Hcalls]].
    destruct (_ || _) eqn:E0;
      [split; [intros Hm; split; [apply Hmorph, Hm | apply Hkeep, Hm]
              | exact Hcalls]|].
    simpl. split; [|exact Hcalls].
    intros _. split; [discriminate|].
    apply Hmesh'. simpl. apply Hmesh.
    apply orb_false_iff in E0 as [E0 _].
    destruct (particles st); [discriminate E0 | discriminate].
  - destruct (step_morph_cases st e Et) as [[Em Ec]|(Hm & Em & Ec)].
    + rewrite Em, Ec. split; [|exact Hcalls].
      intros Hm. split; [apply Hmorph, Hm | apply Hkeep, Hm].
    + rewrite Em, Ec. split; [simpl; discriminate|].
      apply Forall_app. split; [exact Hcalls|].
      apply Forall_cons. split; [apply Hmorph, Hm | apply Forall_nil].
      exact I.
Qed.

(** In every state the component can reach: there is a mesh exactly when
    there are particles; a morph in flight has a direction and particles
    to move; and the completion callback has never been called without a
    direction. *)
Theorem reachable_wellformed (props : Props) (es : list Event) :
  let st := run (initialState props) es in
  (instancedMesh st = true <-> particles st <> []) /\
  (isMorphing (morph st) = true ->
   direction (morph st) <> None /\ particles st <> []) /\
  Forall (fun d : MorphDirection => d <> None) (completed st).
Proof.
  cbv zeta.
  assert (H : forall st,
            (instancedMesh st = true <-> particles st <> []) /\
            (isMorphing (morph st) = true ->
             direction (morph st) <> None /\ particles st <> []) /\
            Forall (fun d : MorphDirection => d <> None) (completed st) ->
            (instancedMesh (run st es) = true <-> particles (run st es) <> [])
            /\
            (isMorphing (morph (run st es)) = true ->
             direction (morph (run st es)) <> None
             /\ particles (run st es) <> []) /\
            Forall (fun d : MorphDirection => d <> None)
              (completed (run st es))).
  { induction es as [|e es IH]; intros st Hst; [exact Hst|].
    simpl. apply IH. destruct Hst as (H1 & H2 & H3).
    apply step_wellformed; assumption. }
  apply H. simpl. repeat split; try discriminate; try contradiction.
  apply Forall_nil. exact I.
Qed.

(** ** The morph trigger and the animated props *)

Lemma live_morphTrigger props d now rnd st :
  live <$> particles (morphTrigger props d now rnd st)
  = live <$> particles st.
Proof.
  unfold morphTrigger. destruct d as [d|]; [|reflexivity].
  destruct (targetParticleData st) as [tp|]; [|reflexivity].
  destruct (_ || _); [reflexivity|]. simpl.
  rewrite fmap_imap_same by reflexivity.
  apply fmap_remapLoops. intros ps i k. apply fmap_writeTarget. reflexivity.
Qed.

Lemma fmap_lookup_Some {A} (f : Particle -> A) (ps qs : list Particle) i q :
  f <$> qs = f <$> ps -> qs !! i = Some q ->
  exists p, ps !! i = Some p /\ f q = f p.
Proof.
  intros H Hq.
  assert (E : (f <$> ps) !! i = Some (f q))
    by (rewrite <- H, list_lookup_fmap, Hq; reflexivity).
  rewrite list_lookup_fmap in E.
  destruct (ps !! i) as [p|]; [|discriminate].
  exists p. split; [reflexivity|]. simpl in E. congruence.
Qed.

(** An accepted morph request, with [Math.random()] in [[0, 1)], puts
    every particle's burst position in the cube of side [300] centred on
    the home position the morph leaves, and moves nothing by itself:
    position, velocity, attractor and displayed colour of every particle
    are what they were. *)
Theorem morphTrigger_burst (props : Props) (d : Direction) (now : R)
    (rnd : nat -> R) (st : State) (tp : list Sample) (i : nat)
    (q : Particle) :
  targetParticleData st = Some tp ->
  tp <> [] ->
  (forall k, 0 <= rnd k < 1) ->
  particles (morphTrigger props (Some d) now rnd st) !! i = Some q ->
  let offset :=
    THREE.sub (burstPosition q) (departurePosition (Some d) q) in
  (-150 <= THREE.x offset < 150 /\
   -150 <= THREE.y offset < 150 /\
   -150 <= THREE.z offset < 150) /\
  exists p, particles st !! i = Some p /\ live q = live p.
Proof.
  intros Htp Hne Hrnd Hq. cbv zeta.
  destruct (fmap_lookup_Some live _ _ i q
              (live_morphTrigger props (Some d) now rnd st) Hq)
    as (p & Hp & Hlive).
  assert (Hps : particles st <> []).
  { intros H0. rewrite H0 in Hp. discriminate. }
  destruct (morphTrigger_accepted props d now rnd st tp Htp Hne Hps)
    as (_ & _ & _ & _ & Hburst).
  rewrite (Hburst i q Hq).
  split; [|exists p; split; [exact Hp | exact Hlive]].
  pose proof (Hrnd (3 * i)%nat) as Hx.
  pose proof (Hrnd (3 * i + 1)%nat) as Hy.
  pose proof (Hrnd (3 * i + 2)%nat) as Hz.
  unfold randomOffset, THREE.sub, THREE.add.
  cbn [THREE.x THREE.y THREE.z].
  repeat split; lra.
Qed.

Lemma morphTrigger_burst_witness :
  targetParticleData loadedPair = Some [redSample] /\
  [redSample] <> [] /\
  (forall k : nat, 0 <= noRandom k < 1) /\
  exists q,
    particles (morphTrigger defaultProps (Some toTarget) 0 noRandom loadedPair)
    !! 0%nat = Some q /\
    exists p, particles loadedPair !! 0%nat = Some p /\ live q = live p.
Proof.
  assert (H1 : targetParticleData loadedPair = Some [redSample])
    by reflexivity.
  assert (H2 : [redSample] <> []) by discriminate.
  assert (H3 : forall k : nat, 0 <= noRandom k < 1)
    by (intros k; unfold noRandom; lra).
  split; [exact H1|]. split; [exact H2|]. split; [exact H3|].
  assert (L : length (particles (morphTrigger defaultProps (Some toTarget) 0
                                   noRandom loadedPair)) = 2%nat)
    by (rewrite morphTrigger_length; reflexivity).
  destruct (particles (morphTrigger defaultProps (Some toTarget) 0 noRandom
                         loadedPair)) as [|q l] eqn:E; [discriminate|].
  exists q. split; [reflexivity|].
  assert (Hq : particles (morphTrigger defaultProps (Some toTarget) 0 noRandom
                            loadedPair) !! 0%nat = Some q)
    by (rewrite E; reflexivity).
  exact (proj2 (morphTrigger_burst defaultProps toTarget 0 noRandom loadedPair
                  [redSample] 0 q H1 H2 H3 Hq)).
Defined.

Lemma animate_animated props now pos st :
  instancedMesh st = true ->
  particles st <> [] ->
  animatedForce (animate props now pos st)
  = animateForce (animatedForce st) (force props) (5/100) /\
  animatedAppearance (animate props now pos st)
  = animateAppearance (animatedAppearance st) (appearance props) (5/100).
Proof.
  intros Hmesh Hps. unfold animate. rewrite Hmesh.
  replace (length (particles st) =? 0)%nat with false.
  2:{ destruct (particles st); [contradiction | reflexivity]. }
  simpl. destruct (mouseInteractionState st); simpl;
    try (split; reflexivity).
  destruct (morphStage _ _ _ _) as [[? ?] ?]. split; reflexivity.
Qed.

Lemma mathLerp_gap a v t :
  THREE.mathLerp a v t - v = (1 - t) * (a - v).
Proof. unfold THREE.mathLerp. ring. Qed.

(** The animated props close in on the props geometrically: over [n]
    ticks with the same props, of a component with particles, each of
    the five animated force props and the two animated appearance props
    ends at [0.95 ^ n] times its initial distance from the prop. *)
Theorem animated_props_converge (props : Props) (ticks : list (R * Vector3))
    (st : State) :
  instancedMesh st = true ->
  particles st <> [] ->
  let st' := run st (map (fun t => Tick props t.1 t.2) ticks) in
  let c := (95/100) ^ length ticks in
  Forall (fun field : ForceProps -> R =>
            field (animatedForce st') - field (force props)
            = c * (field (animatedForce st) - field (force props)))
    [returnStrength; damping; pushRadius; pushStrength; particleSize] /\
  Forall (fun field : AppearanceProps -> R =>
            field (animatedAppearance st') - field (appearance props)
            = c * (field (animatedAppearance st) - field (appearance props)))
    [vibrancy; exposure].
Proof.
  revert st. induction ticks as [|[now pos] ticks IH]; intros st Hmesh Hps;
    cbv zeta.
  - simpl. split; repeat (apply Forall_cons; split; [lra|]); apply Forall_nil;
      exact I.
  - destruct (animate_animated props now pos st Hmesh Hps) as [Ef Ea].
    assert (Hmesh' : instancedMesh (animate props now pos st) = true)
      by (apply (step_instancedMesh st (Tick props now pos)), Hmesh).
    assert (Hps' : particles (animate props now pos st) <> []).
    { intros H0. pose proof (animate_length props now pos st) as L.
      rewrite H0 in L. destruct (particles st); [contradiction|discriminate]. }
    destruct (IH _ Hmesh' Hps') as [Hf Ha]. cbv zeta in Hf, Ha.
    simpl map. simpl run. simpl length.
    change (foldl step (animate props now pos st)
              (map (fun t : R * Vector3 => Tick props t.1 t.2) ticks))
      with (run (animate props now pos st)
              (map (fun t : R * Vector3 => Tick props t.1 t.2) ticks)).
    rewrite Ef in Hf. rewrite Ea in Ha.
    rewrite !Forall_cons in Hf. rewrite !Forall_cons in Ha.
    destruct Hf as (F1 & F2 & F3 & F4 & F5 & _).
    destruct Ha as (A1 & A2 & _).
    simpl in F1, F2, F3, F4, F5, A1, A2.
    rewrite mathLerp_gap in F1, F2, F3, F4, F5, A1, A2.
    split; repeat (apply Forall_cons; split; [|]); try (apply Forall_nil; exact I);
      simpl pow; lra.
Qed.

Lemma animated_props_converge_witness :
  let props :=
    {| morphState := stateSource; enablePushForce := true;
       enableCollisions := true;
       force :=
         {| returnStrength := 1/10; damping := 92/100; pushRadius := 60;
            pushStrength := 8/10; particleSize := 125/100;
            particleDensity := 4 |};
       appearance := {| vibrancy := 2; exposure := 1 |} |} in
  let st := stateWith [particleB] none initialMorphState in
  let st' := run st [Tick props 0 THREE.zero; Tick props 16 THREE.zero] in
  instancedMesh st = true /\
  particles st <> [] /\
  returnStrength (animatedForce st) = 2/100 /\
  returnStrength (animatedForce st') - 1/10
  = (95/100) ^ 2 * (2/100 - 1/10) /\
  vibrancy (animatedAppearance st) = 12/10 /\
  vibrancy (animatedAppearance st') - 2 = (95/100) ^ 2 * (12/10 - 2).
Proof.
  cbv zeta.
  assert (H1 : instancedMesh (stateWith [particleB] none initialMorphState)
               = true) by reflexivity.
  assert (H2 : particles (stateWith [particleB] none initialMorphState) <> [])
    by discriminate.
  split; [exact H1|]. split; [exact H2|].
  split; [reflexivity|].
  pose proof (animated_props_converge
                {| morphState := stateSource; enablePushForce := true;
                   enableCollisions := true;
                   force :=
                     {| returnStrength := 1/10; damping := 92/100;
                        pushRadius := 60; pushStrength := 8/10;
                        particleSize := 125/100; particleDensity := 4 |};
                   appearance := {| vibrancy := 2; exposure := 1 |} |}
                [(0, THREE.zero); (16, THREE.zero)] _ H1 H2)
    as [Hf Ha].
  split; [exact (Forall_inv Hf)|].
  split; [reflexivity|].
  exact (Forall_inv Ha).
Defined.

(** ** Loading the same image again *)

Section RemapTwice.

Variables (data : list Sample) (upd : Particle -> Sample -> Particle).
Variable write : list Particle -> nat -> nat -> list Particle.
Variable g : Particle -> Particle.

Hypothesis Hwrite : forall ps i k,
  write ps i k =
  match ps !! i with
  | Some p =>
      match data !! k with
      | Some d => <[i := upd p d]> ps
      | None => ps
      end
  | None => ps
  end.
Hypothesis Hdata : (0 < length data)%nat.
Hypothesis Hg : forall p d, g (upd (g (upd p d)) d) = g (upd p d).

Lemma remap_lookup_None ps i :
  ps !! i = None -> remapLoops write (length data) ps !! i = None.
Proof.
  intros H. apply lookup_ge_None. apply lookup_ge_None in H.
  rewrite (remapLoops_length data upd write Hwrite). exact H.
Qed.

Lemma remap_twice ps :
  g <$> remapLoops write (length data)
          (g <$> remapLoops write (length data) ps)
  = g <$> remapLoops write (length data) ps.
Proof.
  apply list_eq. intros i. rewrite !list_lookup_fmap.
  destruct (ps !! i) as [p|] eqn:Hp.
  - destruct (remapLoops_lookup data upd write Hwrite ps i p Hdata Hp)
      as (d & Hd & HR).
    rewrite HR. simpl.
    assert (Hp' : (g <$> remapLoops write (length data) ps) !! i
                  = Some (g (upd p d)))
      by (rewrite list_lookup_fmap, HR; reflexivity).
    destruct (remapLoops_lookup data upd write Hwrite _ i _ Hdata Hp')
      as (d' & Hd' & HR').
    rewrite HR'. simpl. assert (d' = d) as -> by congruence.
    rewrite Hg. reflexivity.
  - rewrite (remap_lookup_None ps i Hp). simpl.
    rewrite remap_lookup_None; [reflexivity|].
    rewrite list_lookup_fmap, (remap_lookup_None ps i Hp). reflexivity.
Qed.

End RemapTwice.

Lemma fmap_id_list {A} (l : list A) : (fun a => a) <$> l = l.
Proof. induction l as [|a l IH]; simpl; [reflexivity|]. f_equal. exact IH. Qed.

(** The re-sampling loops of a source load, run on freshly seeded
    particles with the data that seeded them, write what is there. *)
Lemma remap_seed v (data : list Sample) :
  (0 < length data)%nat ->
  remapLoops (writeSource v data) (length data) (imap (seedParticle v) data)
  = imap (seedParticle v) data.
Proof.
  intros Hdata. apply list_eq. intros i.
  destruct (imap (seedParticle v) data !! i) as [p|] eqn:Hp.
  - destruct (remapLoops_lookup data (takeSource v) (writeSource v data)
                (writeSource_spec v data) _ i p Hdata Hp)
      as (d & Hd & HR).
    rewrite HR. rewrite list_lookup_imap in Hp.
    destruct (data !! i) as [d0|] eqn:Hd0; [|discriminate].
    simpl in Hp. injection Hp as <-.
    assert (Hi : (i < length data)%nat)
      by (apply lookup_lt_is_Some; eexists; exact Hd0).
    rewrite Nat.mod_small in Hd by exact Hi.
    assert (d = d0) as -> by congruence. reflexivity.
  - apply (remap_lookup_None data (takeSource v) (writeSource v data)
             (writeSource_spec v data)). exact Hp.
Qed.

(** Loading an image a second time changes nothing: the callbacks of the
    two loaders are idempotent, in every state and for every data, empty
    or not, whatever the number of particles. *)
Theorem loaders_idempotent (props : Props) (data : list Sample)
    (st : State) :
  sourceLoaded props data (sourceLoaded props data st)
  = sourceLoaded props data st /\
  targetLoaded props data (targetLoaded props data st)
  = targetLoaded props data st.
Proof.
  split.
  - unfold sourceLoaded at 2.
    destruct (length data =? 0)%nat eqn:E0.
    + unfold sourceLoaded. rewrite E0. reflexivity.
    + assert (Hdata : (0 < length data)%nat)
        by (apply Nat.eqb_neq in E0; lia).
      destruct (instancedMesh st) eqn:Em; simpl.
      * pose proof (remap_twice data
                      (takeSource (vibrancy (appearance props)))
                      (writeSource (vibrancy (appearance props)) data)
                      (fun p => set_currentColor
                                  (set_attractorPosition p (sourcePosition p))
                                  (sourceColor p))
                      (writeSource_spec _ data) Hdata
                      (fun p d => eq_refl) (particles st)) as H1.
        pose proof (remap_twice data
                      (takeSource (vibrancy (appearance props)))
                      (writeSource (vibrancy (appearance props)) data)
                      (fun p => p)
                      (writeSource_spec _ data) Hdata
                      (fun p d => eq_refl) (particles st)) as H2.
        rewrite !fmap_id_list in H2.
        unfold sourceLoaded. rewrite E0.
        destruct (morphState props) eqn:Es,
                 (isMorphing (morph st)) eqn:Ei; simpl;
          rewrite Em, ?Ei; simpl; unfold set_particles; simpl;
          f_equal; assumption.
      * unfold sourceLoaded. rewrite E0, Em. simpl.
        rewrite (remap_seed _ data Hdata).
        destruct (morphState props), (isMorphing (morph st));
          unfold set_particles; simpl; try reflexivity; f_equal.
        apply list_eq. intros i.
        change (map ?h ?l) with (h <$> l).
        rewrite list_lookup_fmap, list_lookup_imap.
        destruct (data !! i); reflexivity.
  - unfold targetLoaded at 2. cbv zeta.
    destruct (length data =? 0)%nat eqn:E0.
    + simpl. unfold targetLoaded. cbv zeta. rewrite E0. reflexivity.
    + assert (Hdata : (0 < length data)%nat)
        by (apply Nat.eqb_neq in E0; lia).
      simpl orb.
      destruct (length (particles st) =? 0)%nat eqn:E1.
      * simpl. unfold targetLoaded. cbv zeta. rewrite E0. simpl.
        rewrite E1. reflexivity.
      * pose proof (remap_twice data
                      (takeTarget (vibrancy (appearance props)))
                      (writeTarget (vibrancy (appearance props)) data)
                      (fun p => set_currentColor
                                  (set_attractorPosition p (targetPosition p))
                                  (targetColor p))
                      (writeTarget_spec _ data) Hdata
                      (fun p d => eq_refl) (particles st)) as H1.
        pose proof (remap_twice data
                      (takeTarget (vibrancy (appearance props)))
                      (writeTarget (vibrancy (appearance props)) data)
                      (fun p => p)
                      (writeTarget_spec _ data) Hdata
                      (fun p d => eq_refl) (particles st)) as H2.
        rewrite !fmap_id_list in H2.
        assert (L : forall h : Particle -> Particle,
                  (length (h <$> remapLoops
                             (writeTarget (vibrancy (appearance props)) data)
                             (length data) (particles st)) =? 0)%nat = false).
        { intros h. rewrite length_fmap.
          rewrite (remapLoops_length data _ _ (writeTarget_spec _ data)).
          exact E1. }
        pose proof (L (fun p => p)) as L2. rewrite fmap_id_list in L2.
        simpl.
        unfold targetLoaded. cbv zeta. rewrite E0. simpl.
        destruct (morphState props) eqn:Es,
                 (isMorphing (morph st)) eqn:Ei; simpl;
          rewrite ?L, ?L2, ?Ei, ?E1; simpl; unfold set_particles; simpl;
          f_equal; assumption.
Qed.

(** ** Vibrancy *)

(** Case analysis on the comparisons of the goal, each case with the
    inequality it stands for. *)
Ltac Rcases :=
  repeat match goal with
  | |- context [if Rltb ?a ?b then _ else _] =>
      let E := fresh "E" in
      destruct (Rltb a b) eqn:E;
      [apply Rltb_true in E | apply Rltb_false in E]
  | |- context [if Rleb ?a ?b then _ else _] =>
      let E := fresh "E" in
      destruct (Rleb a b) eqn:E;
      [apply Rleb_true in E | apply Rleb_false in E]
  end.

Lemma clamp_unit v : 0 <= THREE.clamp v 0 1 <= 1.
Proof.
  unfold THREE.clamp. split; [apply Rmax_l|].
  apply Rmax_lub; [lra | apply Rmin_l].
Qed.

Lemma clamp_id v : 0 <= v <= 1 -> THREE.clamp v 0 1 = v.
Proof.
  intros H. unfold THREE.clamp.
  rewrite Rmin_right by lra. apply Rmax_right. lra.
Qed.

Lemma euclideanModulo1_unit n : 0 <= THREE.euclideanModulo1 n < 1.
Proof.
  unfold THREE.euclideanModulo1. pose proof (Zfloor_bound n). lra.
Qed.

(** [hue2rgb] interpolates between its first two arguments. *)
Lemma hue2rgb_between lo hi p q t :
  lo <= p <= hi -> lo <= q <= hi -> -1 <= t <= 2 ->
  lo <= THREE.hue2rgb p q t <= hi.
Proof.
  intros Hp Hq Ht. unfold THREE.hue2rgb. cbv zeta.
  Rcases; nra.
Qed.

(** Whatever the colour and the vibrancy (above one, or negative), the
    result of [applyVibrancy] is a displayable colour: each of its
    channels lies in [[0, 1]]. *)
Theorem applyVibrancy_gamut (color : Color) (vibrancy : R) :
  let c := applyVibrancy color vibrancy in
  0 <= THREE.r c <= 1 /\ 0 <= THREE.g c <= 1 /\ 0 <= THREE.b c <= 1.
Proof.
  cbv zeta. unfold applyVibrancy. cbv zeta.
  generalize (THREE.h (THREE.getHSL color))
             (Rmin 1 (THREE.s (THREE.getHSL color) * vibrancy))
             (THREE.l (THREE.getHSL color)).
  intros h s l. unfold THREE.setHSL. cbv zeta.
  pose proof (euclideanModulo1_unit h) as Hh.
  pose proof (clamp_unit s) as Hs. pose proof (clamp_unit l) as Hl.
  revert Hh Hs Hl.
  generalize (THREE.euclideanModulo1 h) (THREE.clamp s 0 1)
             (THREE.clamp l 0 1).
  intros h' s' l' Hh Hs Hl.
  destruct (Reqb s' 0); [simpl; lra|].
  assert (Hpq : 0 <= (if Rleb l' (1/2) then l' * (1 + s')
                      else l' + s' - l' * s') <= 1 /\
                0 <= 2 * l' - (if Rleb l' (1/2) then l' * (1 + s')
                               else l' + s' - l' * s') <= 1).
  { Rcases; nra. }
  destruct Hpq as [Hp Hq]. simpl.
  split; [|split]; apply hue2rgb_between; try assumption; lra.
Qed.

Lemma setHSL_grey h l : THREE.setHSL h 0 l
                        = let l := THREE.clamp l 0 1 in THREE.mkColor l l l.
Proof.
  unfold THREE.setHSL. cbv zeta.
  assert (E : THREE.clamp 0 0 1 = 0) by (apply clamp_id; lra).
  rewrite E. rewrite (proj2 (Reqb_true 0 0)) by reflexivity. reflexivity.
Qed.

(** Vibrancy acts on the saturation alone: a grey (within [[0, 1]]) is
    left as it is by every vibrancy, and the vibrancy [0] turns every
    colour into the grey of its lightness. *)
Theorem applyVibrancy_grey (color : Color) (v vibrancy : R) :
  0 <= v <= 1 ->
  applyVibrancy (THREE.mkColor v v v) vibrancy = THREE.mkColor v v v /\
  (let l := THREE.clamp (THREE.l (THREE.getHSL color)) 0 1 in
   applyVibrancy color 0 = THREE.mkColor l l l).
Proof.
  intros Hv. split.
  - unfold applyVibrancy, THREE.getHSL. cbv zeta. simpl.
    assert (E1 : Rmax v v = v) by (apply Rmax_left; lra).
    assert (E2 : Rmin v v = v) by (apply Rmin_left; lra).
    rewrite ?E1, ?E2, ?E1, ?E2.
    rewrite (proj2 (Reqb_true v v)) by reflexivity. simpl.
    replace (Rmin 1 (0 * vibrancy)) with 0
      by (rewrite Rmin_right; lra).
    rewrite setHSL_grey. cbv zeta.
    rewrite clamp_id by lra.
    replace ((v + v) / 2) with v by lra. reflexivity.
  - cbv zeta. unfold applyVibrancy. cbv zeta.
    replace (Rmin 1 (THREE.s (THREE.getHSL color) * 0)) with 0
      by (rewrite Rmin_right; lra).
    apply setHSL_grey.
Qed.

Lemma applyVibrancy_grey_witness :
  0 <= 1/2 <= 1 /\
  applyVibrancy (THREE.mkColor (1/2) (1/2) (1/2)) defaultVibrancy
  = THREE.mkColor (1/2) (1/2) (1/2).
Proof.
  assert (H : 0 <= 1/2 <= 1) by lra.
  split; [exact H|].
  exact (proj1 (applyVibrancy_grey dullRed (1/2) defaultVibrancy H)).
Defined.

(** ** Where the scripted path ends, and the colours on the way *)

Lemma easeInOutCubic_unit t : 0 <= t <= 1 -> 0 <= easeInOutCubic t <= 1.
Proof.
  intros Ht. destruct (Rlt_le_dec t (1/2)) as [H|H].
  - rewrite easeInOutCubic_low by exact H.
    pose proof (cube_monotone 0 t). pose proof (cube_monotone t (1/2)). lra.
  - rewrite easeInOutCubic_high by exact H.
    pose proof (cube_monotone 0 (2 - 2 * t)).
    pose proof (cube_monotone (2 - 2 * t) 1). lra.
Qed.

Lemma lerpVectors_1 a b : THREE.lerpVectors a b 1 = b.
Proof. vec. Qed.

Lemma colorLerp_1 a b : THREE.colorLerp a b 1 = b.
Proof. apply Color_eq; simpl; ring. Qed.

(** The in-progress formula, evaluated at the deadline, gives exactly
    what the completion branch writes: the path of the attractor and the
    blend of the colour end on the arrival home and the arrival colour,
    the swirl having died out, so that the snap at completion moves
    nothing. *)
Theorem morph_lands (ms : MorphState) (n i : nat) (p : Particle) :
  duration ms = 4000 ->
  phaseOneDuration ms = 1300 ->
  phaseTwoDuration ms = 1300 ->
  morphParticle ms (duration ms) n i p = snapToArrival (direction ms) p.
Proof.
  intros Hdur Hone Htwo. unfold morphParticle, snapToArrival.
  rewrite Hone, Htwo, Hdur.
  rewrite (proj2 (Rltb_false 4000 1300)) by lra.
  rewrite (proj2 (Rltb_false 4000 (1300 + 1300))) by lra.
  replace (4000 / 4000) with 1 by field.
  replace ((4000 - (1300 + 1300)) / (4000 - (1300 + 1300))) with 1 by field.
  rewrite easeInOutCubic_1, Rmult_1_l, sin_PI, Rmult_0_r.
  cbv zeta. rewrite colorLerp_1, lerpVectors_1.
  set (perp := if Rltb _ _ then _ else _).
  assert (E : forall v : Vector3,
            THREE.add v (THREE.multiplyScalar perp 0) = v) by (intros v; vec).
  rewrite E.
  destruct (direction ms) as [[|]|]; reflexivity.
Qed.

Lemma morph_lands_witness :
  duration initialMorphState = 4000 /\
  phaseOneDuration initialMorphState = 1300 /\
  phaseTwoDuration initialMorphState = 1300 /\
  morphParticle initialMorphState (duration initialMorphState) 2 1 particleB
  = snapToArrival (direction initialMorphState) particleB.
Proof.
  assert (H1 : duration initialMorphState = 4000) by reflexivity.
  assert (H2 : phaseOneDuration initialMorphState = 1300) by reflexivity.
  assert (H3 : phaseTwoDuration initialMorphState = 1300) by reflexivity.
  split; [exact H1|]. split; [exact H2|]. split; [exact H3|].
  exact (morph_lands initialMorphState 2 1 particleB H1 H2 H3).
Defined.

Lemma between_lerp a b t : 0 <= t <= 1 -> between a b (a + (b - a) * t).
Proof.
  intros Ht. unfold between.
  destruct (Rle_dec a b) as [H|H].
  - rewrite Rmin_left, Rmax_right by lra. nra.
  - rewrite Rmin_right, Rmax_left by lra. nra.
Qed.

Lemma currentColor_morphParticle ms e n i p :
  currentColor (morphParticle ms e n i p)
  = THREE.colorLerp (departureColor (direction ms) p)
      (arrivalColor (direction ms) p) (easeInOutCubic (e / duration ms)).
Proof.
  unfold morphParticle.
  repeat match goal with |- context [if Rltb ?a ?b then _ else _] =>
           destruct (Rltb a b) end; reflexivity.
Qed.

(** While a morph is in flight the displayed colour never leaves the
    range spanned by the two images: after a tick with no pointer
    interaction, at any time from the start of the morph up to its
    deadline, each channel of every particle's colour lies between that
    channel of the colour the morph leaves and of the colour it
    reaches. *)
Theorem morph_colour_between (props : Props) (now : R) (pos : Vector3)
    (st : State) (i : nat) (q : Particle) :
  instancedMesh st = true ->
  particles st <> [] ->
  mouseInteractionState st = none ->
  isMorphing (morph st) = true ->
  duration (morph st) = 4000 ->
  0 <= now - startTime (morph st) < 4000 ->
  particles (animate props now pos st) !! i = Some q ->
  let d := direction (morph st) in
  between (THREE.r (departureColor d q)) (THREE.r (arrivalColor d q))
    (THREE.r (currentColor q)) /\
  between (THREE.g (departureColor d q)) (THREE.g (arrivalColor d q))
    (THREE.g (currentColor q)) /\
  between (THREE.b (departureColor d q)) (THREE.b (arrivalColor d q))
    (THREE.b (currentColor q)).
Proof.
  intros Hmesh Hps Hmouse Hmorph Hdur Het Hq d.
  destruct (animate_morphing_lookup props now pos st i q)
    as (p & _ & Hs); try assumption; [rewrite Hdur; lra|].
  apply static_fields in Hs
    as (_ & _ & _ & Hcc & Hsc & Htc & _).
  destruct (morphParticle_homes (morph st) (now - startTime (morph st))
              (length (particles st)) i p)
    as (_ & _ & _ & Hsc' & Htc' & _).
  rewrite Hsc' in Hsc. rewrite Htc' in Htc.
  rewrite currentColor_morphParticle, Hdur in Hcc.
  assert (Hdep : departureColor d q = departureColor d p).
  { unfold departureColor, d. destruct (direction (morph st)) as [[|]|];
      assumption. }
  assert (Harr : arrivalColor d q = arrivalColor d p).
  { unfold arrivalColor, d. destruct (direction (morph st)) as [[|]|];
      assumption. }
  rewrite Hdep, Harr, Hcc. fold d.
  assert (Ht : 0 <= easeInOutCubic ((now - startTime (morph st)) / 4000) <= 1).
  { apply easeInOutCubic_unit.
    split; [apply Rmult_le_pos; lra|].
    apply Rmult_le_reg_r with 4000; [lra|]. unfold Rdiv.
    rewrite Rmult_assoc, Rinv_l by lra. lra. }
  simpl. repeat split; apply between_lerp; exact Ht.
Qed.

Lemma morph_colour_between_witness :
  let st := morphingPair in
  instancedMesh st = true /\
  particles st <> [] /\
  mouseInteractionState st = none /\
  isMorphing (morph st) = true /\
  duration (morph st) = 4000 /\
  0 <= 2000 - startTime (morph st) < 4000 /\
  exists q,
    particles (animate defaultProps 2000 THREE.zero st) !! 0%nat = Some q /\
    between (THREE.r (departureColor (direction (morph st)) q))
      (THREE.r (arrivalColor (direction (morph st)) q))
      (THREE.r (currentColor q)).
Proof.
  cbv zeta.
  assert (H1 : instancedMesh morphingPair = true) by reflexivity.
  assert (H2 : particles morphingPair <> []) by discriminate.
  assert (H3 : mouseInteractionState morphingPair = none) by reflexivity.
  assert (H4 : isMorphing (morph morphingPair) = true) by reflexivity.
  assert (H5 : duration (morph morphingPair) = 4000) by reflexivity.
  assert (H6 : 0 <= 2000 - startTime (morph morphingPair) < 4000)
    by (simpl; lra).
  split; [exact H1|]. split; [exact H2|]. split; [exact H3|].
  split; [exact H4|]. split; [exact H5|]. split; [exact H6|].
  assert (L : length (particles (animate defaultProps 2000 THREE.zero
                                   morphingPair)) = 2%nat)
    by (rewrite animate_length; reflexivity).
  destruct (particles (animate defaultProps 2000 THREE.zero morphingPair))
    as [|q l] eqn:E; [discriminate|].
  exists q. split; [reflexivity|].
  assert (Hq : particles (animate defaultProps 2000 THREE.zero morphingPair)
               !! 0%nat = Some q) by (rewrite E; reflexivity).
  exact (proj1 (morph_colour_between defaultProps 2000 THREE.zero
                  morphingPair 0 q H1 H2 H3 H4 H5 H6 Hq)).
Defined.

(** ** The swirl of the last phase *)

Lemma lengthSq_nonneg v : 0 <= THREE.lengthSq v.
Proof. unfold THREE.lengthSq, THREE.dot. nra. Qed.

Lemma lengthSq_multiplyScalar v k :
  THREE.lengthSq (THREE.multiplyScalar v k) = k * k * THREE.lengthSq v.
Proof. unfold THREE.lengthSq, THREE.dot. simpl. ring. Qed.

Lemma length_multiplyScalar v k :
  THREE.length (THREE.multiplyScalar v k) = Rabs k * THREE.length v.
Proof.
  unfold THREE.length. rewrite lengthSq_multiplyScalar.
  rewrite sqrt_mult by (try apply lengthSq_nonneg; nra).
  f_equal. rewrite <- sqrt_Rsqr_abs. reflexivity.
Qed.

(** [normalize] returns a unit vector, or the zero vector. *)
Lemma lengthSq_normalize v : THREE.lengthSq (THREE.normalize v) <= 1.
Proof.
  unfold THREE.normalize. cbv zeta. rewrite lengthSq_multiplyScalar.
  pose proof (lengthSq_nonneg v) as Hv.
  destruct (Reqb (THREE.length v) 0) eqn:E.
  - apply Reqb_true in E. unfold THREE.length in E.
    apply sqrt_eq_0 in E; [|exact Hv]. rewrite E. lra.
  - apply Reqb_false in E.
    assert (Hl : THREE.length v * THREE.length v = THREE.lengthSq v)
      by (unfold THREE.length; apply sqrt_sqrt, Hv).
    rewrite <- Hl. right. field. exact E.
Qed.

Lemma distanceTo_add a o : THREE.distanceTo (THREE.add a o) a = THREE.length o.
Proof.
  unfold THREE.distanceTo, THREE.length. f_equal.
  unfold THREE.distanceToSquared, THREE.lengthSq, THREE.dot. simpl. ring.
Qed.

Lemma distanceTo_sub a b : THREE.distanceTo a b = THREE.length (THREE.sub b a).
Proof.
  unfold THREE.distanceTo, THREE.length. f_equal.
  unfold THREE.distanceToSquared, THREE.lengthSq, THREE.dot. simpl. ring.
Qed.

Lemma length_nonneg v : 0 <= THREE.length v.
Proof. unfold THREE.length. apply sqrt_pos. Qed.

(** The attractor in the last phase: a point of the segment from the
    waypoint on the sphere to the arrival home, plus the swirl. *)
Lemma morphParticle_swirl ms e n i p :
  duration ms = 4000 ->
  phaseOneDuration ms = 1300 ->
  phaseTwoDuration ms = 1300 ->
  2600 <= e ->
  let home := arrivalPosition (direction ms) p in
  let progress := easeInOutCubic ((e - 2600) / 1400) in
  THREE.distanceTo (attractorPosition (morphParticle ms e n i p))
    (THREE.lerpVectors (spherePos n i) home progress)
  <= 3/10 * THREE.distanceTo (spherePos n i) home.
Proof.
  intros Hdur Hone Htwo He. cbv zeta. unfold morphParticle.
  rewrite Hone, Htwo, Hdur.
  rewrite (proj2 (Rltb_false e 1300)) by lra.
  rewrite (proj2 (Rltb_false e (1300 + 1300))) by lra.
  replace (1300 + 1300) with 2600 by ring.
  replace (4000 - 2600) with 1400 by ring.
  cbv zeta. fold (spherePos n i).
  set (perp := if Rltb _ _ then _ else _).
  assert (Hperp : THREE.length perp <= 1).
  { unfold perp.
    match goal with |- context [Rltb ?a ?b] => destruct (Rltb a b) end.
    - unfold THREE.length, THREE.lengthSq, THREE.dot. simpl.
      replace (0 * 0 + 1 * 1 + 0 * 0) with 1 by ring. rewrite sqrt_1. lra.
    - unfold THREE.length. rewrite <- sqrt_1.
      apply sqrt_le_1_alt, lengthSq_normalize. }
  simpl attractorPosition.
  change (arrivalPosition (direction ms)
            (set_currentColor p
               (THREE.colorLerp (departureColor (direction ms) p)
                  (arrivalColor (direction ms) p)
                  (easeInOutCubic (e / 4000)))))
    with (arrivalPosition (direction ms) p).
  set (home := arrivalPosition (direction ms) p).
  set (progress := easeInOutCubic ((e - 2600) / 1400)).
  rewrite distanceTo_add, length_multiplyScalar.
  rewrite (distanceTo_sub (spherePos n i) home).
  pose proof (length_nonneg (THREE.sub home (spherePos n i))) as Ht.
  pose proof (length_nonneg perp) as Hp0.
  pose proof (SIN_bound (progress * PI)) as [Hs1 Hs2].
  set (t := THREE.length (THREE.sub home (spherePos n i))) in *.
  set (sn := sin (progress * PI)) in *.
  assert (Ha : Rabs (t * (3/10) * sn) <= 3/10 * t).
  { rewrite !Rabs_mult, (Rabs_right t), (Rabs_right (3/10)) by lra.
    assert (Rabs sn <= 1) by (apply Rabs_le; lra).
    pose proof (Rabs_pos sn). nra. }
  pose proof (Rabs_pos (t * (3/10) * sn)).
  nra.
Qed.

(** In the last phase of a morph the attractor swirls, but not far: after
    a tick with no pointer interaction, between [2600] ms and the
    deadline, every attractor is within three tenths of the length of
    its flight (from its waypoint on the sphere to its arrival home) of
    the point the eased progress marks on the straight segment. *)
Theorem morph_swirl_bound (props : Props) (now : R) (pos : Vector3)
    (st : State) (i : nat) (q : Particle) :
  instancedMesh st = true ->
  particles st <> [] ->
  mouseInteractionState st = none ->
  isMorphing (morph st) = true ->
  duration (morph st) = 4000 ->
  phaseOneDuration (morph st) = 1300 ->
  phaseTwoDuration (morph st) = 1300 ->
  2600 <= now - startTime (morph st) < 4000 ->
  particles (animate props now pos st) !! i = Some q ->
  let sphere := spherePos (length (particles st)) i in
  let home := arrivalPosition (direction (morph st)) q in
  let progress :=
    easeInOutCubic ((now - startTime (morph st) - 2600) / 1400) in
  THREE.distanceTo (attractorPosition q)
    (THREE.lerpVectors sphere home progress)
  <= 3/10 * THREE.distanceTo sphere home.
Proof.
  intros Hmesh Hps Hmouse Hmorph Hdur Hone Htwo He Hq. cbv zeta.
  destruct (animate_morphing_lookup props now pos st i q)
    as (p & _ & Hs); try assumption; [rewrite Hdur; lra|].
  apply static_fields in Hs
    as (_ & Hsp & Htp & _ & _ & _ & _ & _ & Hap & _).
  destruct (morphParticle_homes (morph st) (now - startTime (morph st))
              (length (particles st)) i p)
    as (_ & Hsp' & Htp' & _).
  rewrite Hsp' in Hsp. rewrite Htp' in Htp.
  assert (Harr : arrivalPosition (direction (morph st)) q
                 = arrivalPosition (direction (morph st)) p).
  { unfold arrivalPosition. destruct (direction (morph st)) as [[|]|];
      assumption. }
  rewrite Harr, Hap.
  apply (morphParticle_swirl (morph st) (now - startTime (morph st))
           (length (particles st)) i p Hdur Hone Htwo).
  lra.
Qed.

Lemma morph_swirl_bound_witness :
  let st := morphingPair in
  instancedMesh st = true /\
  particles st <> [] /\
  mouseInteractionState st = none /\
  isMorphing (morph st) = true /\
  duration (morph st) = 4000 /\
  phaseOneDuration (morph st) = 1300 /\
  phaseTwoDuration (morph st) = 1300 /\
  2600 <= 3000 - startTime (morph st) < 4000 /\
  exists q,
    particles (animate defaultProps 3000 THREE.zero st) !! 0%nat = Some q /\
    THREE.distanceTo (attractorPosition q)
      (THREE.lerpVectors (spherePos (length (particles st)) 0)
         (arrivalPosition (direction (morph st)) q)
         (easeInOutCubic ((3000 - startTime (morph st) - 2600) / 1400)))
    <= 3/10 * THREE.distanceTo (spherePos (length (particles st)) 0)
                (arrivalPosition (direction (morph st)) q).
Proof.
  cbv zeta.
  assert (H1 : instancedMesh morphingPair = true) by reflexivity.
  assert (H2 : particles morphingPair <> []) by discriminate.
  assert (H3 : mouseInteractionState morphingPair = none) by reflexivity.
  assert (H4 : isMorphing (morph morphingPair) = true) by reflexivity.
  assert (H5 : duration (morph morphingPair) = 4000) by reflexivity.
  assert (H6 : phaseOneDuration (morph morphingPair) = 1300) by reflexivity.
  assert (H7 : phaseTwoDuration (morph morphingPair) = 1300) by reflexivity.
  assert (H8 : 2600 <= 3000 - startTime (morph morphingPair) < 4000)
    by (simpl; lra).
  split; [exact H1|]. split; [exact H2|]. split; [exact H3|].
  split; [exact H4|]. split; [exact H5|]. split; [exact H6|].
  split; [exact H7|]. split; [exact H8|].
  assert (L : length (particles (animate defaultProps 3000 THREE.zero
                                   morphingPair)) = 2%nat)
    by (rewrite animate_length; reflexivity).
  destruct (particles (animate defaultProps 3000 THREE.zero morphingPair))
    as [|q l] eqn:E; [discriminate|].
  exists q. split; [reflexivity|].
  assert (Hq : particles (animate defaultProps 3000 THREE.zero morphingPair)
               !! 0%nat = Some q) by (rewrite E; reflexivity).
  exact (morph_swirl_bound defaultProps 3000 THREE.zero morphingPair 0 q
           H1 H2 H3 H4 H5 H6 H7 H8 Hq).
Defined.

(** ** The two components side by side *)

Lemma lengthSq_sub a b :
  THREE.lengthSq (THREE.sub a b) = THREE.distanceToSquared a b.
Proof.
  unfold THREE.lengthSq, THREE.dot, THREE.distanceToSquared. simpl. ring.
Qed.

Lemma sub_coincident a b :
  THREE.distanceToSquared a b = 0 -> THREE.sub a b = THREE.zero.
Proof.
  destruct a as [ax ay az], b as [bx by' bz].
  unfold THREE.distanceToSquared, THREE.sub, THREE.zero. simpl. intros H.
  pose proof (Rle_0_sqr (ax - bx)) as Px.
  pose proof (Rle_0_sqr (ay - by')) as Py.
  pose proof (Rle_0_sqr (az - bz)) as Pz.
  unfold Rsqr in Px, Py, Pz.
  assert (Hx : (ax - bx) * (ax - bx) = 0) by lra.
  assert (Hy : (ay - by') * (ay - by') = 0) by lra.
  assert (Hz : (az - bz) * (az - bz) = 0) by lra.
  apply Rmult_integral in Hx, Hy, Hz.
  f_equal; lra.
Qed.

(** On one particle: the force step of the stand-alone component is the
    push and integration of the Framer component at the default force
    constants, unless the particle is within a thousandth of a unit of
    the pointer without being on it. *)
Lemma forceParticle_agrees pos p :
  THREE.distanceToSquared (currentPosition p) pos = 0 \/
  1/1000000 < THREE.distanceToSquared (currentPosition p) pos ->
  Simple.forceParticle none pos p
  = integrateParticle (2/100) (92/100) (pushParticle pos 60 (8/10) p).
Proof.
  intros Hd. unfold Simple.forceParticle, pushParticle. cbv zeta.
  unfold THREE.distanceTo.
  set (d2 := THREE.distanceToSquared (currentPosition p) pos) in *.
  destruct Hd as [Hd|Hd].
  - rewrite Hd, sqrt_0.
    rewrite (proj2 (Rltb_true 0 60)) by lra.
    rewrite (proj2 (Rltb_false (1/1000000) 0)) by lra. simpl andb. cbv iota.
    rewrite (sub_coincident _ _ Hd).
    assert (E : THREE.add (velocity p)
                  (THREE.multiplyScalar
                     (THREE.multiplyScalar (THREE.normalize THREE.zero)
                        ((60 - 0) / 60)) (8/10)) = velocity p).
    { unfold THREE.normalize. vec. }
    rewrite E, set_velocity_same. reflexivity.
  - rewrite (proj2 (Rltb_true (1/1000000) d2)) by exact Hd. simpl andb.
    assert (Hpos : 0 < sqrt d2) by (apply sqrt_lt_R0; lra).
    destruct (Rlt_le_dec d2 (60 * 60)) as [Hin|Hout].
    + rewrite (proj2 (Rltb_true d2 (60 * 60))) by exact Hin.
      assert (Hlt : sqrt d2 < 60).
      { rewrite <- (sqrt_mult_self 60) by lra.
        apply sqrt_lt_1_alt. lra. }
      rewrite (proj2 (Rltb_true (sqrt d2) 60)) by exact Hlt.
      assert (E : THREE.multiplyScalar
                    (THREE.multiplyScalar
                       (THREE.normalize (THREE.sub (currentPosition p) pos))
                       ((60 - sqrt d2) / 60)) (8/10)
                  = THREE.multiplyScalar (THREE.sub (currentPosition p) pos)
                      ((60 - sqrt d2) / 60 * (8/10) / sqrt d2)).
      { unfold THREE.normalize. cbv zeta. unfold THREE.length.
        rewrite lengthSq_sub. fold d2.
        rewrite (proj2 (Reqb_false (sqrt d2) 0)) by lra.
        apply Vector3_eq; simpl; field; lra. }
      rewrite E. reflexivity.
    + rewrite (proj2 (Rltb_false d2 (60 * 60))) by exact Hout.
      assert (Hge : 60 <= sqrt d2).
      { rewrite <- (sqrt_mult_self 60) at 1 by lra.
        apply sqrt_le_1_alt. lra. }
      rewrite (proj2 (Rltb_false (sqrt d2) 60)) by exact Hge.
      reflexivity.
Qed.

(** The stand-alone component is the Framer component at its default
    force constants with the push on and the collisions off: on
    particles none of which is within a thousandth of a unit of the
    pointer without being on it, the force loop of the one and the
    force stage of the other return the same particles. *)
Theorem forceLoop_agrees (props : Props) (f : ForceProps) (pos : Vector3)
    (ps : list Particle) :
  enablePushForce props = true ->
  enableCollisions props = false ->
  returnStrength f = 2/100 ->
  damping f = 92/100 ->
  pushRadius f = 60 ->
  pushStrength f = 8/10 ->
  Forall (fun p =>
            THREE.distanceToSquared (currentPosition p) pos = 0 \/
            1/1000000 < THREE.distanceToSquared (currentPosition p) pos) ps ->
  forceStage props f none pos ps = Simple.forceLoop none pos ps.
Proof.
  intros Hpush Hcoll Hrs Hdamp Hrad Hstr Hps.
  unfold forceStage, Simple.forceLoop.
  rewrite Hpush, Hcoll, Hrs, Hdamp, Hrad, Hstr.
  rewrite (proj2 (Rltb_true 0 60)) by lra. simpl andb. cbv iota zeta.
  rewrite pushStage_map by lra.
  induction Hps as [|p ps Hp Hps IH]; simpl; [reflexivity|].
  rewrite (forceParticle_agrees pos p Hp). f_equal. exact IH.
Qed.

Lemma forceLoop_agrees_witness :
  let props :=
    {| morphState := stateSource; enablePushForce := true;
       enableCollisions := false; force := defaultForce;
       appearance := defaultAppearance |} in
  enablePushForce props = true /\
  enableCollisions props = false /\
  returnStrength defaultForce = 2/100 /\
  damping defaultForce = 92/100 /\
  pushRadius defaultForce = 60 /\
  pushStrength defaultForce = 8/10 /\
  Forall (fun p =>
            THREE.distanceToSquared (currentPosition p) THREE.zero = 0 \/
            1/1000000
            < THREE.distanceToSquared (currentPosition p) THREE.zero)
    [particleA; particleB] /\
  forceStage props defaultForce none THREE.zero [particleA; particleB]
  = Simple.forceLoop none THREE.zero [particleA; particleB].
Proof.
  cbv zeta.
  assert (H : Forall (fun p =>
                THREE.distanceToSquared (currentPosition p) THREE.zero = 0 \/
                1/1000000
                < THREE.distanceToSquared (currentPosition p) THREE.zero)
              [particleA; particleB]).
  { apply Forall_cons. split.
    - left. unfold THREE.distanceToSquared. simpl. lra.
    - apply Forall_cons. split; [|apply Forall_nil; exact I].
      right. unfold THREE.distanceToSquared. simpl. lra. }
  repeat (split; [reflexivity|]). split; [exact H|].
  exact (forceLoop_agrees
           {| morphState := stateSource; enablePushForce := true;
              enableCollisions := false; force := defaultForce;
              appearance := defaultAppearance |}
           defaultForce THREE.zero [particleA; particleB] eq_refl eq_refl
           eq_refl eq_refl eq_refl eq_refl H).
Defined.

Lemma length_normalize v :
  THREE.length v <> 0 -> THREE.length (THREE.normalize v) = 1.
Proof.
  intros Hl. unfold THREE.normalize. cbv zeta.
  rewrite (proj2 (Reqb_false _ _) Hl).
  rewrite length_multiplyScalar.
  pose proof (length_nonneg v) as H0.
  assert (Hpos : 0 < THREE.length v) by lra.
  rewrite Rabs_right.
  - field. exact Hl.
  - apply Rle_ge. unfold Rdiv. rewrite Rmult_1_l.
    left. apply Rinv_0_lt_compat, Hpos.
Qed.

(** Where the two components part: a particle within a thousandth of a
    unit of the pointer, but not on it, is not pushed by the Framer
    component, and is pushed at almost the full strength by the
    stand-alone one; after the step their velocities differ by a
    vector of length [0.92 * 0.8 * (60 - distance) / 60]. *)
Theorem near_pointer_differs (pos : Vector3) (p : Particle) :
  let distanceSq := THREE.distanceToSquared (currentPosition p) pos in
  0 < distanceSq <= 1/1000000 ->
  pushParticle pos 60 (8/10) p = p /\
  THREE.length
    (THREE.sub (velocity (Simple.forceParticle none pos p))
       (velocity (integrateParticle (2/100) (92/100)
                    (pushParticle pos 60 (8/10) p))))
  = 92/100 * (8/10) * ((60 - sqrt distanceSq) / 60).
Proof.
  intros distanceSq Hd.
  assert (Hnear : pushParticle pos 60 (8/10) p = p)
    by (apply pushParticle_near; apply Hd).
  split; [exact Hnear|]. rewrite Hnear.
  assert (Hpos : 0 < sqrt distanceSq) by (apply sqrt_lt_R0, Hd).
  assert (Hlt : sqrt distanceSq < 60).
  { rewrite <- (sqrt_mult_self 60) by lra. apply sqrt_lt_1_alt.
    unfold distanceSq in *. lra. }
  set (n := THREE.normalize (THREE.sub (currentPosition p) pos)).
  assert (Hn : THREE.length n = 1).
  { apply length_normalize. unfold THREE.length.
    rewrite lengthSq_sub. fold distanceSq. lra. }
  assert (E : THREE.sub (velocity (Simple.forceParticle none pos p))
                (velocity (integrateParticle (2/100) (92/100) p))
              = THREE.multiplyScalar n
                  (92/100 * (8/10) * ((60 - sqrt distanceSq) / 60))).
  { unfold Simple.forceParticle, integrateParticle. cbv zeta.
    unfold THREE.distanceTo. fold distanceSq.
    rewrite (proj2 (Rltb_true _ _) Hlt). fold n. simpl. vec. }
  rewrite E, length_multiplyScalar, Hn.
  rewrite Rabs_right; [ring|].
  apply Rle_ge. apply Rmult_le_pos; [lra|].
  apply Rmult_le_pos; [lra|]. left. apply Rinv_0_lt_compat. lra.
Qed.

Lemma near_pointer_differs_witness :
  0 < THREE.distanceToSquared (currentPosition particleNear) THREE.zero
  <= 1/1000000 /\
  pushParticle THREE.zero 60 (8/10) particleNear = particleNear.
Proof.
  assert (H : 0 < THREE.distanceToSquared (currentPosition particleNear)
                    THREE.zero <= 1/1000000)
    by (unfold THREE.distanceToSquared; simpl; lra).
  split; [exact H|].
  exact (proj1 (near_pointer_differs THREE.zero particleNear H)).
Defined.

(** ** The application shell *)

Lemma App_sameUrl_refl u : App.sameUrl u u = true.
Proof. destruct u as [s|]; simpl; [apply String.eqb_refl | reflexivity]. Qed.

Lemma App_sameUrl_neq u v : u <> v -> App.sameUrl u v = false.
Proof.
  destruct u as [s|], v as [t|]; simpl; intros H; try reflexivity.
  - apply String.eqb_neq. congruence.
  - contradiction.
Qed.

Lemma App_step_requested st e :
  (App.morphDirection st <> None ->
   App.isMorphing st = true /\ App.truthy (App.targetImageUrl st) = true) ->
  App.morphDirection (App.step st e) <> None ->
  App.isMorphing (App.step st e) = true /\
  App.truthy (App.targetImageUrl (App.step st e)) = true.
Proof.
  intros Hinv. destruct e; simpl; try contradiction.
  unfold App.handleToggleMorph.
  destruct (App.truthy (App.targetImageUrl st)) eqn:Et; simpl.
  - destruct (App.isMorphing st) eqn:Em; simpl.
    + intros H. rewrite Et. split; [exact Em | reflexivity].
    + intros _. rewrite Et. split; reflexivity.
  - intros H. destruct (Hinv H) as [_ F]. congruence.
Qed.

(** The shell asks for a morph only when it may: in every state it can
    reach, a direction is passed to the component only while the shell
    is in its morphing state and holds a target image; and no event
    turns a requested direction into the other one: it stays, or is
    withdrawn. *)
Theorem App_requests (es : list App.Event) (e : App.Event) :
  let st := App.run App.initialState es in
  (App.morphDirection st <> None ->
   App.isMorphing st = true /\ App.truthy (App.targetImageUrl st) = true) /\
  (App.morphDirection (App.step st e) = App.morphDirection st \/
   App.morphDirection (App.step st e) = None \/
   App.morphDirection st = None).
Proof.
  cbv zeta.
  assert (Hinv : App.morphDirection (App.run App.initialState es) <> None ->
                 App.isMorphing (App.run App.initialState es) = true /\
                 App.truthy (App.targetImageUrl
                               (App.run App.initialState es)) = true).
  { assert (H : forall st,
              (App.morphDirection st <> None ->
               App.isMorphing st = true /\
               App.truthy (App.targetImageUrl st) = true) ->
              App.morphDirection (App.run st es) <> None ->
              App.isMorphing (App.run st es) = true /\
              App.truthy (App.targetImageUrl (App.run st es)) = true).
    { induction es as [|e' es IH]; intros st Hst; [exact Hst|].
      simpl. apply IH. apply App_step_requested, Hst. }
    apply H. simpl. contradiction. }
  split; [exact Hinv|].
  revert Hinv. generalize (App.run App.initialState es). intros st Hinv.
  destruct e; simpl; auto.
  unfold App.handleToggleMorph.
  destruct (_ || _) eqn:E; [left; reflexivity|].
  apply orb_false_iff in E as [_ Em]. simpl.
  destruct (App.morphDirection st) eqn:Ed; [|right; right; reflexivity].
  destruct Hinv as [F _]; [discriminate|]. congruence.
Qed.

(** Back and forth: from rest on the source image with a target image
    chosen, the button asks for a morph to the target; its completion
    puts the shell on the target image; the button then asks for the
    way back, unless the target image is the source image itself, in
    which case it asks for the target again; and the completion of what
    it asked for restores the state the shell started from. *)
Theorem App_round_trip (st : App.State) (t : String.string) :
  App.isMorphing st = false ->
  App.morphDirection st = None ->
  App.targetImageUrl st = Some t ->
  t <> String.EmptyString ->
  App.currentImageUrl st = App.sourceImageUrl st ->
  let s1 := App.handleToggleMorph st in
  let s2 := App.handleMorphComplete toTarget s1 in
  let s3 := App.handleToggleMorph s2 in
  App.morphDirection s1 = Some toTarget /\
  App.currentImageUrl s2 = Some t /\
  App.morphDirection s3
  = (if App.sameUrl (Some t) (App.sourceImageUrl st)
     then Some toTarget else Some toSource) /\
  (forall d, App.morphDirection s3 = Some d ->
             App.handleMorphComplete d s3 = st).
Proof.
  intros Hidle Hdir Htarget Ht Hcur. cbv zeta.
  assert (Htruthy : App.truthy (Some t) = true).
  { simpl. apply negb_true_iff, String.eqb_neq, Ht. }
  destruct st as [src cur tgt dir morphing]. simpl in *. subst.
  unfold App.handleToggleMorph, App.handleMorphComplete. simpl.
  rewrite Htruthy. simpl. rewrite App_sameUrl_refl. simpl.
  rewrite Htruthy. simpl.
  split; [reflexivity|]. split; [reflexivity|]. split; [reflexivity|].
  intros d Hd. destruct src as [s|].
  - destruct (String.eqb t s) eqn:E; injection Hd as <-; [|reflexivity].
    apply String.eqb_eq in E. subst. rewrite Htruthy. reflexivity.
  - injection Hd as <-. reflexivity.
Qed.

Lemma App_round_trip_witness :
  let st := App.shellWithTarget in
  App.isMorphing st = false /\
  App.morphDirection st = None /\
  App.targetImageUrl st = Some App.sampleTarget /\
  App.sampleTarget <> String.EmptyString /\
  App.currentImageUrl st = App.sourceImageUrl st /\
  App.morphDirection (App.handleToggleMorph st) = Some toTarget.
Proof.
  cbv zeta.
  assert (H4 : App.sampleTarget <> String.EmptyString) by discriminate.
  repeat (split; [reflexivity || exact H4|]).
  exact (proj1 (App_round_trip App.shellWithTarget _ eq_refl eq_refl eq_refl
                  H4 eq_refl)).
Defined.

(** ** Sampling an image *)

(** *** Rounding to a double *)

Lemma ln_2_pos : 0 < ln 2.
Proof. rewrite <- ln_1. apply ln_increasing; lra. Qed.

Lemma powerRZ_2_exp (e : Z) : powerRZ 2 e = exp (IZR e * ln 2).
Proof. rewrite powerRZ_Rpower by lra. reflexivity. Qed.

Lemma exponent_spec x :
  0 < x -> powerRZ 2 (exponent x) <= x < powerRZ 2 (exponent x + 1).
Proof.
  intros Hx. unfold exponent.
  pose proof ln_2_pos as H2.
  pose proof (Zfloor_bound (ln x / ln 2)) as [Hlo Hhi].
  set (k := Zfloor (ln x / ln 2)) in *.
  assert (Hlo' : IZR k * ln 2 <= ln x).
  { apply Rmult_le_compat_r with (r := ln 2) in Hlo; [|lra].
    unfold Rdiv in Hlo. rewrite Rmult_assoc, Rinv_l in Hlo by lra. lra. }
  assert (Hhi' : ln x < (IZR k + 1) * ln 2).
  { apply Rmult_lt_compat_r with (r := ln 2) in Hhi; [|lra].
    unfold Rdiv in Hhi. rewrite Rmult_assoc, Rinv_l in Hhi by lra. lra. }
  rewrite !powerRZ_2_exp, plus_IZR. rewrite <- (exp_ln x Hx) at 1 2.
  split.
  - destruct Hlo' as [Hlt|Heq]; [left; apply exp_increasing, Hlt|].
    rewrite Heq. right. reflexivity.
  - apply exp_increasing, Hhi'.
Qed.

Lemma exponent_unique x e :
  powerRZ 2 e <= x < powerRZ 2 (e + 1) -> exponent x = e.
Proof.
  intros [Hlo Hhi]. pose proof ln_2_pos as H2.
  assert (Hx : 0 < x).
  { apply Rlt_le_trans with (powerRZ 2 e); [apply powerRZ_lt; lra | exact Hlo]. }
  rewrite !powerRZ_2_exp, plus_IZR in *.
  assert (Hlo' : IZR e * ln 2 <= ln x).
  { destruct Hlo as [Hlt|Heq].
    - left. rewrite <- (ln_exp (IZR e * ln 2)). apply ln_increasing;
        [apply exp_pos | exact Hlt].
    - right. rewrite <- Heq, ln_exp. reflexivity. }
  assert (Hhi' : ln x < (IZR e + 1) * ln 2).
  { rewrite <- (ln_exp ((IZR e + 1) * ln 2)). apply ln_increasing; assumption. }
  unfold exponent. apply Zfloor_eq. split.
  - apply Rmult_le_reg_r with (ln 2); [lra|].
    unfold Rdiv. rewrite Rmult_assoc, Rinv_l by lra. lra.
  - apply Rmult_lt_reg_r with (ln 2); [lra|].
    unfold Rdiv. rewrite Rmult_assoc, Rinv_l by lra. lra.
Qed.

Lemma nearestEven_error m : Rabs (IZR (nearestEven m) - m) <= 1/2.
Proof.
  unfold nearestEven. cbv zeta.
  pose proof (Zfloor_bound m) as [Hlo Hhi].
  set (f := Zfloor m) in *.
  destruct (Rltb (m - IZR f) (1/2)) eqn:E1.
  - apply Rltb_true in E1. apply Rabs_le. lra.
  - apply Rltb_false in E1.
    destruct (Rltb (1/2) (m - IZR f)) eqn:E2.
    + apply Rabs_le. rewrite plus_IZR. lra.
    + apply Rltb_false in E2.
      destruct (Z.even f); apply Rabs_le; rewrite ?plus_IZR; lra.
Qed.

Lemma nearestEven_eq m (N : Z) :
  Rabs (m - IZR N) < 1/2 -> nearestEven m = N.
Proof.
  intros H. apply Rabs_def2 in H as [H1 H2].
  unfold nearestEven. cbv zeta.
  destruct (Rle_lt_dec (IZR N) m) as [Hge|Hlt].
  - assert (Ef : Zfloor m = N) by (apply Zfloor_eq; lra).
    rewrite Ef. rewrite (proj2 (Rltb_true _ _)) by lra. reflexivity.
  - assert (Ef : Zfloor m = (N - 1)%Z)
      by (apply Zfloor_eq; rewrite minus_IZR; lra).
    rewrite Ef, minus_IZR.
    rewrite (proj2 (Rltb_false _ _)) by lra.
    rewrite (proj2 (Rltb_true _ _)) by lra. lia.
Qed.

Lemma powerRZ_2_split (a b : Z) :
  powerRZ 2 (a + b) = powerRZ 2 a * powerRZ 2 b.
Proof. apply powerRZ_add. lra. Qed.

Lemma powerRZ_2_cancel (e : Z) : powerRZ 2 (52 - e) * powerRZ 2 (e - 52) = 1.
Proof.
  rewrite <- powerRZ_2_split. replace (52 - e + (e - 52))%Z with 0%Z by lia.
  reflexivity.
Qed.

(** The value of [double x] for a positive [x] of known exponent whose
    scaled value is nearer to the integer [N] than to any other. *)
Lemma double_eq x e (N : Z) :
  powerRZ 2 e <= x < powerRZ 2 (e + 1) ->
  Rabs (x * powerRZ 2 (52 - e) - IZR N) < 1/2 ->
  double x = IZR N * powerRZ 2 (e - 52).
Proof.
  intros He HN.
  assert (Hx : 0 < x).
  { apply Rlt_le_trans with (powerRZ 2 e); [apply powerRZ_lt; lra | apply He]. }
  unfold double. rewrite (proj2 (Rltb_true _ _) Hx).
  unfold roundPositive. cbv zeta. rewrite (exponent_unique x e He).
  rewrite (nearestEven_eq _ N HN). reflexivity.
Qed.

Lemma unitRoundoff_powerRZ : powerRZ 2 (-53) = unitRoundoff.
Proof.
  unfold unitRoundoff. change (-53)%Z with (Z.opp 53%Z).
  rewrite powerRZ_neg'. f_equal.
  change 53%Z with (Z.of_nat 53). rewrite <- pow_powerRZ.
  change 2 with (IZR 2). rewrite pow_IZR. reflexivity.
Qed.

(** The relative error of a rounding is at most the unit roundoff. *)
Lemma double_error x :
  0 < x -> Rabs (double x - x) <= x * unitRoundoff.
Proof.
  intros Hx. unfold double. rewrite (proj2 (Rltb_true _ _) Hx).
  unfold roundPositive. cbv zeta.
  pose proof (exponent_spec x Hx) as [Hlo _].
  set (e := exponent x) in *.
  pose proof (nearestEven_error (x * powerRZ 2 (52 - e))) as Hn.
  set (N := nearestEven (x * powerRZ 2 (52 - e))) in *.
  pose proof (powerRZ_lt 2 (e - 52) ltac:(lra)) as Hp.
  pose proof (powerRZ_2_cancel e) as Hc.
  assert (E : IZR N * powerRZ 2 (e - 52) - x
              = (IZR N - x * powerRZ 2 (52 - e)) * powerRZ 2 (e - 52)).
  { rewrite Rmult_minus_distr_r, Rmult_assoc, Hc. ring. }
  rewrite E, Rabs_mult, (Rabs_right (powerRZ 2 (e - 52))) by lra.
  assert (Eu : powerRZ 2 (e - 52) * (1/2) = powerRZ 2 e * unitRoundoff).
  { rewrite <- unitRoundoff_powerRZ, <- powerRZ_2_split.
    replace (e + -53)%Z with ((e - 52) + -1)%Z by lia.
    rewrite powerRZ_2_split. f_equal. simpl. lra. }
  assert (0 < unitRoundoff)
    by (unfold unitRoundoff; apply Rinv_0_lt_compat; lra).
  apply Rle_trans with (1/2 * powerRZ 2 (e - 52)).
  - apply Rmult_le_compat_r; lra.
  - rewrite Rmult_comm, Eu. apply Rmult_le_compat_r; lra.
Qed.

Lemma double_bounds x :
  0 < x ->
  x * (1 - unitRoundoff) <= double x <= x * (1 + unitRoundoff).
Proof.
  intros Hx. pose proof (double_error x Hx) as H.
  unfold Rabs in H. destruct (Rcase_abs _) in H; lra.
Qed.

(** *** The size of the canvas *)

Lemma INR_ge_1 n : (1 <= n)%nat -> 1 <= INR n.
Proof. intros H. apply le_INR in H. simpl in H. exact H. Qed.

Section ScaledSide.

(** One side [a] of the image, the other [b], and the side of the
    canvas that comes from [a]. *)
Variables a b : R.

Hypothesis Ha : 1 <= a.
Hypothesis Hb : 1 <= b.

Let ratio := Rmin (double (400 / a)) (double (400 / b)).
Let side := double (a * ratio).

Lemma quotient_pos : 0 < 400 / a /\ 0 < 400 / b.
Proof.
  split; apply Rmult_lt_0_compat; try lra; apply Rinv_0_lt_compat; lra.
Qed.

Lemma ratio_pos : 0 < ratio.
Proof.
  destruct quotient_pos as [Hqa Hqb].
  pose proof (double_bounds _ Hqa) as [Hla _].
  pose proof (double_bounds _ Hqb) as [Hlb _].
  unfold unitRoundoff in *. unfold ratio.
  apply Rmin_glb_lt; nra.
Qed.

(** The exact product of the side and one of the two quotients. *)
Lemma side_quotients : a * (400 / a) = 400 /\ a * (400 / b) = 400 * a / b.
Proof. split; field; lra. Qed.

Lemma product_upper :
  a * ratio <= 400 * (1 + unitRoundoff) /\
  a * ratio <= (400 * a / b) * (1 + unitRoundoff).
Proof.
  destruct quotient_pos as [Hqa Hqb].
  destruct side_quotients as [Ea Eb].
  pose proof (double_bounds _ Hqa) as [_ Hua].
  pose proof (double_bounds _ Hqb) as [_ Hub].
  split.
  - rewrite <- Ea, Rmult_assoc. apply Rmult_le_compat_l; [lra|].
    apply Rle_trans with (double (400 / a)); [apply Rmin_l | exact Hua].
  - rewrite <- Eb, Rmult_assoc. apply Rmult_le_compat_l; [lra|].
    apply Rle_trans with (double (400 / b)); [apply Rmin_r | exact Hub].
Qed.

Lemma product_lower :
  b <= 399 * a -> 400 / 399 * (1 - unitRoundoff) <= a * ratio.
Proof.
  intros Hab.
  destruct quotient_pos as [Hqa Hqb].
  destruct side_quotients as [Ea Eb].
  pose proof (double_bounds _ Hqa) as [Hla _].
  pose proof (double_bounds _ Hqb) as [Hlb _].
  assert (Hu : 0 < 1 - unitRoundoff) by (unfold unitRoundoff; lra).
  assert (Hquot : 400 / 399 <= 400 * a / b).
  { apply Rmult_le_reg_r with b; [lra|].
    unfold Rdiv at 2. rewrite Rmult_assoc, Rinv_l by lra. lra. }
  unfold ratio. apply Rmin_case.
  - apply Rle_trans with (a * (400 / a * (1 - unitRoundoff))).
    + rewrite <- Rmult_assoc, Ea. apply Rmult_le_compat_r; lra.
    + apply Rmult_le_compat_l; lra.
  - apply Rle_trans with (a * (400 / b * (1 - unitRoundoff))).
    + rewrite <- Rmult_assoc, Eb. apply Rmult_le_compat_r; lra.
    + apply Rmult_le_compat_l; lra.
Qed.

Lemma product_pos : 0 < a * ratio.
Proof. apply Rmult_lt_0_compat; [lra | apply ratio_pos]. Qed.

(** A side of the canvas is between [0] and [400]. *)
Lemma side_range : (0 <= Zfloor side <= 400)%Z.
Proof.
  pose proof product_pos as Hp.
  destruct product_upper as [Hup _].
  pose proof (double_bounds _ Hp) as [Hlo Hhi]. fold side in Hlo, Hhi.
  unfold unitRoundoff in *.
  split.
  - apply (Zfloor_lub 0). simpl. nra.
  - assert (H : (Zfloor side < 401)%Z).
    { apply lt_IZR. pose proof (Zfloor_bound side). lra. }
    lia.
Qed.

(** It is at least [1] when the other side of the image is at most
    [399] times this one. *)
Lemma side_positive : b <= 399 * a -> (1 <= Zfloor side)%Z.
Proof.
  intros Hab. pose proof product_pos as Hp.
  pose proof (product_lower Hab) as Hlow.
  pose proof (double_bounds _ Hp) as [Hlo _]. fold side in Hlo.
  unfold unitRoundoff in *.
  apply (Zfloor_lub 1). simpl. nra.
Qed.

(** It is [0] when the other side, an [unsigned long], is more than
    [400] times this one. *)
Lemma side_zero : 400 * a + 1 <= b -> b < 4294967296 -> Zfloor side = 0%Z.
Proof.
  intros Hab Hrange. pose proof product_pos as Hp.
  destruct product_upper as [_ Hup].
  pose proof (double_bounds _ Hp) as [Hlo Hhi]. fold side in Hlo, Hhi.
  assert (Hquot : 400 * a / b <= 1 - / 4294967296).
  { apply Rmult_le_reg_r with b; [lra|].
    unfold Rdiv. rewrite Rmult_assoc, Rinv_l by lra. lra. }
  unfold unitRoundoff in *.
  apply Zfloor_eq. simpl. split; nra.
Qed.

End ScaledSide.

Lemma Rmin_swap x y : Rmin x y = Rmin y x.
Proof. apply Rmin_comm. Qed.

(** Both sides of the canvas of an image with positive sides. *)
Lemma scaledSize_range width height :
  (1 <= width)%nat -> (1 <= height)%nat ->
  let '(imgWidth, imgHeight) := scaledSize width height in
  (0 <= imgWidth <= 400)%Z /\ (0 <= imgHeight <= 400)%Z.
Proof.
  intros Hw Hh. unfold scaledSize. cbv zeta.
  apply INR_ge_1 in Hw, Hh. split.
  - apply side_range; assumption.
  - rewrite Rmin_swap. apply side_range; assumption.
Qed.

Lemma scaledSize_positive width height :
  (1 <= width)%nat -> (1 <= height)%nat ->
  (height <= 399 * width)%nat -> (width <= 399 * height)%nat ->
  let '(imgWidth, imgHeight) := scaledSize width height in
  (1 <= imgWidth <= 400)%Z /\ (1 <= imgHeight <= 400)%Z.
Proof.
  intros Hw Hh Htall Hwide.
  pose proof (scaledSize_range width height Hw Hh) as Hrange.
  unfold scaledSize in *. cbv zeta in *.
  assert (E399 : INR 399 = 399) by (rewrite INR_IZR_INZ; reflexivity).
  apply le_INR in Htall, Hwide. rewrite mult_INR, E399 in Htall, Hwide.
  apply INR_ge_1 in Hw, Hh. destruct Hrange as [HW HH]. split; split.
  - apply side_positive; assumption.
  - apply HW.
  - rewrite Rmin_swap. apply side_positive; assumption.
  - apply HH.
Qed.

(** *** The scaling of three images

    The powers of two of a rounding, as literals. *)
Lemma powerRZ_2_Z k :
  powerRZ 2 k
  = match k with
    | Z0 => 1
    | Zpos p => IZR (2 ^ Zpos p)
    | Zneg p => / IZR (2 ^ Zpos p)
    end.
Proof.
  destruct k as [|p|p]; [reflexivity| |].
  - rewrite <- (positive_nat_Z p) at 2. rewrite <- pow_IZR. reflexivity.
  - unfold powerRZ. f_equal.
    rewrite <- (positive_nat_Z p). rewrite <- pow_IZR. reflexivity.
Qed.

Ltac power2 :=
  repeat match goal with
  | |- context [powerRZ 2 ?k] =>
      let k' := eval vm_compute in k in
      change k with k';
      rewrite (powerRZ_2_Z k'); cbv iota;
      try match goal with
      | |- context [IZR (2 ^ ?p)] =>
          let v := eval vm_compute in (2 ^ p)%Z in
          change (2 ^ p)%Z with v
      end
  end.

(** [double x] from the exponent [e] of [x] and the integer [N] nearest
    to its significand. *)
Ltac double_at x e N :=
  rewrite (double_eq x e N);
  [ power2 | power2; lra | power2; apply Rabs_def1; lra ].

Lemma INR_literal (n : nat) : INR n = IZR (Z.of_nat n).
Proof. apply INR_IZR_INZ. Qed.

Ltac literal n :=
  let v := eval vm_compute in (Z.of_nat n) in
  rewrite (INR_literal n); change (Z.of_nat n) with v.

Lemma Zfloor_at x (n : Z) : IZR n <= x < IZR n + 1 -> Zfloor x = n.
Proof. intros H. apply Zfloor_eq. lra. Qed.

(** An image of the size of the canvas keeps its size. *)
Lemma scaledSize_400_400 : scaledSize 400 400 = (400, 400)%Z.
Proof.
  unfold scaledSize. cbv zeta. literal 400%nat.
  double_at (400 / 400) 0%Z 4503599627370496%Z.
  rewrite Rmin_left by lra.
  double_at (400 * (4503599627370496 * / 4503599627370496)) 8%Z
    7036874417766400%Z.
  rewrite (Zfloor_at _ 400) by lra. reflexivity.
Qed.

(** A square of side [97] gets a canvas of [399] by [399]: the quotient
    [400 / 97] is rounded down, and [97] times the rounded quotient,
    rounded again, stays below [400]. *)
Lemma scaledSize_97_97 : scaledSize 97 97 = (399, 399)%Z.
Proof.
  unfold scaledSize. cbv zeta. literal 97%nat.
  double_at (400 / 97) 2%Z 4642886213784016%Z.
  rewrite Rmin_left by lra.
  double_at (97 * (4642886213784016 * / 1125899906842624)) 8%Z
    7036874417766399%Z.
  rewrite (Zfloor_at _ 399) by lra. reflexivity.
Qed.

(** An image exactly [400] times as high as wide may lose its width:
    for [49] by [19600] the product of the width and the rounded ratio
    is the double just below [1]. *)
Lemma scaledSize_49_19600 : scaledSize 49 (49 * 400) = (0, 399)%Z.
Proof.
  unfold scaledSize. cbv zeta. literal 49%nat. literal (49 * 400)%nat.
  double_at (400 / 49) 3%Z 4595509823847445%Z.
  double_at (400 / 19600) (-6)%Z 5882252574524729%Z.
  rewrite Rmin_right by lra.
  double_at (49 * (5882252574524729 * / 288230376151711744)) (-1)%Z
    9007199254740991%Z.
  double_at (19600 * (5882252574524729 * / 288230376151711744)) 8%Z
    7036874417766399%Z.
  rewrite (Zfloor_at _ 0), (Zfloor_at _ 399) by lra. reflexivity.
Qed.

(** Beyond the range of [image.width] the rounding can hide that an
    image is more than [400] times as high as wide: the quotient for a
    height of [400 * 2^50 + 1] rounds to [2^-50], and a width of [2^50]
    keeps a pixel. *)
Lemma scaledSize_beyond_range :
  scaledSize (2 ^ 50) (400 * 2 ^ 50 + 1) = (1, 400)%Z.
Proof.
  unfold scaledSize. cbv zeta.
  assert (Ew : INR (2 ^ 50) = 1125899906842624).
  { rewrite pow_INR. change (INR 2) with (IZR 2). rewrite pow_IZR.
    reflexivity. }
  assert (Eh : INR (400 * 2 ^ 50 + 1) = 450359962737049601).
  { rewrite plus_INR, mult_INR, Ew, (INR_literal 400).
    change (Z.of_nat 400) with 400%Z. simpl INR. lra. }
  rewrite Ew, Eh.
  double_at (400 / 1125899906842624) (-42)%Z 7036874417766400%Z.
  double_at (400 / 450359962737049601) (-51)%Z 9007199254740992%Z.
  rewrite Rmin_right by lra.
  double_at (1125899906842624
             * (9007199254740992 * / 10141204801825835211973625643008))
    0%Z 4503599627370496%Z.
  double_at (450359962737049601
             * (9007199254740992 * / 10141204801825835211973625643008))
    8%Z 7036874417766400%Z.
  rewrite (Zfloor_at _ 1), (Zfloor_at _ 400) by lra. reflexivity.
Qed.

(** *** Images that cannot be sampled *)

(** An image cannot be sampled when it has no width or no height, or is
    more than [400] times as long as it is wide, its sides being in the
    range of [image.width], an [unsigned long]: the canvas then has a
    side of [0], [getImageData] throws, and the callback is never
    called, whatever the pixels, the density and the fuel. *)
Theorem sampling_size_error (fuel : nat) (width height : nat)
    (imageData : list Z) (density : R) :
  unsignedLong width -> unsignedLong height ->
  width = 0%nat \/ height = 0%nat \/
  (400 * width < height)%nat \/ (400 * height < width)%nat ->
  getImageParticleData fuel true width height imageData density
  = Some SizeError.
Proof.
  intros Hwr Hhr H. unfold getImageParticleData. simpl negb. cbv iota.
  destruct (width =? 0)%nat eqn:Ew; [reflexivity|].
  destruct (height =? 0)%nat eqn:Eh; [reflexivity|].
  apply Nat.eqb_neq in Ew, Eh. simpl orb. cbv iota.
  assert (Hw : (1 <= width)%nat) by lia.
  assert (Hh : (1 <= height)%nat) by lia.
  pose proof (INR_ge_1 _ Hw) as Hw1. pose proof (INR_ge_1 _ Hh) as Hh1.
  unfold unsignedLong in Hwr, Hhr.
  assert (E400 : INR 400 = 400) by (rewrite INR_IZR_INZ; reflexivity).
  unfold scaledSize. cbv zeta.
  destruct H as [H|[H|[H|H]]]; try lia.
  - assert (Hlong : 400 * INR width + 1 <= INR height).
    { assert (H' : (400 * width + 1 <= height)%nat) by lia.
      apply le_INR in H'.
      rewrite plus_INR, mult_INR, E400 in H'. simpl in H'. exact H'. }
    rewrite (side_zero (INR width) (INR height) Hw1 Hh1 Hlong Hhr).
    reflexivity.
  - assert (Hlong : 400 * INR height + 1 <= INR width).
    { assert (H' : (400 * height + 1 <= width)%nat) by lia.
      apply le_INR in H'.
      rewrite plus_INR, mult_INR, E400 in H'. simpl in H'. exact H'. }
    rewrite Rmin_swap.
    rewrite (side_zero (INR height) (INR width) Hh1 Hw1 Hlong Hwr).
    change (0 =? 0)%Z with true. rewrite orb_true_r. reflexivity.
Qed.

Lemma sampling_size_error_witness :
  unsignedLong 1 /\ unsignedLong 500 /\
  (1 = 0 \/ 500 = 0 \/ 400 * 1 < 500 \/ 400 * 500 < 1)%nat /\
  getImageParticleData 0 true 1 500 [] 4 = Some SizeError.
Proof.
  assert (H1 : unsignedLong 1)
    by (unfold unsignedLong; rewrite INR_IZR_INZ; apply IZR_lt; reflexivity).
  assert (H500 : unsignedLong 500)
    by (unfold unsignedLong; rewrite INR_IZR_INZ; apply IZR_lt; reflexivity).
  assert (H : (1 = 0 \/ 500 = 0 \/ 400 * 1 < 500 \/ 400 * 500 < 1)%nat)
    by (right; right; left; lia).
  split; [exact H1|]. split; [exact H500|]. split; [exact H|].
  exact (sampling_size_error 0 1 500 [] 4 H1 H500 H).
Defined.

(** *** The loops *)

Section Scan.

Variables (imageData : list Z) (imgWidth imgHeight : Z) (density : R).

Lemma scanRow_returns fuel y x data :
  0 < density ->
  x <= IZR imgWidth + density ->
  IZR imgWidth - x + density < density * INR fuel ->
  exists data',
    scanRow fuel imageData imgWidth imgHeight density y x data = Some data'.
Proof.
  intros Hd. revert x data.
  induction fuel as [|fuel IH]; intros x data Hx Hfuel.
  - simpl in Hfuel. lra.
  - rewrite S_INR in Hfuel. simpl.
    destruct (Rltb x (IZR imgWidth)) eqn:E; [|eexists; reflexivity].
    apply Rltb_true in E. apply IH; nra.
Qed.

Lemma scanRows_returns fuel rowFuel y data :
  0 < density ->
  0 <= IZR imgWidth ->
  IZR imgWidth + density < density * INR rowFuel ->
  y <= IZR imgHeight + density ->
  IZR imgHeight - y + density < density * INR fuel ->
  exists data',
    scanRows fuel rowFuel imageData imgWidth imgHeight density y data
    = Some data'.
Proof.
  intros Hd Hw Hrow. revert y data.
  induction fuel as [|fuel IH]; intros y data Hy Hfuel.
  - simpl in Hfuel. lra.
  - rewrite S_INR in Hfuel. simpl.
    destruct (Rltb y (IZR imgHeight)) eqn:E; [|eexists; reflexivity].
    apply Rltb_true in E.
    destruct (scanRow_returns rowFuel y 0 data Hd) as [data' ->]; [lra..|].
    apply IH; nra.
Qed.

Lemma scanRow_hangs fuel y x data :
  density <= 0 -> x < IZR imgWidth ->
  scanRow fuel imageData imgWidth imgHeight density y x data = None.
Proof.
  intros Hd. revert x data.
  induction fuel as [|fuel IH]; intros x data Hx; [reflexivity|].
  simpl. rewrite (proj2 (Rltb_true _ _) Hx). apply IH. lra.
Qed.

Lemma sampleAt_position x y s :
  sampleAt imageData imgWidth imgHeight x y = Some s ->
  position s
  = THREE.mkVector3 (x - IZR imgWidth / 2) (- y + IZR imgHeight / 2) 0.
Proof.
  unfold sampleAt. cbv zeta.
  destruct (pixel imageData _) as [alpha|]; [|discriminate].
  destruct (128 <? alpha)%Z; [|discriminate].
  intros H. injection H as <-. reflexivity.
Qed.

Lemma scanRow_Forall (P : Sample -> Prop) fuel y x data data' :
  0 < density -> 0 <= x ->
  (forall x' s, 0 <= x' < IZR imgWidth ->
                sampleAt imageData imgWidth imgHeight x' y = Some s -> P s) ->
  Forall P data ->
  scanRow fuel imageData imgWidth imgHeight density y x data = Some data' ->
  Forall P data'.
Proof.
  intros Hd Hx HP. revert x data Hx.
  induction fuel as [|fuel IH]; intros x data Hx Hdata H; [discriminate|].
  simpl in H. destruct (Rltb x (IZR imgWidth)) eqn:E.
  - apply Rltb_true in E. apply (IH (x + density)) in H; [exact H | lra |].
    destruct (sampleAt imageData imgWidth imgHeight x y) as [s|] eqn:Es;
      [|exact Hdata].
    apply Forall_app. split; [exact Hdata|].
    apply Forall_cons. split; [|apply Forall_nil; exact I].
    apply (HP x s); [lra | exact Es].
  - injection H as <-. exact Hdata.
Qed.

Lemma scanRows_Forall (P : Sample -> Prop) fuel rowFuel y data data' :
  0 < density -> 0 <= y ->
  (forall x' y' s, 0 <= x' < IZR imgWidth -> 0 <= y' < IZR imgHeight ->
                   sampleAt imageData imgWidth imgHeight x' y' = Some s ->
                   P s) ->
  Forall P data ->
  scanRows fuel rowFuel imageData imgWidth imgHeight density y data
  = Some data' ->
  Forall P data'.
Proof.
  intros Hd Hy HP. revert y data Hy.
  induction fuel as [|fuel IH]; intros y data Hy Hdata H; [discriminate|].
  simpl in H. destruct (Rltb y (IZR imgHeight)) eqn:E.
  - apply Rltb_true in E.
    destruct (scanRow rowFuel imageData imgWidth imgHeight density y 0 data)
      as [data1|] eqn:E1; [|discriminate].
    apply (IH (y + density)) in H; [exact H | lra |].
    apply (scanRow_Forall P rowFuel y 0 data data1 Hd); try assumption;
      [lra|].
    intros x' s Hx' Hs. apply (HP x' y s); [exact Hx' | lra | exact Hs].
  - injection H as <-. exact Hdata.
Qed.

(** Bytes none of which exceeds [128] give no sample, wherever they are
    read. *)
Lemma sampleAt_transparent x y :
  Forall (fun byte => (byte <= 128)%Z) imageData ->
  sampleAt imageData imgWidth imgHeight x y = None.
Proof.
  intros Hall. unfold sampleAt. cbv zeta.
  destruct (pixel imageData _) as [alpha|] eqn:E; [|reflexivity].
  unfold pixel in E. cbv zeta in E.
  destruct (_ && _); [|discriminate].
  rewrite Forall_lookup in Hall. apply Hall in E.
  destruct (Z.ltb_spec 128 alpha); [lia | reflexivity].
Qed.

Lemma scanRow_transparent fuel y x data data' :
  Forall (fun byte => (byte <= 128)%Z) imageData ->
  scanRow fuel imageData imgWidth imgHeight density y x data = Some data' ->
  data' = data.
Proof.
  intros Hall. revert x data.
  induction fuel as [|fuel IH]; intros x data H; [discriminate|].
  simpl in H. rewrite sampleAt_transparent in H by exact Hall.
  destruct (Rltb x (IZR imgWidth)); [apply (IH _ _ H)|].
  injection H as <-. reflexivity.
Qed.

Lemma scanRows_transparent fuel rowFuel y data data' :
  Forall (fun byte => (byte <= 128)%Z) imageData ->
  scanRows fuel rowFuel imageData imgWidth imgHeight density y data
  = Some data' ->
  data' = data.
Proof.
  intros Hall. revert y data.
  induction fuel as [|fuel IH]; intros y data H; [discriminate|].
  simpl in H. destruct (Rltb y (IZR imgHeight)).
  - destruct (scanRow rowFuel imageData imgWidth imgHeight density y 0 data)
      as [data1|] eqn:E1; [|discriminate].
    apply scanRow_transparent in E1; [|exact Hall]. subst data1.
    apply (IH _ _ H).
  - injection H as <-. reflexivity.
Qed.

End Scan.

Lemma scanRows_S fuel rowFuel imageData imgWidth imgHeight density y data :
  scanRows (S fuel) rowFuel imageData imgWidth imgHeight density y data
  = if Rltb y (IZR imgHeight) then
      match scanRow rowFuel imageData imgWidth imgHeight density y 0 data
      with
      | Some data =>
          scanRows fuel rowFuel imageData imgWidth imgHeight density
            (y + density) data
      | None => None
      end
    else Some data.
Proof. reflexivity. Qed.

(** *** Images that can be sampled *)

(** The canvas of an image of positive sides, neither more than [399]
    times the other: both sides between [1] and [400]. *)
Lemma scaledSize_sampleable width height :
  (1 <= width)%nat -> (1 <= height)%nat ->
  (height <= 399 * width)%nat -> (width <= 399 * height)%nat ->
  exists imgWidth imgHeight,
    scaledSize width height = (imgWidth, imgHeight) /\
    (1 <= imgWidth <= 400)%Z /\ (1 <= imgHeight <= 400)%Z.
Proof.
  intros Hw Hh Htall Hwide.
  pose proof (scaledSize_positive width height Hw Hh Htall Hwide) as H.
  destruct (scaledSize width height) as [imgWidth imgHeight].
  exists imgWidth, imgHeight. split; [reflexivity | exact H].
Qed.

(** On such an image, with a context, the call is the scan of the
    canvas. *)
Lemma sampling_call width height imageData density :
  (1 <= width)%nat -> (1 <= height)%nat ->
  (height <= 399 * width)%nat -> (width <= 399 * height)%nat ->
  exists imgWidth imgHeight,
    1 <= IZR imgWidth <= 400 /\ 1 <= IZR imgHeight <= 400 /\
    forall fuel,
      getImageParticleData fuel true width height imageData density
      = match scanRows fuel fuel imageData imgWidth imgHeight density
                0 [] with
        | Some data => Some (Completed data)
        | None => None
        end.
Proof.
  intros Hw Hh Htall Hwide.
  destruct (scaledSize_sampleable width height Hw Hh Htall Hwide)
    as (imgWidth & imgHeight & Esize & HW & HH).
  exists imgWidth, imgHeight.
  split; [split; apply IZR_le; lia|].
  split; [split; apply IZR_le; lia|].
  intros fuel. unfold getImageParticleData. simpl negb. cbv iota.
  replace (width =? 0)%nat with false by (symmetry; apply Nat.eqb_neq; lia).
  replace (height =? 0)%nat with false
    by (symmetry; apply Nat.eqb_neq; lia).
  simpl orb. cbv iota. rewrite Esize.
  replace (imgWidth =? 0)%Z with false by (symmetry; apply Z.eqb_neq; lia).
  replace (imgHeight =? 0)%Z with false
    by (symmetry; apply Z.eqb_neq; lia).
  reflexivity.
Qed.

Lemma sampling_completes width height imageData density fuel :
  (1 <= width)%nat -> (1 <= height)%nat ->
  (height <= 399 * width)%nat -> (width <= 399 * height)%nat ->
  0 < density ->
  400 + density < density * INR fuel ->
  exists data,
    getImageParticleData fuel true width height imageData density
    = Some (Completed data).
Proof.
  intros Hw Hh Htall Hwide Hd Hfuel.
  destruct (sampling_call width height imageData density Hw Hh Htall Hwide)
    as (imgWidth & imgHeight & HWr & HHr & Hcall).
  rewrite Hcall.
  destruct (scanRows_returns imageData imgWidth imgHeight density
              fuel fuel 0 [] Hd) as [data ->]; try lra.
  exists data. reflexivity.
Qed.

(** A density that is a whole number of pixels, as the property control
    of the component gives it, is positive. *)
Lemma whole_density_pos density :
  (exists d : nat, (1 <= d)%nat /\ density = INR d) -> 0 < density.
Proof.
  intros (d & Hd & ->). apply INR_ge_1 in Hd. lra.
Qed.

(** When the call returns: on an image of positive sides, neither more
    than [399] times the other, with a context, a density of a whole
    number of pixels, [1] or more, lets the call end in [onComplete] as
    soon as the fuel covers [400 / density + 1] rounds of a loop; with
    a density of [0] or less no fuel is enough: the loops never end and
    the callback is never called. *)
Theorem sampling_returns_iff (width height : nat) (imageData : list Z)
    (density : R) :
  (1 <= width)%nat -> (1 <= height)%nat ->
  (height <= 399 * width)%nat -> (width <= 399 * height)%nat ->
  ((exists d : nat, (1 <= d)%nat /\ density = INR d) ->
   forall fuel, 400 + density < density * INR fuel ->
     exists data,
       getImageParticleData fuel true width height imageData density
       = Some (Completed data)) /\
  (density <= 0 ->
   forall fuel,
     getImageParticleData fuel true width height imageData density = None).
Proof.
  intros Hw Hh Htall Hwide. split.
  - intros Hd fuel Hfuel. apply whole_density_pos in Hd.
    destruct (sampling_call width height imageData density Hw Hh Htall Hwide)
      as (imgWidth & imgHeight & HWr & HHr & Hcall).
    rewrite Hcall.
    destruct (scanRows_returns imageData imgWidth imgHeight density
                fuel fuel 0 [] Hd) as [data ->]; try lra.
    exists data. reflexivity.
  - intros Hd fuel.
    destruct (sampling_call width height imageData density Hw Hh Htall Hwide)
      as (imgWidth & imgHeight & HWr & HHr & Hcall).
    rewrite Hcall.
    destruct fuel as [|fuel]; [reflexivity|].
    assert (Hrow : scanRow (S fuel) imageData imgWidth imgHeight density
                     0 0 [] = None)
      by (apply scanRow_hangs; lra).
    rewrite scanRows_S, Hrow.
    destruct (Rltb 0 (IZR imgHeight)) eqn:E; [reflexivity|].
    apply Rltb_false in E. lra.
Qed.

Lemma sampling_returns_iff_witness :
  (1 <= 97)%nat /\ (1 <= 97)%nat /\
  (97 <= 399 * 97)%nat /\ (97 <= 399 * 97)%nat /\
  (exists data,
     getImageParticleData 102 true 97 97 smallImage (INR 4)
     = Some (Completed data)) /\
  getImageParticleData 102 true 97 97 smallImage 0 = None.
Proof.
  assert (H1 : (1 <= 97)%nat) by lia.
  assert (H2 : (97 <= 399 * 97)%nat) by lia.
  split; [exact H1|]. split; [exact H1|]. split; [exact H2|].
  split; [exact H2|]. split.
  - apply (sampling_returns_iff 97 97 smallImage (INR 4) H1 H1 H2 H2).
    + exists 4%nat. split; [lia | reflexivity].
    + literal 4%nat. literal 102%nat. lra.
  - apply (sampling_returns_iff 97 97 smallImage 0 H1 H1 H2 H2). lra.
Defined.

(** *** The samples *)

(** Every sample lies in the frame: when a call with a positive density
    ends in [onComplete], each position it delivers is in the plane
    [z = 0], with [x] in [[-200, 200)] and [y] in [(-200, 200]]. *)
Theorem sampling_in_frame (fuel : nat) (context : bool) (width height : nat)
    (imageData : list Z) (density : R) (data : list Sample) :
  0 < density ->
  getImageParticleData fuel context width height imageData density
  = Some (Completed data) ->
  Forall inFrame data.
Proof.
  intros Hd. unfold getImageParticleData.
  destruct context; simpl negb; cbv iota; [|discriminate].
  destruct (width =? 0)%nat eqn:Ew; [discriminate|].
  destruct (height =? 0)%nat eqn:Eh; [discriminate|].
  apply Nat.eqb_neq in Ew, Eh. simpl orb. cbv iota.
  pose proof (scaledSize_range width height ltac:(lia) ltac:(lia)) as Hb.
  destruct (scaledSize width height) as [imgWidth imgHeight].
  destruct Hb as (HW & HH).
  destruct (_ || _); [discriminate|].
  destruct (scanRows _ _ _ _ _ _ _ _) as [data'|] eqn:E; [|discriminate].
  intros H. injection H as <-.
  assert (HWr : IZR imgWidth <= 400) by (apply IZR_le; lia).
  assert (HHr : IZR imgHeight <= 400) by (apply IZR_le; lia).
  apply (scanRows_Forall imageData imgWidth imgHeight density inFrame
           fuel fuel 0 [] data' Hd); [lra | | apply Forall_nil; exact I | exact E].
  intros x y s Hx Hy Hs.
  apply sampleAt_position in Hs. unfold inFrame. rewrite Hs. simpl.
  split; [reflexivity|]. split; lra.
Qed.

Lemma sampling_in_frame_witness :
  0 < 400 /\
  exists data,
    getImageParticleData 3 true 400 400 whiteImage 400
    = Some (Completed data) /\ Forall inFrame data.
Proof.
  assert (Hd : 0 < 400) by lra.
  split; [exact Hd|].
  destruct (sampling_completes 400 400 whiteImage 400 3)
    as [data Hdata]; [lia | lia | lia | lia | exact Hd | simpl; lra |].
  exists data. split; [exact Hdata|].
  exact (sampling_in_frame 3 true 400 400 whiteImage 400 data Hd Hdata).
Defined.

Theorem sampling_transparent (fuel : nat) (context : bool)
    (width height : nat) (imageData : list Z) (density : R)
    (data : list Sample) (props : Props) (st : State) :
  Forall (fun byte => (byte <= 128)%Z) imageData ->
  getImageParticleData fuel context width height imageData density
  = Some (Completed data) ->
  data = [] /\ sourceLoaded props data st = st.
Proof.
  intros Hall. unfold getImageParticleData.
  destruct context; simpl negb; cbv iota; [|discriminate].
  destruct (_ || _); [discriminate|].
  destruct (scaledSize width height) as [imgWidth imgHeight].
  destruct (_ || _); [discriminate|].
  destruct (scanRows _ _ _ _ _ _ _ _) as [data'|] eqn:E; [|discriminate].
  intros H. injection H as <-.
  apply scanRows_transparent in E; [|exact Hall]. subst data'.
  split; reflexivity.
Qed.

Lemma sampling_transparent_witness :
  Forall (fun byte => (byte <= 128)%Z) clearImage /\
  exists data,
    getImageParticleData 3 true 400 400 clearImage 400
    = Some (Completed data) /\
    data = [] /\
    sourceLoaded defaultProps data (initialState defaultProps)
    = initialState defaultProps.
Proof.
  assert (Hall : Forall (fun byte => (byte <= 128)%Z) clearImage).
  { unfold clearImage. apply Forall_forall. intros byte Hin.
    apply list_elem_of_In, repeat_spec in Hin. subst. lia. }
  split; [exact Hall|].
  destruct (sampling_completes 400 400 clearImage 400 3)
    as [data Hdata]; [lia | lia | lia | lia | lra | simpl; lra |].
  exists data. split; [exact Hdata|].
  exact (sampling_transparent 3 true 400 400 clearImage 400 data
           defaultProps (initialState defaultProps) Hall Hdata).
Defined.


(** *** The lattice *)

Section Lattice.

Variables (imageData : list Z) (imgWidth imgHeight : Z) (density : R).

(** The number of rounds of a loop up to the bound [W]. *)
Lemma rounds_unique (W : R) (a b : nat) :
  (forall j, (j < a)%nat -> INR j * density < W) -> W <= INR a * density ->
  (forall j, (j < b)%nat -> INR j * density < W) -> W <= INR b * density ->
  a = b.
Proof.
  intros Ha1 Ha2 Hb1 Hb2.
  destruct (Nat.lt_trichotomy a b) as [H|[H|H]]; [|exact H|].
  - specialize (Hb1 a H). lra.
  - specialize (Ha1 b H). lra.
Qed.

Lemma scanRow_lattice fuel y k x data data' :
  x = INR k * density ->
  scanRow fuel imageData imgWidth imgHeight density y x data = Some data' ->
  exists n,
    (forall j, (k <= j < k + n)%nat -> INR j * density < IZR imgWidth) /\
    IZR imgWidth <= INR (k + n) * density /\
    data' = data ++ omap (fun i => sampleAt imageData imgWidth imgHeight
                                     (INR i * density) y) (seq k n).
Proof.
  revert k x data. induction fuel as [|fuel IH]; intros k x data Hx H;
    [discriminate|].
  subst x.
  simpl in H. destruct (Rltb (INR k * density) (IZR imgWidth)) eqn:E.
  - apply Rltb_true in E.
    apply (IH (S k)) in H as (n & Hlt & Hge & ->);
      [|rewrite S_INR; ring].
    exists (S n). split; [|split].
    + intros j Hj. destruct (decide (j = k)) as [->|Hne]; [exact E|].
      apply Hlt. lia.
    + replace (k + S n)%nat with (S k + n)%nat by lia. exact Hge.
    + simpl. destruct (sampleAt imageData imgWidth imgHeight
                         (INR k * density) y);
        [rewrite <- app_assoc|]; reflexivity.
  - apply Rltb_false in E. injection H as <-.
    exists 0%nat. split; [intros j Hj; lia|].
    split; [rewrite Nat.add_0_r; exact E|].
    simpl. rewrite app_nil_r. reflexivity.
Qed.

Lemma scanRows_lattice fuel rowFuel nx k y data data' :
  (forall j, (j < nx)%nat -> INR j * density < IZR imgWidth) ->
  IZR imgWidth <= INR nx * density ->
  y = INR k * density ->
  scanRows fuel rowFuel imageData imgWidth imgHeight density y data
  = Some data' ->
  exists n,
    (forall j, (k <= j < k + n)%nat -> INR j * density < IZR imgHeight) /\
    IZR imgHeight <= INR (k + n) * density /\
    data' = data ++ (seq k n ≫= fun j =>
                       omap (fun i => sampleAt imageData imgWidth imgHeight
                                        (INR i * density) (INR j * density))
                         (seq 0 nx)).
Proof.
  intros Hnx1 Hnx2. revert k y data.
  induction fuel as [|fuel IH]; intros k y data Hy H; [discriminate|].
  subst y.
  simpl in H. destruct (Rltb (INR k * density) (IZR imgHeight)) eqn:E.
  - apply Rltb_true in E.
    destruct (scanRow rowFuel imageData imgWidth imgHeight density
                (INR k * density) 0 data) as [data1|] eqn:E1; [|discriminate].
    apply (scanRow_lattice _ _ 0%nat) in E1 as (n1 & Hlt1 & Hge1 & ->);
      [|simpl; ring].
    assert (n1 = nx) as ->.
    { apply (rounds_unique (IZR imgWidth)); try assumption.
      intros j Hj. apply Hlt1. lia. }
    apply (IH (S k)) in H as (n & Hlt & Hge & ->);
      [|rewrite S_INR; ring].
    exists (S n). split; [|split].
    + intros j Hj. destruct (decide (j = k)) as [->|Hne]; [exact E|].
      apply Hlt. lia.
    + replace (k + S n)%nat with (S k + n)%nat by lia. exact Hge.
    + simpl. rewrite <- app_assoc. reflexivity.
  - apply Rltb_false in E. injection H as <-.
    exists 0%nat. split; [intros j Hj; lia|].
    split; [rewrite Nat.add_0_r; exact E|].
    simpl. rewrite app_nil_r. reflexivity.
Qed.

End Lattice.


Lemma rounds_bounds (W density : R) (n : nat) :
  0 < W ->
  (forall j, (j < n)%nat -> INR j * density < W) ->
  W <= INR n * density ->
  (INR n - 1) * density < W <= INR n * density.
Proof.
  intros HW Hlt Hge. split; [|exact Hge].
  destruct n as [|n]; [simpl in Hge; lra|].
  rewrite S_INR. replace (INR n + 1 - 1) with (INR n) by ring.
  apply Hlt. lia.
Qed.

(** What a call delivers: with a density of a whole number of pixels,
    [1] or more, the data passed to [onComplete] are the samples of the
    lattice of step [density] on the canvas, row by row from the top,
    those and no others, in that order; the lattice has as many points
    a row as steps fit in the width of the canvas, and as many rows as
    fit in its height. *)
Theorem sampling_lattice (fuel : nat) (context : bool) (width height : nat)
    (imageData : list Z) (density : R) (data : list Sample) :
  (exists d : nat, (1 <= d)%nat /\ density = INR d) ->
  getImageParticleData fuel context width height imageData density
  = Some (Completed data) ->
  let '(imgWidth, imgHeight) := scaledSize width height in
  exists nx ny,
    (INR nx - 1) * density < IZR imgWidth <= INR nx * density /\
    (INR ny - 1) * density < IZR imgHeight <= INR ny * density /\
    data = latticeSamples imageData imgWidth imgHeight density nx ny.
Proof.
  intros Hd. apply whole_density_pos in Hd. unfold getImageParticleData.
  destruct context; simpl negb; cbv iota; [|discriminate].
  destruct (width =? 0)%nat eqn:Ew; [discriminate|].
  destruct (height =? 0)%nat eqn:Eh; [discriminate|].
  apply Nat.eqb_neq in Ew, Eh. simpl orb. cbv iota.
  pose proof (scaledSize_range width height ltac:(lia) ltac:(lia)) as Hb.
  destruct (scaledSize width height) as [imgWidth imgHeight].
  destruct Hb as (HW & HH).
  destruct (imgWidth =? 0)%Z eqn:EW; [discriminate|].
  destruct (imgHeight =? 0)%Z eqn:EH; [discriminate|].
  apply Z.eqb_neq in EW, EH. simpl orb. cbv iota.
  assert (HWr : 0 < IZR imgWidth) by (apply IZR_lt; lia).
  assert (HHr : 0 < IZR imgHeight) by (apply IZR_lt; lia).
  destruct (scanRows _ _ _ _ _ _ _ _) as [data'|] eqn:E; [|discriminate].
  intros H. injection H as <-.
  (* the first row gives the number of points a row *)
  assert (Hrow : exists nx,
            (forall j, (j < nx)%nat -> INR j * density < IZR imgWidth) /\
            IZR imgWidth <= INR nx * density).
  { destruct fuel as [|fuel]; [discriminate|].
    rewrite scanRows_S in E.
    rewrite (proj2 (Rltb_true 0 (IZR imgHeight))) in E by lra.
    destruct (scanRow (S fuel) imageData imgWidth imgHeight density 0 0 [])
      as [data1|] eqn:E1; [|discriminate].
    apply (scanRow_lattice imageData imgWidth imgHeight density
             (S fuel) 0 0%nat) in E1 as (n1 & Hlt1 & Hge1 & _);
      [|simpl; ring].
    exists n1. split; [intros j Hj; apply Hlt1; lia | exact Hge1]. }
  destruct Hrow as (nx & Hnx1 & Hnx2).
  assert (H0 : 0 = INR 0 * density) by (simpl; ring).
  destruct (scanRows_lattice imageData imgWidth imgHeight density
              fuel fuel nx 0%nat 0 [] data' Hnx1 Hnx2 H0 E)
    as (ny & Hny1 & Hny2 & ->).
  exists nx, ny.
  split; [apply rounds_bounds; assumption|].
  split; [apply rounds_bounds; try assumption; intros j Hj; apply Hny1; lia|].
  reflexivity.
Qed.

Lemma sampling_lattice_witness :
  (exists d : nat, (1 <= d)%nat /\ INR 4 = INR d) /\
  exists data,
    getImageParticleData 102 true 97 97 smallImage (INR 4)
    = Some (Completed data) /\
    let '(imgWidth, imgHeight) := scaledSize 97 97 in
    exists nx ny,
      (INR nx - 1) * INR 4 < IZR imgWidth <= INR nx * INR 4 /\
      (INR ny - 1) * INR 4 < IZR imgHeight <= INR ny * INR 4 /\
      data = latticeSamples smallImage imgWidth imgHeight (INR 4) nx ny.
Proof.
  assert (Hd : exists d : nat, (1 <= d)%nat /\ INR 4 = INR d)
    by (exists 4%nat; split; [lia | reflexivity]).
  split; [exact Hd|].
  destruct (sampling_completes 97 97 smallImage (INR 4) 102)
    as [data Hdata];
    [lia | lia | lia | lia | literal 4%nat; lra
    | literal 4%nat; literal 102%nat; lra |].
  exists data. split; [exact Hdata|].
  exact (sampling_lattice 102 true 97 97 smallImage (INR 4) data Hd Hdata).
Defined.

(** ** Rest *)

Lemma integrateParticle_atRest returnStrength damping p :
  atRest p -> integrateParticle returnStrength damping p = p.
Proof.
  intros [Hpos Hvel]. destruct p. simpl in *. subst.
  unfold integrateParticle, set_currentPosition, set_velocity. simpl.
  f_equal; vec.
Qed.

Lemma map_fixed (g : Particle -> Particle) (ps : list Particle) :
  Forall (fun p => g p = p) ps -> map g ps = ps.
Proof.
  induction 1 as [|p ps Hp _ IH]; simpl; [reflexivity|].
  rewrite Hp, IH. reflexivity.
Qed.

(** A cloud at rest stays at rest: when no morph is in flight and no
    pointer interaction is active, the vibrancy has settled, every
    particle is at rest on its attractor and out of the pointer's
    reach, and no two particles overlap, a tick returns the particles
    exactly as they are, whatever the animated force props are and
    however they are still moving towards the props. *)
Theorem rest_is_fixed (props : Props) (now : R) (pos : Vector3)
    (st : State) :
  instancedMesh st = true ->
  particles st <> [] ->
  mouseInteractionState st = none ->
  isMorphing (morph st) = false ->
  vibrancy (animatedAppearance st) = vibrancy (appearance props) ->
  let f := tickForce props st in
  Forall (fun p =>
            atRest p /\
            pushRadius f * pushRadius f
            <= THREE.distanceToSquared (currentPosition p) pos)
    (particles st) ->
  (forall i j p1 p2,
     particles st !! i = Some p1 -> particles st !! j = Some p2 -> i <> j ->
     particleSize f * 2 * (particleSize f * 2)
     <= THREE.distanceToSquared (currentPosition p1) (currentPosition p2)) ->
  particles (animate props now pos st) = particles st.
Proof.
  intros Hmesh Hps Hmouse Hmorph Hvib f Hrest Hapart.
  unfold animate. rewrite Hmesh, Hmouse.
  replace (length (particles st) =? 0)%nat with false.
  2:{ destruct (particles st); [contradiction | reflexivity]. }
  simpl.
  assert (Ev : vibrancyStage props st = particles st).
  { unfold vibrancyStage, tickAppearance. simpl. rewrite Hvib, mathLerp_same.
    replace (vibrancy (appearance props) - vibrancy (appearance props))
      with 0 by ring.
    rewrite Rabs_R0, (proj2 (Rltb_false (1/1000) 0)) by lra. reflexivity. }
  rewrite Ev. unfold morphStage. rewrite Hmorph. simpl.
  unfold forceStage. fold f.
  assert (Epush : (if enablePushForce props && true
                      && Rltb 0 (pushRadius f)
                   then pushStage pos (pushRadius f) (pushStrength f)
                          (particles st)
                   else particles st) = particles st).
  { destruct (enablePushForce props && true && Rltb 0 (pushRadius f)) eqn:E;
      [|reflexivity].
    apply andb_prop in E as [_ E]. apply Rltb_true in E.
    rewrite pushStage_map by exact E.
    change (?g <$> ?l) with (map g l). apply map_fixed.
    eapply Forall_impl; [exact Hrest|].
    intros p [_ Hfar]. apply pushParticle_far, Hfar. }
  cbv zeta. rewrite Epush.
  assert (Eint : map (integrateParticle (returnStrength f) (damping f))
                   (particles st) = particles st).
  { apply map_fixed. eapply Forall_impl; [exact Hrest|].
    intros p [Hp _]. apply integrateParticle_atRest, Hp. }
  rewrite Eint.
  destruct (enableCollisions props); [|reflexivity].
  apply collide_fixed. intros i j p1 p2 E1 E2.
  destruct (decide (i = j)) as [->|Hij].
  - assert (p1 = p2) as -> by congruence. apply resolvePair_self.
  - apply resolvePair_skip. right. exact (Hapart i j p1 p2 E1 E2 Hij).
Qed.

Lemma rest_is_fixed_witness :
  let st :=
    stateWith [particleA;
               set_attractorPosition (particleAt 1 (THREE.mkVector3 10 0 0))
                 (THREE.mkVector3 10 0 0)] none
      initialMorphState in
  let pos := THREE.mkVector3 0 100 0 in
  instancedMesh st = true /\
  particles st <> [] /\
  mouseInteractionState st = none /\
  isMorphing (morph st) = false /\
  vibrancy (animatedAppearance st) = vibrancy (appearance defaultProps) /\
  particles (animate defaultProps 0 pos st) = particles st.
Proof.
  cbv zeta.
  set (st := stateWith
               [particleA;
                set_attractorPosition (particleAt 1 (THREE.mkVector3 10 0 0))
                  (THREE.mkVector3 10 0 0)] none
               initialMorphState).
  assert (H1 : instancedMesh st = true) by reflexivity.
  assert (H2 : particles st <> []) by discriminate.
  assert (H3 : mouseInteractionState st = none) by reflexivity.
  assert (H4 : isMorphing (morph st) = false) by reflexivity.
  assert (H5 : vibrancy (animatedAppearance st)
               = vibrancy (appearance defaultProps)) by reflexivity.
  assert (Ef : tickForce defaultProps st = defaultForce).
  { unfold tickForce, animateForce, st. simpl.
    rewrite !mathLerp_same. reflexivity. }
  split; [exact H1|]. split; [exact H2|]. split; [exact H3|].
  split; [exact H4|]. split; [exact H5|].
  apply (rest_is_fixed defaultProps 0 (THREE.mkVector3 0 100 0) st
           H1 H2 H3 H4 H5).
  - rewrite Ef. unfold st. simpl.
    repeat (apply Forall_cons; split;
            [split; [split; reflexivity|];
             unfold THREE.distanceToSquared; simpl; lra|]).
    apply Forall_nil. exact I.
  - rewrite Ef. unfold st. simpl.
    intros [|[|i]] [|[|j]] p1 p2 E1 E2 Hij; simpl in E1, E2;
      try discriminate; try congruence;
      injection E1 as <-; injection E2 as <-;
      unfold THREE.distanceToSquared; simpl; lra.
Defined.
